(** * Spatial audio conferencing platform: room server and spatial audio manager

    A shallow embedding of two files of the repository:

    - the client-side [SpatialAudioManager] class (the spatial mapping
      engine: coordinate transforms, the distance gain law, the table of
      audio sources and the spatial-mode toggle);
    - the Socket.IO connection handler of the server (room registry,
      signaling relay, presence broadcasts);

    and of the two classes of the room page that use them: [WebRTCManager]
    (peer connections and signaling) and [RoomManager] (participants,
    canvas, controls).

    JavaScript numbers are IEEE doubles.  [SpatialAudioIEEE] has the pure
    arithmetic of the manager on binary64 floats, the numbers the code
    computes with; what is proved of the coordinate transforms is proved
    there.  In [SpatialAudio] and in the room page numbers are idealised
    as real numbers: that model carries the tables and the control flow,
    and the bounds and the monotonicity of the gain. *)

From Stdlib Require Import Floats QArith.
From Stdlib Require Import Reals Lra.
From stdpp Require Import gmap strings list fin_maps.

Set Warnings "-inexact-float,-clear-no-such-hyp".

(* ===================================================================== *)
(** * The spatial audio manager *)
(* ===================================================================== *)

Module SpatialAudio.

Local Open Scope R_scope.

(** ** Data *)

(** [{ x, y, z }] object literals. *)
Record Position := mkPosition { x : R; y : R; z : R }.

Definition origin : Position := mkPosition 0 0 0.

(** A [PannerNode] exposes its position either through the three
    [AudioParam]s [positionX/Y/Z] (current browsers) or through the
    deprecated [setPosition] method.  Every panner has one of the two; the
    manager tests for the first and falls back to the second. *)
Inductive PannerApi := ModernApi | LegacyApi.

Record PannerNode := mkPanner {
  pannerApi : PannerApi;
  pannerPosition : Position
}.

(** The object stored per peer in [audioSources].  The media source node
    and the audio element are opaque handles that no method reads back; the
    entry keeps what the methods write: the panner, the value of
    [gainNode.gain] and the [position] field. *)
Record SourceData := mkSourceData {
  panner : PannerNode;
  gainNode : R;
  position : Position
}.

(** The fields of [SpatialAudioManager].  [masterGainNode] and [listener]
    are [null] until [initialize] succeeds. *)
Record Manager := mkManager {
  audioSources : gmap string SourceData;
  isEnabled : bool;
  initialized : bool;
  masterGainNode : option R;
  listener : option Position
}.

(** [constructor()] *)
Definition constructor : Manager :=
  {| audioSources := ∅; isEnabled := true; initialized := false;
     masterGainNode := None; listener := None |}.

Definition withSources (srcs : gmap string SourceData) (m : Manager) : Manager :=
  {| audioSources := srcs; isEnabled := isEnabled m;
     initialized := initialized m; masterGainNode := masterGainNode m;
     listener := listener m |}.

Definition withEnabled (b : bool) (m : Manager) : Manager :=
  {| audioSources := audioSources m; isEnabled := b;
     initialized := initialized m; masterGainNode := masterGainNode m;
     listener := listener m |}.

(** ** The gain law (lines 138-142 of the manager) *)

(** [Math.sqrt(x * x + y * y + z * z)] *)
Definition distance (p : Position) : R :=
  sqrt (x p * x p + y p * y p + z p * z p).

(** [Math.max(0.1, Math.min(1, 1 / (1 + distance * 0.1)))] *)
Definition volumeMultiplier (d : R) : R :=
  Rmax 0.1 (Rmin 1 (1 / (1 + d * 0.1))).

(** The value assigned to [gainNode.gain.value]: [0.5 * volumeMultiplier]. *)
Definition gainFor (d : R) : R := 0.5 * volumeMultiplier d.

(** ** Coordinate transforms *)

(** [{ x: canvasX, y: canvasY }] as returned by [worldToCanvasPosition]. *)
Record CanvasPoint := mkCanvasPoint { canvasX : R; canvasY : R }.

Definition canvasToWorldPosition (cX cY canvasWidth canvasHeight : R) : Position :=
  let nx := (cX / canvasWidth) * 2 - 1 in
  let nz := (cY / canvasHeight) * 2 - 1 in
  let ny := 0 in
  {| x := nx * 10; y := ny; z := nz * 10 |}.

Definition worldToCanvasPosition
    (worldX worldY worldZ canvasWidth canvasHeight : R) : CanvasPoint :=
  let nx := worldX / 10 in
  let nz := worldZ / 10 in
  {| canvasX := (nx + 1) * canvasWidth / 2;
     canvasY := (nz + 1) * canvasHeight / 2 |}.

(** ** Methods on the table of sources *)

(** Where the [try] block of [initialize()] raises, by what it has
    assigned so far.  The fields are assigned one by one, so what the
    [catch] clause finds depends on the statement that threw:
    - [throws_creating]: [new AudioContext()] or [createGain()] raises;
      neither [masterGainNode] nor [listener] is assigned yet;
    - [throws_connecting]: [masterGainNode.connect(...)] raises, after
      [masterGainNode] received the new gain node;
    - [throws_orienting]: setting the listener's orientation or position
      raises, after [listener] received the listener of the new context. *)
Inductive InitializeThrow :=
| throws_creating
| throws_connecting
| throws_orienting.

(** [initialize()].  [throws] is [None] when the [try] block runs to its
    end, and the place of the exception otherwise; the [catch] clause
    clears [initialized] and undoes no assignment.  A gain node is created
    with gain [1], the listener of a new context sits at the origin. *)
Definition initialize (throws : option InitializeThrow) (m : Manager)
    : bool * Manager :=
  match throws with
  | None =>
      (true,
       {| audioSources := audioSources m; isEnabled := isEnabled m;
          initialized := true; masterGainNode := Some 1;
          listener := Some origin |})
  | Some throws_creating =>
      (false,
       {| audioSources := audioSources m; isEnabled := isEnabled m;
          initialized := false; masterGainNode := masterGainNode m;
          listener := listener m |})
  | Some throws_connecting =>
      (false,
       {| audioSources := audioSources m; isEnabled := isEnabled m;
          initialized := false; masterGainNode := Some 1;
          listener := listener m |})
  | Some throws_orienting =>
      (false,
       {| audioSources := audioSources m; isEnabled := isEnabled m;
          initialized := false; masterGainNode := Some 1;
          listener := Some origin |})
  end.

(** [addAudioSource(peerId, audioElement)].  [flavour] is the API of the
    panner the audio context hands out, [throws] whether node creation
    raises (the media element may already be wired to another context). *)
Definition addAudioSource (peerId : string) (flavour : PannerApi)
    (throws : bool) (m : Manager) : bool * Manager :=
  if negb (initialized m) || negb (isEnabled m) then (false, m)
  else if throws then (false, m)
  else
    (true,
     withSources
       (<[peerId := {| panner := mkPanner flavour origin;
                       gainNode := 0.5;
                       position := origin |}]> (audioSources m)) m).

(** [removeAudioSource(peerId)] *)
Definition removeAudioSource (peerId : string) (m : Manager) : Manager :=
  match audioSources m !! peerId with
  | Some _ => withSources (delete peerId (audioSources m)) m
  | None => m
  end.

(** Writing the position into the panner: both API branches store the
    same three numbers. *)
Definition setPannerPosition (pn : PannerNode) (p : Position) : PannerNode :=
  match pannerApi pn with
  | ModernApi => mkPanner ModernApi (mkPosition (x p) (y p) (z p))
  | LegacyApi => mkPanner LegacyApi (mkPosition (x p) (y p) (z p))
  end.

(** [updateAudioSourcePosition(peerId, position)] *)
Definition updateAudioSourcePosition (peerId : string) (p : Position)
    (m : Manager) : Manager :=
  match audioSources m !! peerId with
  | Some sourceData =>
      if isEnabled m then
        let p' := mkPosition (x p) (y p) (z p) in
        withSources
          (<[peerId := {| panner := setPannerPosition (panner sourceData) p;
                          gainNode := gainFor (distance p');
                          position := p' |}]> (audioSources m)) m
      else m
  | None => m
  end.

(** [setListenerPosition(x, y, z)] *)
Definition setListenerPosition (p : Position) (m : Manager) : Manager :=
  match listener m with
  | None => m
  | Some _ =>
      {| audioSources := audioSources m; isEnabled := isEnabled m;
         initialized := initialized m; masterGainNode := masterGainNode m;
         listener := Some p |}
  end.

(** [setMasterVolume(volume)] *)
Definition setMasterVolume (volume : R) (m : Manager) : Manager :=
  match masterGainNode m with
  | Some _ =>
      {| audioSources := audioSources m; isEnabled := isEnabled m;
         initialized := initialized m; masterGainNode := Some volume;
         listener := listener m |}
  | None => m
  end.

(** [setSourceVolume(peerId, volume)] *)
Definition setSourceVolume (peerId : string) (volume : R) (m : Manager) : Manager :=
  match audioSources m !! peerId with
  | Some sourceData =>
      withSources
        (<[peerId := {| panner := panner sourceData; gainNode := volume;
                        position := position sourceData |}]> (audioSources m)) m
  | None => m
  end.

(** [this.audioSources.forEach((sourceData, peerId) => ...)].  The keys are
    those present when the loop starts (no callback of the class adds one);
    the callback receives the entry as it is when its turn comes, since the
    entries are objects mutated in place.  JavaScript visits the keys in
    insertion order, [elements] in another fixed order; the callbacks used
    here touch only the entry of their own key. *)
Definition forEachSource (f : SourceData -> string -> Manager -> Manager)
    (m : Manager) : Manager :=
  foldl (fun acc peerId =>
           match audioSources acc !! peerId with
           | Some sourceData => f sourceData peerId acc
           | None => acc
           end)
        m (elements (dom (audioSources m))).

(** [toggleSpatialAudio()] *)
Definition toggleSpatialAudio (m : Manager) : bool * Manager :=
  let m1 := withEnabled (negb (isEnabled m)) m in
  let m2 :=
    if negb (isEnabled m1) then
      forEachSource
        (fun sourceData peerId acc => updateAudioSourcePosition peerId origin acc) m1
    else
      forEachSource
        (fun sourceData peerId acc =>
           updateAudioSourcePosition peerId (position sourceData) acc) m1 in
  (isEnabled m2, m2).

(** [dispose()] *)
Definition dispose (m : Manager) : Manager :=
  let m1 := forEachSource (fun sourceData peerId acc => removeAudioSource peerId acc) m in
  {| audioSources := audioSources m1; isEnabled := isEnabled m1;
     initialized := false; masterGainNode := masterGainNode m1;
     listener := listener m1 |}.

(** [getAudioSourceInfo(peerId)] *)
Definition getAudioSourceInfo (peerId : string) (m : Manager) : option SourceData :=
  audioSources m !! peerId.

(** ** Sequences of method calls *)

(** The methods of the class other than [addAudioSource], as a caller may
    invoke them after a source was refused. *)
Inductive Call :=
| call_initialize (throws : option InitializeThrow)
| call_removeAudioSource (peerId : string)
| call_updateAudioSourcePosition (peerId : string) (p : Position)
| call_setListenerPosition (p : Position)
| call_setMasterVolume (volume : R)
| call_setSourceVolume (peerId : string) (volume : R)
| call_toggleSpatialAudio
| call_dispose.

Definition call (c : Call) (m : Manager) : Manager :=
  match c with
  | call_initialize throws => (initialize throws m).2
  | call_removeAudioSource peerId => removeAudioSource peerId m
  | call_updateAudioSourcePosition peerId p => updateAudioSourcePosition peerId p m
  | call_setListenerPosition p => setListenerPosition p m
  | call_setMasterVolume volume => setMasterVolume volume m
  | call_setSourceVolume peerId volume => setSourceVolume peerId volume m
  | call_toggleSpatialAudio => (toggleSpatialAudio m).2
  | call_dispose => dispose m
  end.

Definition calls (cs : list Call) (m : Manager) : Manager :=
  foldl (fun acc c => call c acc) m cs.

(** What a position update leaves in an entry: the position in the panner
    and the gain of its distance. *)
Definition rendered (sourceData : SourceData) : SourceData :=
  {| panner := setPannerPosition (panner sourceData) (position sourceData);
     gainNode := gainFor (distance (position sourceData));
     position := position sourceData |}.

(** ** Scenarios *)

(** The manager after [initialize()], [addAudioSource("peer", ...)] and a
    position update to [(3, 0, 4)]. *)
Definition managerWithPeer : Manager :=
  updateAudioSourcePosition "peer" (mkPosition 3 0 4)
    (addAudioSource "peer" ModernApi false (initialize None constructor).2).2.

(** The manager of [managerWithPeer] with spatial mode switched off. *)
Definition managerSwitchedOff : Manager := (toggleSpatialAudio managerWithPeer).2.

End SpatialAudio.

(* ===================================================================== *)
(** * The arithmetic of the manager on binary64 floats *)
(* ===================================================================== *)

(** The same expressions as in [SpatialAudio], on the numbers JavaScript
    computes with.  These definitions evaluate: the gain law and the
    transforms are run on concrete inputs, and the round trips between
    canvas and world are checked on grids of whole-number inputs. *)
Module SpatialAudioIEEE.

Local Open Scope float_scope.

(** [Math.max] and [Math.min] of two numbers: [NaN] when either is [NaN].
    (They differ from JavaScript's only in the sign of a zero result.) *)
Definition Math_max (a b : float) : float :=
  if orb (is_nan a) (is_nan b) then nan else if a <? b then b else a.

Definition Math_min (a b : float) : float :=
  if orb (is_nan a) (is_nan b) then nan else if a <? b then a else b.

Definition distance (x y z : float) : float :=
  PrimFloat.sqrt (x * x + y * y + z * z).

Definition volumeMultiplier (d : float) : float :=
  Math_max 0.1 (Math_min 1 (1 / (1 + d * 0.1))).

Definition gainFor (d : float) : float := 0.5 * volumeMultiplier d.

Definition canvasToWorldPosition (cX cY canvasWidth canvasHeight : float)
  : float * float * float :=
  let nx := (cX / canvasWidth) * 2 - 1 in
  let nz := (cY / canvasHeight) * 2 - 1 in
  let ny := 0 in
  (nx * 10, ny, nz * 10).

Definition worldToCanvasPosition
    (worldX worldY worldZ canvasWidth canvasHeight : float) : float * float :=
  let nx := worldX / 10 in
  let nz := worldZ / 10 in
  ((nx + 1) * canvasWidth / 2, (nz + 1) * canvasHeight / 2).

Definition roundtrip (px py canvasWidth canvasHeight : float) : float * float :=
  let '(wx, wy, wz) := canvasToWorldPosition px py canvasWidth canvasHeight in
  worldToCanvasPosition wx wy wz canvasWidth canvasHeight.

(** World to canvas and back to the world. *)
Definition backtrip (worldX worldY worldZ canvasWidth canvasHeight : float)
  : float * float * float :=
  let '(cX, cY) :=
    worldToCanvasPosition worldX worldY worldZ canvasWidth canvasHeight in
  canvasToWorldPosition cX cY canvasWidth canvasHeight.

(** ** Grids of whole numbers *)

(** The double of a whole number; the conversion is exact below [2^53]. *)
Definition ofZ (n : Z) : float :=
  match n with
  | Z.neg p => - PrimFloat.of_uint63 (Uint63.of_Z (Z.pos p))
  | _ => PrimFloat.of_uint63 (Uint63.of_Z n)
  end.

(** [|a - b| <= tol] *)
Definition within (tol a b : float) : bool := PrimFloat.abs (a - b) <=? tol.

(** [P lo && P (lo + 1) && ... && P (lo + n - 1)] *)
Fixpoint allFrom (P : Z -> bool) (lo : Z) (n : nat) : bool :=
  match n with
  | O => true
  | S k => P lo && allFrom P (lo + 1)%Z k
  end.


(** On a canvas side of [side] pixels: the world origin is the middle of
    the side, and every world coordinate [k / 4] between [-10] and [10]
    lands on the canvas and comes back within [2^-48] of itself. *)
Definition quartersReturn (side : Z) : bool :=
  let s := ofZ side in
  Leibniz.eqb (worldToCanvasPosition 0 0 0 s s).1 (s / 2)
  && allFrom (fun k =>
                let w := ofZ k / 4 in
                let c := (worldToCanvasPosition w 0 0 s s).1 in
                (0 <=? c) && (c <=? s)
                && within 0x1p-48 (backtrip w 0 0 s s).1.1 w)
             (-40) 81.

End SpatialAudioIEEE.

(* ===================================================================== *)
(** * The room server *)
(* ===================================================================== *)

Module Server.

(** ** Data *)

(** Socket ids, room ids and signaling targets are all strings, and all
    name Socket.IO rooms: [socket.join(roomId)], [socket.to(roomId)] and
    [socket.to(data.target)] go through the same room table. *)

(** The [{ x, y, z }] payload of [position-update]; JSON numbers are kept as
    rationals, the server never computes with them. *)
Record Position := mkPosition { x : Q; y : Q; z : Q }.

Definition origin : Position := mkPosition 0 0 0.

(** The value stored per member in a room's map. *)
Record User := mkUser {
  userId : Z;
  username : string;
  position : Position;
  muted : bool
}.

(** A server-side socket object: Socket.IO's own state ([connected] and the
    set [socket.rooms] of rooms it is in) and the three properties the
    [join-room] handler attaches to it ([undefined] before the first join). *)
Record Socket := mkSocket {
  connected : bool;
  socketRooms : gset string;
  roomId : option string;
  socketUserId : option Z;
  socketUsername : option string
}.

(** [rooms] is the module-level [Map] of the server; [sockets] holds every
    socket object created so far, keyed by [socket.id]. *)
Record State := mkState {
  rooms : gmap string (gmap string User);
  sockets : gmap string Socket
}.

Definition init : State := {| rooms := ∅; sockets := ∅ |}.

(** An element of the [existing-users] array. *)
Record ExistingUser := mkExistingUser {
  eu_socketId : string;
  eu_userId : Z;
  eu_username : string;
  eu_position : Position;
  eu_muted : bool
}.

(** Events the server emits, with their payload fields. *)
Inductive ServerEvent :=
| user_joined (socketId : string) (uid : Z) (name : string) (pos : Position)
| existing_users (users : list ExistingUser)
| offer (payload : string) (caller : string)
| answer (payload : string) (answerer : string)
| ice_candidate (payload : string) (sender : string)
| user_position_update (socketId : string) (pos : Position)
| user_mute_update (socketId : string) (m : bool)
| user_left (socketId : string) (uid : option Z) (name : option string).

(** One event handed to one socket. *)
Record Delivery := mkDelivery { recipient : string; event : ServerEvent }.

(** Messages a client sends on its socket; [disconnect] is the event
    Socket.IO raises when the channel closes. *)
Inductive ClientMessage :=
| join_room (room : string) (uid : Z) (name : string)
| send_offer (target : string) (payload : string)
| send_answer (target : string) (payload : string)
| send_ice_candidate (target : string) (payload : string)
| position_update (pos : Position)
| toggle_mute (m : bool)
| disconnect.

Inductive Input :=
| connection (s : string)
| message (s : string) (msg : ClientMessage).

(** ** Socket.IO primitives *)

(** [socket.to(room).emit(ev)]: [ev] goes to every socket that is in room
    [room], the emitting socket excepted.  Socket.IO 4 excepts the emitter
    as a room ([socket.to] starts a broadcast whose excepted rooms are
    [{socket.id}], and the adapter skips every socket found in an excepted
    room): the sockets skipped are those in the room named by the id of
    the emitter, which holds the emitter and whoever joined a room of that
    name. *)
Definition addressed (st : State) (sender room : string) : list string :=
  elements
    (dom (filter (fun kv : string * Socket =>
                    room ∈ socketRooms kv.2 ∧ sender ∉ socketRooms kv.2)
                 (sockets st))).

Definition to_emit (st : State) (sender room : string) (ev : ServerEvent)
  : list Delivery :=
  (fun t => mkDelivery t ev) <$> addressed st sender room.

(** [socket.join(room)] *)
Definition socket_join (room : string) (sk : Socket) : Socket :=
  {| connected := connected sk;
     socketRooms := {[room]} ∪ socketRooms sk;
     roomId := roomId sk;
     socketUserId := socketUserId sk;
     socketUsername := socketUsername sk |}.

(** What Socket.IO does to a socket before it raises [disconnect]: the
    socket leaves all its rooms and is marked as closed. *)
Definition socket_close (sk : Socket) : Socket :=
  {| connected := false;
     socketRooms := ∅;
     roomId := roomId sk;
     socketUserId := socketUserId sk;
     socketUsername := socketUsername sk |}.

Definition withRooms (r : gmap string (gmap string User)) (st : State) : State :=
  {| rooms := r; sockets := sockets st |}.

Definition withSocket (s : string) (sk : Socket) (st : State) : State :=
  {| rooms := rooms st; sockets := <[s := sk]> (sockets st) |}.

(** ** The handlers registered in [io.on('connection', ...)] *)

(** A new connection.  Socket.IO gives it a fresh id and puts it in the
    room named by that id; an id already in use is never handed out again. *)
Definition on_connection (s : string) (st : State) : State :=
  match sockets st !! s with
  | Some _ => st
  | None =>
      withSocket s {| connected := true; socketRooms := {[s]};
                      roomId := None; socketUserId := None;
                      socketUsername := None |} st
  end.

(** The array built by [roomUsers.forEach] in the [join-room] handler: one
    element per member other than the joining socket.  JavaScript visits
    the members in the order in which the [Map] received them; the registry
    is kept here as a finite map, which does not record that order, and the
    list follows [map_to_list].  It has the elements of the array, each
    once, and not their order: what is proved of the reply is about which
    elements it holds. *)
Definition existingUsers (s : string) (roomUsers : gmap string User)
  : list ExistingUser :=
  (fun kv : string * User =>
     mkExistingUser kv.1 (userId kv.2) (username kv.2) (position kv.2) (muted kv.2))
  <$> filter (fun kv : string * User => kv.1 ≠ s) (map_to_list roomUsers).

(** [socket.on('join-room', ...)] *)
Definition on_join_room (s : string) (sk : Socket) (room : string) (uid : Z)
    (name : string) (st : State) : State * list Delivery :=
  let sk' := {| connected := connected sk;
                socketRooms := socketRooms (socket_join room sk);
                roomId := Some room;
                socketUserId := Some uid;
                socketUsername := Some name |} in
  let rooms1 :=
    match rooms st !! room with
    | Some _ => rooms st
    | None => <[room := ∅]> (rooms st)
    end in
  let roomUsers :=
    <[s := mkUser uid name origin false]> (default ∅ (rooms1 !! room)) in
  let st' := withSocket s sk' (withRooms (<[room := roomUsers]> rooms1) st) in
  (st',
   to_emit st' s room (user_joined s uid name origin)
   ++ [mkDelivery s (existing_users (existingUsers s roomUsers))]).

(** [socket.on('offer' | 'answer' | 'ice-candidate', ...)] *)
Definition on_offer (s target payload : string) (st : State)
  : State * list Delivery :=
  (st, to_emit st s target (offer payload s)).

Definition on_answer (s target payload : string) (st : State)
  : State * list Delivery :=
  (st, to_emit st s target (answer payload s)).

Definition on_ice_candidate (s target payload : string) (st : State)
  : State * list Delivery :=
  (st, to_emit st s target (ice_candidate payload s)).

(** The guard shared by the last three handlers,
    [socket.roomId && rooms.has(socket.roomId)], followed by
    [rooms.get(socket.roomId)].  [undefined] and the empty string are the
    falsy values [socket.roomId] can hold. *)
Definition currentRoom (sk : Socket) (st : State)
  : option (string * gmap string User) :=
  match roomId sk with
  | Some r =>
      if bool_decide (r ≠ "") then
        match rooms st !! r with
        | Some roomUsers => Some (r, roomUsers)
        | None => None
        end
      else None
  | None => None
  end.

(** [socket.on('position-update', ...)] *)
Definition on_position_update (s : string) (sk : Socket) (pos : Position)
    (st : State) : State * list Delivery :=
  match currentRoom sk st with
  | Some (r, roomUsers) =>
      match roomUsers !! s with
      | Some u =>
          let u' := mkUser (userId u) (username u) pos (muted u) in
          (withRooms (<[r := <[s := u']> roomUsers]> (rooms st)) st,
           to_emit st s r (user_position_update s pos))
      | None => (st, [])
      end
  | None => (st, [])
  end.

(** [socket.on('toggle-mute', ...)] *)
Definition on_toggle_mute (s : string) (sk : Socket) (m : bool)
    (st : State) : State * list Delivery :=
  match currentRoom sk st with
  | Some (r, roomUsers) =>
      match roomUsers !! s with
      | Some u =>
          let u' := mkUser (userId u) (username u) (position u) m in
          (withRooms (<[r := <[s := u']> roomUsers]> (rooms st)) st,
           to_emit st s r (user_mute_update s m))
      | None => (st, [])
      end
  | None => (st, [])
  end.

(** [socket.on('disconnect', ...)], run after Socket.IO has closed the
    socket. *)
Definition on_disconnect (s : string) (sk : Socket) (st : State)
  : State * list Delivery :=
  let st0 := withSocket s (socket_close sk) st in
  match currentRoom sk st with
  | Some (r, roomUsers) =>
      let roomUsers' := delete s roomUsers in
      if decide (size roomUsers' = 0%nat) then
        (withRooms (delete r (rooms st0)) st0, [])
      else
        (withRooms (<[r := roomUsers']> (rooms st0)) st0,
         to_emit st0 s r (user_left s (socketUserId sk) (socketUsername sk)))
  | None => (st0, [])
  end.

(** ** The event loop *)

Definition handle (s : string) (sk : Socket) (msg : ClientMessage) (st : State)
  : State * list Delivery :=
  match msg with
  | join_room room uid name => on_join_room s sk room uid name st
  | send_offer target payload => on_offer s target payload st
  | send_answer target payload => on_answer s target payload st
  | send_ice_candidate target payload => on_ice_candidate s target payload st
  | position_update pos => on_position_update s sk pos st
  | toggle_mute m => on_toggle_mute s sk m st
  | disconnect => on_disconnect s sk st
  end.

(** One input handled to completion.  Handlers exist only on sockets that
    were connected and fire only while the socket is open. *)
Definition step (i : Input) (st : State) : State * list Delivery :=
  match i with
  | connection s => (on_connection s st, [])
  | message s msg =>
      match sockets st !! s with
      | Some sk => if connected sk then handle s sk msg st else (st, [])
      | None => (st, [])
      end
  end.

(** Inputs are handled one after the other; the deliveries are logged in
    the order they are made. *)
Fixpoint run (inputs : list Input) (st : State) : State * list Delivery :=
  match inputs with
  | [] => (st, [])
  | i :: rest =>
      let '(st1, out1) := step i st in
      let '(st2, out2) := run rest st1 in
      (st2, out1 ++ out2)
  end.

Definition reachable (st : State) : Prop :=
  ∃ inputs, (run inputs init).1 = st.

(** The registry's view of who is in room [r]. *)
Definition participants (st : State) (r : string) : gset string :=
  dom (default ∅ (rooms st !! r)).

(** The events delivered to socket [t], in order. *)
Definition inbox (t : string) (out : list Delivery) : list ServerEvent :=
  event <$> filter (fun d => recipient d = t) out.

(** ** Vocabulary of the specification *)

(** The three kinds of signaling payload the relay forwards. *)
Inductive Signal := connection_offer | connection_answer | candidate.

(** The client message that asks for a forward of kind [k], and the event
    the handler of that kind emits. *)
Definition forward (k : Signal) (target payload : string) : ClientMessage :=
  match k with
  | connection_offer => send_offer target payload
  | connection_answer => send_answer target payload
  | candidate => send_ice_candidate target payload
  end.

Definition forwarded (k : Signal) (payload sender : string) : ServerEvent :=
  match k with
  | connection_offer => offer payload sender
  | connection_answer => answer payload sender
  | candidate => ice_candidate payload sender
  end.

(** A run of forwards from one sender to one target. *)
Definition forwards (s target : string) (fs : list (Signal * string)) : list Input :=
  (fun f : Signal * string => message s (forward f.1 target f.2)) <$> fs.

(** The connections that have joined room [r] and have not disconnected
    since, read off the inputs alone.  [known] are the ids handed out so
    far, [opened] those whose socket is open, [members] the result. *)
Record Roll := mkRoll {
  known : gset string;
  opened : gset string;
  members : gset string
}.

Definition roll_step (r : string) (acc : Roll) (i : Input) : Roll :=
  match i with
  | connection s =>
      if decide (s ∈ known acc) then acc
      else mkRoll ({[s]} ∪ known acc) ({[s]} ∪ opened acc) (members acc)
  | message s (join_room r' _ _) =>
      if decide (s ∈ opened acc ∧ r' = r)
      then mkRoll (known acc) (opened acc) ({[s]} ∪ members acc)
      else acc
  | message s disconnect =>
      if decide (s ∈ opened acc)
      then mkRoll (known acc) (opened acc ∖ {[s]}) (members acc ∖ {[s]})
      else acc
  | message _ _ => acc
  end.

Definition joinedAndNotLeft (r : string) (inputs : list Input) : gset string :=
  members (foldl (roll_step r) (mkRoll ∅ ∅ ∅) inputs).

(** Inputs in which room ids are non-empty and every connection joins one
    room only, the room [home s] for connection [s]. *)
Definition joinsAgree (home : string -> string) (inputs : list Input) : Prop :=
  Forall (fun i => match i with
                   | message s (join_room r _ _) => r = home s ∧ r ≠ ""
                   | _ => True
                   end) inputs.

(** ** Scenarios *)

(** One open socket that has joined nothing, and the same socket alone in
    room ["r1"]. *)
Definition lobby : State := (run [connection "a"] init).1.

Definition aloneInRoom : State :=
  (run [connection "a"; message "a" (join_room "r1" 1 "alice")] init).1.

(** Two sockets in the room with the empty id. *)
Definition unnamedRoom : State :=
  (run [connection "a"; connection "b";
        message "a" (join_room "" 1 "alice");
        message "b" (join_room "" 2 "bob")] init).1.

(** Two sockets in room ["r1"]. *)
Definition twoInRoom : State :=
  (run [connection "a"; connection "b";
        message "a" (join_room "r1" 1 "alice");
        message "b" (join_room "r1" 2 "bob")] init).1.

(** ["b"] has left; ["a"] is still connected. *)
Definition afterLeave : State :=
  (run [message "b" disconnect] twoInRoom).1.

(** Two sockets in a room whose id is the socket id of one of them. *)
Definition roomNamedAfterMember : State :=
  (run [connection "a"; connection "b";
        message "a" (join_room "a" 1 "alice");
        message "b" (join_room "a" 2 "bob")] init).1.

(** ["c"] has joined a room whose id is the socket id of ["a"]. *)
Definition roomNamedAfterSocket : State :=
  (run [connection "a"; connection "c";
        message "c" (join_room "a" 3 "carol")] init).1.

(** One socket joins ["r1"], then ["r2"]; then it disconnects. *)
Definition rejoin : list Input :=
  [connection "s";
   message "s" (join_room "r1" 1 "sam");
   message "s" (join_room "r2" 1 "sam")].

Definition rejoinThenLeave : list Input := rejoin ++ [message "s" disconnect].

(** One socket joins the room with the empty id and disconnects. *)
Definition unnamedThenLeave : list Input :=
  [connection "s"; message "s" (join_room "" 1 "sam"); message "s" disconnect].

(** ["a"] and ["b"] join ["r1"], ["c"] joins ["r2"], then ["a"] leaves. *)
Definition twoRooms : list Input :=
  [connection "a"; connection "b"; connection "c";
   message "a" (join_room "r1" 1 "alice");
   message "b" (join_room "r1" 2 "bob");
   message "c" (join_room "r2" 3 "carol");
   message "a" (position_update (mkPosition 3 0 4));
   message "a" disconnect].

(** ** Invariant of the reachable states *)

Record Inv (st : State) : Prop := mkInv {
  (** an open socket is in the room named by its id *)
  inv_own : ∀ s sk,
    sockets st !! s = Some sk -> connected sk = true -> s ∈ socketRooms sk;
  (** a closed socket is in no Socket.IO room *)
  inv_closed : ∀ s sk,
    sockets st !! s = Some sk -> connected sk = false -> socketRooms sk = ∅;
  (** an open socket listed in a room of the registry is in the Socket.IO
      room of the same name *)
  inv_joined : ∀ r t sk,
    t ∈ participants st r -> sockets st !! t = Some sk ->
    connected sk = true -> r ∈ socketRooms sk;
  (** the registry holds no empty room *)
  inv_nonempty : ∀ r m, rooms st !! r = Some m -> m ≠ ∅;
  (** the registry lists only sockets that exist *)
  inv_known : ∀ r t, t ∈ participants st r -> is_Some (sockets st !! t);
  (** an open socket is listed in the room it recorded last *)
  inv_room : ∀ s sk r,
    sockets st !! s = Some sk -> connected sk = true ->
    roomId sk = Some r -> s ∈ participants st r
}.

(** What holds in addition while the inputs satisfy [joinsAgree home]. *)
Record Disciplined (home : string -> string) (st : State) : Prop := mkDisciplined {
  dis_inv : Inv st;
  (** a recorded room id is the home of the socket, and not empty *)
  dis_room : ∀ s sk r,
    sockets st !! s = Some sk -> roomId sk = Some r -> r = home s ∧ r ≠ "";
  (** a listed socket is open and has recorded the room that lists it *)
  dis_live : ∀ s r,
    s ∈ participants st r ->
    ∃ sk, sockets st !! s = Some sk ∧ connected sk = true ∧ roomId sk = Some r
}.

(** How the state of the server and the roll of room [r] correspond. *)
Record Sim (r : string) (st : State) (acc : Roll) : Prop := mkSim {
  sim_known : known acc = dom (sockets st);
  sim_opened : ∀ s,
    s ∈ opened acc ↔ ∃ sk, sockets st !! s = Some sk ∧ connected sk = true;
  sim_members : members acc = participants st r
}.

End Server.

(* ===================================================================== *)
(** * Sequences of calls on the spatial audio manager *)
(* ===================================================================== *)

Module ManagerRuns.
Import SpatialAudio.

(** Any method of [SpatialAudioManager] that changes it, with the
    arguments of the call. *)
Inductive Method :=
| method_addAudioSource (peerId : string) (flavour : PannerApi) (throws : bool)
| method_other (c : Call).

Definition invoke (mt : Method) (m : Manager) : Manager :=
  match mt with
  | method_addAudioSource peerId flavour throws =>
      (addAudioSource peerId flavour throws m).2
  | method_other c => call c m
  end.

Definition invokeAll (mts : list Method) (m : Manager) : Manager :=
  foldl (fun acc mt => invoke mt acc) m mts.

(** The managers a page can hold: [new SpatialAudioManager()] followed by
    calls of its methods. *)
Definition reachable (m : Manager) : Prop :=
  ∃ mts, invokeAll mts constructor = m.

(** [getAllAudioSources()]: the entries as an array, one per peer. *)
Definition getAllAudioSources (m : Manager) : list (string * SourceData) :=
  map_to_list (audioSources m).

(** Every panner holds the position stored in its entry. *)
Definition inStep (m : Manager) : Prop :=
  ∀ peerId sd, audioSources m !! peerId = Some sd ->
               pannerPosition (panner sd) = position sd.

End ManagerRuns.

(* ===================================================================== *)
(** * Further scenarios of the room server *)
(* ===================================================================== *)

Module ServerRuns.
Import Server.

(** ["a"] is in room ["r1"], has moved to [(3, 0, 4)] and has muted
    itself; ["b"] is connected and has joined nothing. *)
Definition movedAndMuted : State :=
  (run [connection "a"; connection "b";
        message "a" (join_room "r1" 1 "alice");
        message "a" (position_update (mkPosition 3 0 4));
        message "a" (toggle_mute true)] init).1.

(** The messages that are neither [join-room] nor [disconnect]. *)
Definition keepsMembership (msg : ClientMessage) : Prop :=
  match msg with
  | join_room _ _ _ | disconnect => False
  | _ => True
  end.

End ServerRuns.

(* ===================================================================== *)
(** * The room page: the WebRTC manager *)
(* ===================================================================== *)

(** The class [WebRTCManager] of [public/js/webrtc.js]: the table of peer
    connections and the signaling it sends.

    The handlers are [async] and wait for the browser between their steps.
    Here a handler runs to its end before the next event is handled, and
    what the browser answers during one run is an argument ([Browser]).
    The [audio] elements of the page are written, never read back by the
    fields kept here, and are left out; so are [roomId], [userId] and
    [username], which [initialize] stores and no method reads.  What a
    method sends on [socket] is returned as a list of [Emit]. *)
Module WebRTC.

(** ** Data *)

(** A [MediaStreamTrack] of the local stream: its [enabled] flag and
    whether [stop()] was called.  The stream is requested with
    [video: false], so its tracks are audio tracks. *)
Record Track := mkTrack { enabled : bool; stopped : bool }.

(** An [RTCPeerConnection], by what the manager has done to it: the number
    of tracks added, the descriptions that were set and the candidates that
    were added. *)
Record PeerConnection := mkPeerConnection {
  senders : nat;
  localDescription : option string;
  remoteDescription : option string;
  iceCandidates : list string
}.

(** [localStream] is [null] until [getUserMedia] has resolved. *)
Record Manager := mkManager {
  localStream : option (list Track);
  peerConnections : gmap string PeerConnection
}.

(** [constructor()] *)
Definition constructor : Manager :=
  {| localStream := None; peerConnections := ∅ |}.

(** What the browser answers during one run of a handler: whether
    [new RTCPeerConnection] succeeds for a peer, the descriptions
    [createOffer] and [createAnswer] resolve to ([None]: the promise
    rejects), and whether [setLocalDescription], [setRemoteDescription]
    (with the construction of its argument) and [addIceCandidate]
    resolve. *)
Record Browser := mkBrowser {
  constructs : string -> bool;
  createOffer : option string;
  createAnswer : option string;
  setLocalDescription : bool;
  setRemoteDescription : bool;
  addIceCandidate : bool
}.

(** What the page sends on its socket: [socket.emit(...)] with the fields
    of the payload, and [socket.disconnect()]. *)
Inductive Emit :=
| emit_join_room (roomId : string) (userId : Z) (username : string)
| emit_offer (target offer : string)
| emit_answer (target answer : string)
| emit_ice_candidate (target candidate : string)
| emit_position_update (p : SpatialAudio.Position)
| emit_toggle_mute (muted : bool)
| socket_disconnect.

Definition withPeers (pcs : gmap string PeerConnection) (w : Manager) : Manager :=
  {| localStream := localStream w; peerConnections := pcs |}.

Definition withLocal (d : string) (pc : PeerConnection) : PeerConnection :=
  {| senders := senders pc; localDescription := Some d;
     remoteDescription := remoteDescription pc;
     iceCandidates := iceCandidates pc |}.

Definition withRemote (d : string) (pc : PeerConnection) : PeerConnection :=
  {| senders := senders pc; localDescription := localDescription pc;
     remoteDescription := Some d;
     iceCandidates := iceCandidates pc |}.

Definition withCandidate (c : string) (pc : PeerConnection) : PeerConnection :=
  {| senders := senders pc; localDescription := localDescription pc;
     remoteDescription := remoteDescription pc;
     iceCandidates := iceCandidates pc ++ [c] |}.

(** ** Methods *)

(** [initialize(socket, roomId, userId, username)]: [getUserMedia] resolves
    to a stream ([Some tracks]) or rejects; the method then throws and the
    socket listeners are not set up. *)
Definition initialize (media : option (list Track)) (w : Manager) : option Manager :=
  match media with
  | Some tracks =>
      Some {| localStream := Some tracks; peerConnections := peerConnections w |}
  | None => None
  end.

(** [createPeerConnection(peerId)].  [None]: the method throws (the
    constructor failed, or [this.localStream] is [null]); the table is
    then as before.  An entry already there is replaced. *)
Definition createPeerConnection (b : Browser) (peerId : string) (w : Manager)
  : option (PeerConnection * Manager) :=
  if constructs b peerId then
    match localStream w with
    | Some tracks =>
        let peerConnection := mkPeerConnection (length tracks) None None [] in
        Some (peerConnection,
              withPeers (<[peerId := peerConnection]> (peerConnections w)) w)
    | None => None
    end
  else None.

(** [peerConnection.onicecandidate], set by [createPeerConnection]. *)
Definition onicecandidate (peerId : string) (candidate : option string) : list Emit :=
  match candidate with
  | Some c => [emit_ice_candidate peerId c]
  | None => []
  end.

(** The [icecandidate] events of the connection for [peerId], in order;
    the browser ends the gathering with a [null] candidate. *)
Definition onicecandidates (peerId : string) (candidates : list (option string))
  : list Emit :=
  concat (onicecandidate peerId <$> candidates).

(** [sendOffer(peerId)] *)
Definition sendOffer (b : Browser) (peerId : string) (w : Manager)
  : Manager * list Emit :=
  match peerConnections w !! peerId with
  | None => (w, [])
  | Some peerConnection =>
      match createOffer b with
      | Some offer =>
          if setLocalDescription b then
            (withPeers (<[peerId := withLocal offer peerConnection]>
                          (peerConnections w)) w,
             [emit_offer peerId offer])
          else (w, [])
      | None => (w, [])
      end
  end.

(** [handleOffer(offer, caller)].  Whatever throws is caught and logged;
    what was done before stays done. *)
Definition handleOffer (b : Browser) (offer caller : string) (w : Manager)
  : Manager * list Emit :=
  let found :=
    match peerConnections w !! caller with
    | Some peerConnection => Some (peerConnection, w)
    | None => createPeerConnection b caller w
    end in
  match found with
  | None => (w, [])
  | Some (peerConnection, w1) =>
      if setRemoteDescription b then
        let pc1 := withRemote offer peerConnection in
        let w2 := withPeers (<[caller := pc1]> (peerConnections w1)) w1 in
        match createAnswer b with
        | Some answer =>
            if setLocalDescription b then
              (withPeers (<[caller := withLocal answer pc1]>
                            (peerConnections w2)) w2,
               [emit_answer caller answer])
            else (w2, [])
        | None => (w2, [])
        end
      else (w1, [])
  end.

(** [handleAnswer(answer, answerer)] *)
Definition handleAnswer (b : Browser) (answer answerer : string) (w : Manager)
  : Manager :=
  match peerConnections w !! answerer with
  | Some peerConnection =>
      if setRemoteDescription b then
        withPeers (<[answerer := withRemote answer peerConnection]>
                     (peerConnections w)) w
      else w
  | None => w
  end.

(** [handleIceCandidate(candidate, sender)] *)
Definition handleIceCandidate (b : Browser) (candidate sender : string)
    (w : Manager) : Manager :=
  match peerConnections w !! sender with
  | Some peerConnection =>
      if addIceCandidate b then
        withPeers (<[sender := withCandidate candidate peerConnection]>
                     (peerConnections w)) w
      else w
  | None => w
  end.

(** [removePeerConnection(peerId)]: the connection is closed and dropped
    from the table. *)
Definition removePeerConnection (peerId : string) (w : Manager) : Manager :=
  match peerConnections w !! peerId with
  | Some _ => withPeers (delete peerId (peerConnections w)) w
  | None => w
  end.

(** [toggleMute()]: flips [enabled] of the first audio track and returns
    whether the track is now muted; [false] when there is no stream or no
    track. *)
Definition toggleMute (w : Manager) : bool * Manager :=
  match localStream w with
  | Some (audioTrack :: rest) =>
      let audioTrack' := mkTrack (negb (enabled audioTrack)) (stopped audioTrack) in
      (negb (enabled audioTrack'),
       {| localStream := Some (audioTrack' :: rest);
          peerConnections := peerConnections w |})
  | _ => (false, w)
  end.

(** [disconnect()]: stops the tracks, removes every connection (the loop
    visits the keys present when it starts), then clears the table. *)
Definition disconnect (w : Manager) : Manager :=
  let w1 :=
    {| localStream :=
         match localStream w with
         | Some tracks => Some ((fun t => mkTrack (enabled t) true) <$> tracks)
         | None => None
         end;
       peerConnections := peerConnections w |} in
  let w2 :=
    foldl (fun acc peerId => removePeerConnection peerId acc) w1
          (elements (dom (peerConnections w1))) in
  withPeers ∅ w2.

End WebRTC.

(* ===================================================================== *)
(** * The room page: the room manager *)
(* ===================================================================== *)

(** The class [RoomManager]: the participants shown on the canvas, the
    position of the user, and the handlers that tie the socket, the WebRTC
    manager and the spatial audio manager together.

    The handlers are registered by [initialize()] after
    [initializeSpatialAudio()] and [initializeWebRTC()] have run, so
    [spatialAudioManager] and [webrtcManager] are objects whenever a
    handler runs, and the callbacks of the WebRTC manager are the three set
    in [initializeWebRTC()].  The canvas is 800 by 600
    ([initializeCanvas()]).  Numbers are idealised as real numbers as in
    [SpatialAudio]: the handlers are followed through their control flow
    and their tables; what the arithmetic rounds to is the matter of
    [SpatialAudioIEEE]. *)
Module Room.
Import SpatialAudio.
Export WebRTC(Emit, emit_join_room, emit_offer, emit_answer,
              emit_ice_candidate, emit_position_update, emit_toggle_mute,
              socket_disconnect, Browser).

Local Open Scope R_scope.

(** ** Data *)

(** The value stored per socket id in [participants]. *)
Record Participant := mkParticipant {
  p_userId : Z;
  p_username : string;
  p_position : Position;
  p_muted : bool;
  p_color : option string
}.

(** The argument of [addParticipant]: the payload of [user-joined] (which
    has no [muted] field) or an element of [existing-users]. *)
Record UserData := mkUserData {
  ud_socketId : string;
  ud_userId : Z;
  ud_username : string;
  ud_position : option Position;
  ud_muted : option bool
}.

Record RoomManager := mkRoomManager {
  webrtcManager : WebRTC.Manager;
  spatialAudioManager : Manager;
  roomId : string;
  currentUserId : Z;
  currentUsername : string;
  participants : gmap string Participant;
  isDragging : bool;
  userPosition : Position;
  isMuted : bool;
  spatialEnabled : bool
}.

(** The room manager once [initialize()] has set the room, the user and
    the two managers: the other fields are as the constructor leaves
    them. *)
Definition opened (room : string) (uid : Z) (name : string)
    (w : WebRTC.Manager) (m : Manager) : RoomManager :=
  {| webrtcManager := w; spatialAudioManager := m;
     roomId := room; currentUserId := uid; currentUsername := name;
     participants := ∅; isDragging := false; userPosition := origin;
     isMuted := false; spatialEnabled := true |}.

Definition withWebRTC (w : WebRTC.Manager) (rm : RoomManager) : RoomManager :=
  {| webrtcManager := w; spatialAudioManager := spatialAudioManager rm;
     roomId := roomId rm; currentUserId := currentUserId rm;
     currentUsername := currentUsername rm; participants := participants rm;
     isDragging := isDragging rm; userPosition := userPosition rm;
     isMuted := isMuted rm; spatialEnabled := spatialEnabled rm |}.

Definition withSpatial (m : Manager) (rm : RoomManager) : RoomManager :=
  {| webrtcManager := webrtcManager rm; spatialAudioManager := m;
     roomId := roomId rm; currentUserId := currentUserId rm;
     currentUsername := currentUsername rm; participants := participants rm;
     isDragging := isDragging rm; userPosition := userPosition rm;
     isMuted := isMuted rm; spatialEnabled := spatialEnabled rm |}.

Definition withParticipants (ps : gmap string Participant) (rm : RoomManager)
  : RoomManager :=
  {| webrtcManager := webrtcManager rm;
     spatialAudioManager := spatialAudioManager rm;
     roomId := roomId rm; currentUserId := currentUserId rm;
     currentUsername := currentUsername rm; participants := ps;
     isDragging := isDragging rm; userPosition := userPosition rm;
     isMuted := isMuted rm; spatialEnabled := spatialEnabled rm |}.

Definition withDragging (d : bool) (rm : RoomManager) : RoomManager :=
  {| webrtcManager := webrtcManager rm;
     spatialAudioManager := spatialAudioManager rm;
     roomId := roomId rm; currentUserId := currentUserId rm;
     currentUsername := currentUsername rm; participants := participants rm;
     isDragging := d; userPosition := userPosition rm;
     isMuted := isMuted rm; spatialEnabled := spatialEnabled rm |}.

Definition canvasWidth : R := 800.
Definition canvasHeight : R := 600.

(** ** The canvas *)

Record MouseEvent := mkMouseEvent { clientX : R; clientY : R }.

(** [canvas.getBoundingClientRect()], of which the handlers read [left] and
    [top]. *)
Record DOMRect := mkDOMRect { rect_left : R; rect_top : R }.

(** Where [renderSpatialView()] draws the circle of the user, and the point
    [onMouseDown] compares the click with. *)
Definition userCanvasPos (rm : RoomManager) : CanvasPoint :=
  worldToCanvasPosition (x (userPosition rm)) (y (userPosition rm))
    (z (userPosition rm)) canvasWidth canvasHeight.

(** [onMouseDown(e)] *)
Definition onMouseDown (rect : DOMRect) (e : MouseEvent) (rm : RoomManager)
  : RoomManager :=
  let cx := clientX e - rect_left rect in
  let cy := clientY e - rect_top rect in
  let d := sqrt ((cx - canvasX (userCanvasPos rm)) ^ 2
                 + (cy - canvasY (userCanvasPos rm)) ^ 2) in
  if Rlt_dec d 20 then withDragging true rm else rm.

(** [updateUserPosition(canvasX, canvasY)] *)
Definition updateUserPosition (cx cy : R) (rm : RoomManager)
  : RoomManager * list Emit :=
  let p := canvasToWorldPosition cx cy canvasWidth canvasHeight in
  let m := setListenerPosition (mkPosition (x p) (y p) (z p))
             (spatialAudioManager rm) in
  ({| webrtcManager := webrtcManager rm; spatialAudioManager := m;
      roomId := roomId rm; currentUserId := currentUserId rm;
      currentUsername := currentUsername rm; participants := participants rm;
      isDragging := isDragging rm; userPosition := p;
      isMuted := isMuted rm; spatialEnabled := spatialEnabled rm |},
   [emit_position_update p]).

(** [onMouseMove(e)] *)
Definition onMouseMove (rect : DOMRect) (e : MouseEvent) (rm : RoomManager)
  : RoomManager * list Emit :=
  if isDragging rm then
    updateUserPosition (clientX e - rect_left rect) (clientY e - rect_top rect) rm
  else (rm, []).

(** [onMouseUp()] *)
Definition onMouseUp (rm : RoomManager) : RoomManager := withDragging false rm.

(** ** Participants *)

(** [generateParticipantColor(userId)]: [colors[userId % colors.length]].
    The remainder of JavaScript has the sign of the dividend; a negative
    index reads [undefined]. *)
Definition colors : list string :=
  ["#ff6b6b"; "#4ecdc4"; "#45b7d1"; "#ffd93d";
   "#6c5ce7"; "#fd79a8"; "#00b894"; "#e17055"].

Definition generateParticipantColor (userId : Z) : option string :=
  let i := Z.rem userId (Z.of_nat (length colors)) in
  if (0 <=? i)%Z then colors !! Z.to_nat i else None.

(** The object literal of [addParticipant]: [position] and [muted] fall
    back to the origin and to [false] when the payload lacks them. *)
Definition participantOf (userData : UserData) : Participant :=
  {| p_userId := ud_userId userData;
     p_username := ud_username userData;
     p_position := default origin (ud_position userData);
     p_muted := default false (ud_muted userData);
     p_color := generateParticipantColor (ud_userId userData) |}.

(** [addParticipant(userData)] *)
Definition addParticipant (userData : UserData) (rm : RoomManager) : RoomManager :=
  withParticipants
    (<[ud_socketId userData := participantOf userData]> (participants rm)) rm.

(** [removeParticipant(socketId)] *)
Definition removeParticipant (socketId : string) (rm : RoomManager) : RoomManager :=
  withSpatial (removeAudioSource socketId (spatialAudioManager rm))
    (withParticipants (delete socketId (participants rm)) rm).

(** [updateParticipantPosition(socketId, position)] *)
Definition updateParticipantPosition (socketId : string) (p : Position)
    (rm : RoomManager) : RoomManager :=
  match participants rm !! socketId with
  | Some participant =>
      withSpatial
        (updateAudioSourcePosition socketId p (spatialAudioManager rm))
        (withParticipants
           (<[socketId := {| p_userId := p_userId participant;
                             p_username := p_username participant;
                             p_position := p;
                             p_muted := p_muted participant;
                             p_color := p_color participant |}]>
              (participants rm)) rm)
  | None => rm
  end.

(** [updateParticipantMuteStatus(socketId, muted)] *)
Definition updateParticipantMuteStatus (socketId : string) (muted : bool)
    (rm : RoomManager) : RoomManager :=
  match participants rm !! socketId with
  | Some participant =>
      withParticipants
        (<[socketId := {| p_userId := p_userId participant;
                          p_username := p_username participant;
                          p_position := p_position participant;
                          p_muted := muted;
                          p_color := p_color participant |}]>
           (participants rm)) rm
  | None => rm
  end.

(** The [canplay] listener that [handleRemoteStream(peerId, stream)] puts
    on the audio element it creates.  [flavour] and [throws] are as in
    [addAudioSource]; [resumeContext()], called first and not awaited,
    touches the audio context only. *)
Definition onCanPlay (peerId : string) (flavour : PannerApi) (throws : bool)
    (rm : RoomManager) : RoomManager :=
  let m1 := (addAudioSource peerId flavour throws (spatialAudioManager rm)).2 in
  match participants rm !! peerId with
  | Some participant =>
      withSpatial (updateAudioSourcePosition peerId (p_position participant) m1) rm
  | None => withSpatial m1 rm
  end.

(** ** Controls *)

(** [toggleMute()] *)
Definition toggleMute (rm : RoomManager) : RoomManager * list Emit :=
  let r := WebRTC.toggleMute (webrtcManager rm) in
  ({| webrtcManager := r.2; spatialAudioManager := spatialAudioManager rm;
      roomId := roomId rm; currentUserId := currentUserId rm;
      currentUsername := currentUsername rm; participants := participants rm;
      isDragging := isDragging rm; userPosition := userPosition rm;
      isMuted := r.1; spatialEnabled := spatialEnabled rm |},
   [emit_toggle_mute r.1]).

(** [setVolume(volume)] *)
Definition setVolume (volume : R) (rm : RoomManager) : RoomManager :=
  withSpatial (setMasterVolume (volume / 100) (spatialAudioManager rm)) rm.

(** [toggleSpatialAudio()] *)
Definition toggleSpatialAudio (rm : RoomManager) : RoomManager :=
  let r := SpatialAudio.toggleSpatialAudio (spatialAudioManager rm) in
  {| webrtcManager := webrtcManager rm; spatialAudioManager := r.2;
     roomId := roomId rm; currentUserId := currentUserId rm;
     currentUsername := currentUsername rm; participants := participants rm;
     isDragging := isDragging rm; userPosition := userPosition rm;
     isMuted := isMuted rm; spatialEnabled := r.1 |}.

(** [leaveRoom()].  When the [fetch] rejects, the [catch] clause only
    leaves the page. *)
Definition leaveRoom (fetchFails : bool) (rm : RoomManager)
  : RoomManager * list Emit :=
  if fetchFails then (rm, [])
  else
    (withSpatial (dispose (spatialAudioManager rm))
       (withWebRTC (WebRTC.disconnect (webrtcManager rm)) rm),
     [socket_disconnect]).

(** ** Socket listeners *)

(** The numbers of a payload as the page reads them. *)
Definition ofWire (p : Server.Position) : Position :=
  mkPosition (Q2R (Server.x p)) (Q2R (Server.y p)) (Q2R (Server.z p)).

Definition ofExistingUser (user : Server.ExistingUser) : UserData :=
  {| ud_socketId := Server.eu_socketId user;
     ud_userId := Server.eu_userId user;
     ud_username := Server.eu_username user;
     ud_position := Some (ofWire (Server.eu_position user));
     ud_muted := Some (Server.eu_muted user) |}.

(** The [connect] listener of [initializeSocket()]. *)
Definition onConnect (rm : RoomManager) : list Emit :=
  [emit_join_room (roomId rm) (currentUserId rm) (currentUsername rm)].

(** The loop of the [existing-users] listener.  A [createPeerConnection]
    that throws ends the listener: the users after it are not added. *)
Fixpoint existingUsersLoop (b : Browser) (users : list Server.ExistingUser)
    (rm : RoomManager) : RoomManager :=
  match users with
  | [] => rm
  | user :: rest =>
      let rm1 := addParticipant (ofExistingUser user) rm in
      match WebRTC.createPeerConnection b (Server.eu_socketId user)
              (webrtcManager rm1) with
      | Some (_, w) => existingUsersLoop b rest (withWebRTC w rm1)
      | None => rm1
      end
  end.

(** The listeners of [setupSocketListeners()] (with the callbacks of
    [initializeWebRTC()]) and of [initializeSocket()], by event. *)
Definition onServerEvent (b : Browser) (ev : Server.ServerEvent)
    (rm : RoomManager) : RoomManager * list Emit :=
  match ev with
  | Server.offer payload caller =>
      let r := WebRTC.handleOffer b payload caller (webrtcManager rm) in
      (withWebRTC r.1 rm, r.2)
  | Server.answer payload answerer =>
      (withWebRTC (WebRTC.handleAnswer b payload answerer (webrtcManager rm)) rm, [])
  | Server.ice_candidate payload sender =>
      (withWebRTC (WebRTC.handleIceCandidate b payload sender (webrtcManager rm)) rm,
       [])
  | Server.user_joined socketId uid name pos =>
      let rm1 := addParticipant (mkUserData socketId uid name (Some (ofWire pos)) None)
                   rm in
      match WebRTC.createPeerConnection b socketId (webrtcManager rm1) with
      | Some (_, w) =>
          let r := WebRTC.sendOffer b socketId w in
          (withWebRTC r.1 rm1, r.2)
      | None => (rm1, [])
      end
  | Server.existing_users users => (existingUsersLoop b users rm, [])
  | Server.user_left socketId _ _ =>
      (removeParticipant socketId
         (withWebRTC (WebRTC.removePeerConnection socketId (webrtcManager rm)) rm),
       [])
  | Server.user_position_update socketId pos =>
      (updateParticipantPosition socketId (ofWire pos) rm, [])
  | Server.user_mute_update socketId m =>
      (updateParticipantMuteStatus socketId m rm, [])
  end.

(** The events of a list, handled in order with the same browser. *)
Definition onServerEvents (b : Browser) (evs : list Server.ServerEvent)
    (rm : RoomManager) : RoomManager * list Emit :=
  foldl (fun acc ev =>
           let r := onServerEvent b ev acc.1 in (r.1, acc.2 ++ r.2))
        (rm, []) evs.

(** ** The page and the server *)

(** A message of the page as the server receives it.  The numbers of a
    position travel as JSON. *)
Inductive onWire : Emit -> Server.ClientMessage -> Prop :=
| wire_join_room r uid name :
    onWire (emit_join_room r uid name) (Server.join_room r uid name)
| wire_offer target payload :
    onWire (emit_offer target payload) (Server.send_offer target payload)
| wire_answer target payload :
    onWire (emit_answer target payload) (Server.send_answer target payload)
| wire_ice_candidate target payload :
    onWire (emit_ice_candidate target payload)
           (Server.send_ice_candidate target payload)
| wire_position_update pos :
    onWire (emit_position_update (ofWire pos)) (Server.position_update pos)
| wire_toggle_mute m :
    onWire (emit_toggle_mute m) (Server.toggle_mute m)
| wire_disconnect :
    onWire socket_disconnect Server.disconnect.

(** A browser whose calls all succeed, with the descriptions it creates. *)
Definition willing (offer answer : string) : Browser :=
  WebRTC.mkBrowser (fun _ => true) (Some offer) (Some answer) true true true.

(** A page that holds a microphone track and an initialised spatial audio
    manager. *)
Definition ready (room : string) (uid : Z) (name : string) : RoomManager :=
  opened room uid name
    (default WebRTC.constructor
       (WebRTC.initialize (Some [WebRTC.mkTrack true false]) WebRTC.constructor))
    (initialize None constructor).2.

(** The page of socket ["a"] in the middle of a drag, and the page of
    socket ["b"] after it was told that ["a"] joined. *)
Definition alicePage : RoomManager := withDragging true (ready "r1" 1 "alice").

Definition bobPage : RoomManager :=
  (onServerEvent (willing "offer" "answer")
     (Server.user_joined "a" 1 "alice" Server.origin) (ready "r1" 2 "bob")).1.

End Room.

(* ===================================================================== *)
(** * Properties of the spatial audio manager *)
(* ===================================================================== *)

Module AudioProps.
Import SpatialAudio.

Local Open Scope R_scope.

(** ** The gain law *)

Lemma volumeMultiplier_bounds d : 0.1 <= volumeMultiplier d <= 1.
Proof.
  unfold volumeMultiplier. split.
  - apply Rmax_l.
  - apply Rmax_lub; [lra | apply Rmin_l].
Qed.

Lemma attenuation_antitone d1 d2 :
  0 <= d1 -> d1 <= d2 -> 1 / (1 + d2 * 0.1) <= 1 / (1 + d1 * 0.1).
Proof.
  intros H0 H12. unfold Rdiv. rewrite !Rmult_1_l.
  apply Rinv_le_contravar; lra.
Qed.

Lemma volumeMultiplier_antitone d1 d2 :
  0 <= d1 -> d1 <= d2 -> volumeMultiplier d2 <= volumeMultiplier d1.
Proof.
  intros H0 H12. unfold volumeMultiplier.
  pose proof (attenuation_antitone d1 d2 H0 H12) as Ha.
  apply Rmax_lub.
  - apply Rmax_l.
  - eapply Rle_trans; [| apply Rmax_r].
    apply Rmin_glb; [apply Rmin_l |].
    eapply Rle_trans; [apply Rmin_r | exact Ha].
Qed.

Lemma volumeMultiplier_origin : volumeMultiplier 0 = 1.
Proof.
  unfold volumeMultiplier.
  replace (1 / (1 + 0 * 0.1)) with 1 by (field; lra).
  rewrite Rmin_left by lra. rewrite Rmax_right by lra. reflexivity.
Qed.

(** From distance 90 on the multiplier sits on its floor. *)
Lemma volumeMultiplier_floor d : 90 <= d -> volumeMultiplier d = 0.1.
Proof.
  intros Hd. unfold volumeMultiplier.
  assert (1 / (1 + d * 0.1) <= 0.1) as Hle.
  { apply Rmult_le_reg_r with (1 + d * 0.1); [lra |].
    unfold Rdiv. rewrite Rmult_1_l, Rinv_l by lra. lra. }
  rewrite Rmin_right by lra. rewrite Rmax_left by lra. reflexivity.
Qed.

(** The gain that [updateAudioSourcePosition] stores is [gainFor] of the
    distance of the position it was given. *)
Lemma updateAudioSourcePosition_gain peerId p m sd :
  audioSources m !! peerId = Some sd -> isEnabled m = true ->
  gainNode <$> (audioSources (updateAudioSourcePosition peerId p m) !! peerId)
  = Some (gainFor (distance p)).
Proof.
  intros Hsd Hen. unfold updateAudioSourcePosition. rewrite Hsd, Hen. simpl.
  rewrite lookup_insert_eq. simpl. by destruct p.
Qed.

(** C1, as the specification states it, fails at distance 100: the gain
    there is 0.05, below the claimed floor of 0.1. *)
Lemma gainFor_below_claimed_floor :
  0 <= 100 /\ gainFor 100 = 0.05 /\ ~ (0.1 <= gainFor 100 <= 0.5).
Proof.
  assert (gainFor 100 = 0.05) as H.
  { unfold gainFor. rewrite volumeMultiplier_floor by lra. lra. }
  rewrite H. repeat split; lra.
Qed.

(** C1 (amended).  For distances [0 <= d1 <= d2] the gain written on a
    position update is non-increasing, [gainFor d2 <= gainFor d1]; it lies
    in [[0.05, 0.5]] (the floor is [0.5 * 0.1], reached from distance 90
    on); and it equals 0.5 at distance 0. *)
Theorem gainFor_law (d1 d2 : R) :
  0 <= d1 -> d1 <= d2 ->
  gainFor d2 <= gainFor d1 /\
  0.05 <= gainFor d1 <= 0.5 /\
  gainFor 0 = 0.5 /\
  gainFor (d1 + 90) = 0.05.
Proof.
  intros H0 H12. unfold gainFor.
  pose proof (volumeMultiplier_antitone d1 d2 H0 H12).
  pose proof (volumeMultiplier_bounds d1).
  rewrite volumeMultiplier_origin.
  rewrite (volumeMultiplier_floor (d1 + 90)) by lra.
  lra.
Qed.

Lemma gainFor_law_witness :
  gainFor 4 <= gainFor 3 /\
  0.05 <= gainFor 3 <= 0.5 /\
  gainFor 0 = 0.5 /\
  gainFor (3 + 90) = 0.05.
Proof. apply (gainFor_law 3 4); lra. Defined.

(** ** The gain law evaluated on binary64 floats *)

(** At the origin the gain is 0.5, at distance 5 (position [(3, 0, 4)]) it
    is one third, and at distance 100 it is 0.05: the floor of the gain is
    below 0.1 in floating point as well. *)
Example gainFor_binary64 :
  SpatialAudioIEEE.gainFor 0 = 0.5%float /\
  SpatialAudioIEEE.distance 3 0 4 = 5%float /\
  SpatialAudioIEEE.gainFor 100 = 0.05%float /\
  (SpatialAudioIEEE.gainFor 100 <? 0.1)%float = true.
Proof. vm_compute. repeat split. Qed.

(** ** Coordinate transforms, on binary64 floats *)

Lemma allFrom_spec (P : Z -> bool) (lo : Z) (n : nat) (i : Z) :
  SpatialAudioIEEE.allFrom P lo n = true ->
  (lo <= i < lo + Z.of_nat n)%Z -> P i = true.
Proof.
  revert lo. induction n as [| n IH]; intros lo Hall Hi; [lia |].
  cbn [SpatialAudioIEEE.allFrom] in Hall.
  apply andb_true_iff in Hall as [Hlo Hrest].
  destruct (Z.eq_dec i lo) as [-> | Hne]; [done |].
  apply (IH (lo + 1)%Z); [done | lia].
Qed.

(** [ofZ] gives the doubles of the whole numbers it is used on. *)
Example ofZ_binary64 :
  SpatialAudioIEEE.ofZ 0 = 0%float /\
  SpatialAudioIEEE.ofZ 600 = 600%float /\
  SpatialAudioIEEE.ofZ 4096 = 4096%float /\
  SpatialAudioIEEE.ofZ (-40) = (-40)%float.
Proof. vm_compute. repeat split. Qed.

(** On the canvas of the room page, 800 by 600, the centre and the pixel
    [(200, 150)] come back as themselves. *)
Example roundtrip_binary64 :
  SpatialAudioIEEE.roundtrip 200 150 800 600 = (200, 150)%float /\
  SpatialAudioIEEE.roundtrip 400 300 800 600 = (400, 300)%float /\
  SpatialAudioIEEE.canvasToWorldPosition 400 300 800 600 = (0, 0, 0)%float.
Proof. vm_compute. repeat split. Qed.






(** ** The table of sources *)

Lemma forEachSource_invariant (P : Manager -> Prop) f m :
  (forall sd k acc, P acc -> audioSources acc !! k = Some sd -> P (f sd k acc)) ->
  P m -> P (forEachSource f m).
Proof.
  intros Hf. unfold forEachSource.
  generalize (elements (dom (audioSources m))) as ks.
  intros ks. revert m. induction ks as [| k ks IH]; intros m Hm; simpl.
  - exact Hm.
  - apply IH. destruct (audioSources m !! k) as [sd |] eqn:Hk; [| exact Hm].
    by eapply Hf.
Qed.

Lemma updateAudioSourcePosition_disabled peerId p m :
  isEnabled m = false -> updateAudioSourcePosition peerId p m = m.
Proof.
  intros Hen. unfold updateAudioSourcePosition.
  destruct (audioSources m !! peerId); [by rewrite Hen | done].
Qed.

Lemma updateAudioSourcePosition_enabled peerId p m sd :
  isEnabled m = true -> audioSources m !! peerId = Some sd ->
  updateAudioSourcePosition peerId p m
  = withSources (<[peerId := rendered (mkSourceData (panner sd) (gainNode sd) p)]>
                   (audioSources m)) m.
Proof.
  intros Hen Hsd. unfold updateAudioSourcePosition. rewrite Hsd, Hen.
  unfold rendered. simpl. by destruct p.
Qed.

(** Switching spatial mode off flips the flag and nothing else: every
    update of the loop is refused by the [isEnabled] test it runs into. *)
Lemma toggleSpatialAudio_off m :
  isEnabled m = true -> toggleSpatialAudio m = (false, withEnabled false m).
Proof.
  intros Hen. unfold toggleSpatialAudio. rewrite Hen. simpl.
  set (m1 := withEnabled false m).
  assert (forEachSource
            (fun _ peerId acc => updateAudioSourcePosition peerId origin acc) m1
          = m1) as ->.
  { apply (forEachSource_invariant (fun acc => acc = m1)); [| done].
    intros sd k acc -> _. by apply updateAudioSourcePosition_disabled. }
  done.
Qed.

Lemma restore_loop (ks : list string) (m : Manager) :
  isEnabled m = true -> NoDup ks ->
  let m' := foldl (fun acc peerId =>
                     match audioSources acc !! peerId with
                     | Some sd => updateAudioSourcePosition peerId (position sd) acc
                     | None => acc
                     end) m ks in
  isEnabled m' = true /\ initialized m' = initialized m /\
  masterGainNode m' = masterGainNode m /\ listener m' = listener m /\
  forall k, audioSources m' !! k
            = if decide (k ∈ ks) then rendered <$> audioSources m !! k
              else audioSources m !! k.
Proof.
  revert m. induction ks as [| a ks IH]; intros m Hen Hnd; simpl.
  - repeat split; done.
  - apply NoDup_cons in Hnd as [Ha Hnd].
    set (m1 := match audioSources m !! a with
               | Some sd => updateAudioSourcePosition a (position sd) m
               | None => m
               end).
    assert (isEnabled m1 = true /\ initialized m1 = initialized m /\
            masterGainNode m1 = masterGainNode m /\ listener m1 = listener m /\
            forall k, audioSources m1 !! k
                      = if decide (k = a) then rendered <$> audioSources m !! k
                        else audioSources m !! k) as (E1 & E2 & E3 & E4 & E5).
    { subst m1. destruct (audioSources m !! a) as [sd |] eqn:Hsd.
      - rewrite (updateAudioSourcePosition_enabled _ _ _ sd) by done.
        repeat split; try done. intros k. simpl.
        destruct (decide (k = a)) as [-> |].
        + rewrite lookup_insert_eq, Hsd. simpl. by destruct sd.
        + by rewrite lookup_insert_ne.
      - repeat split; try done. intros k.
        destruct (decide (k = a)) as [-> |]; [by rewrite Hsd | done]. }
    destruct (IH m1 E1 Hnd) as (F1 & F2 & F3 & F4 & F5).
    repeat split; try congruence. intros k. rewrite F5, E5.
    destruct (decide (k = a)) as [-> |].
    + rewrite decide_False by done.
      rewrite decide_True by apply list_elem_of_here. done.
    + destruct (decide (k ∈ ks)) as [Hin | Hin].
      * rewrite decide_True by (by apply list_elem_of_further). done.
      * rewrite decide_False; [done |].
        intros [? | ?]%elem_of_cons; done.
Qed.

(** Switching spatial mode on writes into every panner the position its
    entry holds, and the gain of that position. *)
Lemma toggleSpatialAudio_on m :
  isEnabled m = false ->
  toggleSpatialAudio m
  = (true, withSources (rendered <$> audioSources m) (withEnabled true m)).
Proof.
  intros Hen. unfold toggleSpatialAudio. rewrite Hen. simpl.
  set (m1 := withEnabled true m). unfold forEachSource.
  destruct (restore_loop (elements (dom (audioSources m1))) m1)
    as (F1 & F2 & F3 & F4 & F5); [done | apply NoDup_elements |].
  set (m2 := foldl _ m1 _) in *. rewrite F1. f_equal.
  destruct m2 as [srcs en ini mg li]. simpl in *. subst.
  unfold withSources. simpl. f_equal.
  apply map_eq. intros k. rewrite F5, lookup_fmap.
  destruct (decide (k ∈ elements (dom (audioSources m)))) as [| Hk]; [done |].
  rewrite elem_of_elements, elem_of_dom in Hk.
  destruct (audioSources m !! k) eqn:E; [| done]. exfalso. apply Hk. eauto.
Qed.

Lemma managerWithPeer_eq :
  managerWithPeer
  = {| audioSources :=
         {[ "peer" := {| panner := mkPanner ModernApi (mkPosition 3 0 4);
                         gainNode := gainFor (distance (mkPosition 3 0 4));
                         position := mkPosition 3 0 4 |} ]};
       isEnabled := true; initialized := true;
       masterGainNode := Some 1; listener := Some origin |}.
Proof.
  unfold managerWithPeer, addAudioSource, initialize, constructor. simpl.
  unfold updateAudioSourcePosition, withSources. simpl.
  rewrite lookup_insert_eq. simpl. rewrite insert_insert_eq.
  by rewrite insert_empty.
Qed.

(** C2, evaluated.  With spatial mode on and one source whose panner is at
    [(3, 0, 4)], [toggleSpatialAudio()] returns [false] and leaves the
    panner at [(3, 0, 4)], not at the origin; the source is still in the
    table, and a second toggle returns [true] with the panner at
    [(3, 0, 4)]. *)
Theorem toggle_off_keeps_panner_position :
  let off := toggleSpatialAudio managerWithPeer in
  let on := toggleSpatialAudio off.2 in
  off.1 = false /\
  pannerPosition <$> (panner <$> audioSources off.2 !! "peer")
  = Some (mkPosition 3 0 4) /\
  mkPosition 3 0 4 <> origin /\
  on.1 = true /\
  pannerPosition <$> (panner <$> audioSources on.2 !! "peer")
  = Some (mkPosition 3 0 4).
Proof.
  cbv zeta.
  rewrite (toggleSpatialAudio_off managerWithPeer)
    by (by rewrite managerWithPeer_eq).
  cbn [fst snd]. rewrite toggleSpatialAudio_on by done. cbn [fst snd].
  unfold withSources, withEnabled. cbn [audioSources].
  rewrite managerWithPeer_eq. cbn [audioSources].
  rewrite lookup_fmap, !lookup_singleton_eq. simpl.
  repeat split; try done.
  intros Heq. apply (f_equal x) in Heq. simpl in Heq. lra.
Qed.

(** Switching spatial mode off and on again keeps every source: the first
    toggle leaves the table as it is, the second writes into every panner
    the position stored in its entry, so a panner that held its stored
    position holds it again. *)
Theorem toggle_off_on m peerId sd :
  isEnabled m = true -> audioSources m !! peerId = Some sd ->
  pannerPosition (panner sd) = position sd ->
  let off := toggleSpatialAudio m in
  let on := toggleSpatialAudio off.2 in
  off.1 = false /\ audioSources off.2 = audioSources m /\
  on.1 = true /\ audioSources on.2 = rendered <$> audioSources m /\
  pannerPosition <$> (panner <$> audioSources on.2 !! peerId)
  = Some (pannerPosition (panner sd)).
Proof.
  intros Hen Hsd Hpos. cbv zeta.
  rewrite (toggleSpatialAudio_off m) by done. cbn [fst snd].
  rewrite toggleSpatialAudio_on by done. cbn [fst snd].
  unfold withSources, withEnabled. cbn [audioSources].
  repeat split; try done.
  rewrite lookup_fmap, Hsd. simpl. f_equal. rewrite Hpos.
  unfold setPannerPosition. by destruct (pannerApi (panner sd)), (position sd).
Qed.

Lemma toggle_off_on_witness :
  let off := toggleSpatialAudio managerWithPeer in
  let on := toggleSpatialAudio off.2 in
  off.1 = false /\ audioSources off.2 = audioSources managerWithPeer /\
  on.1 = true /\ audioSources on.2 = rendered <$> audioSources managerWithPeer /\
  pannerPosition <$> (panner <$> audioSources on.2 !! "peer")
  = Some (mkPosition 3 0 4).
Proof.
  apply (toggle_off_on managerWithPeer "peer"
           {| panner := mkPanner ModernApi (mkPosition 3 0 4);
              gainNode := gainFor (distance (mkPosition 3 0 4));
              position := mkPosition 3 0 4 |}).
  - by rewrite managerWithPeer_eq.
  - rewrite managerWithPeer_eq. cbn [audioSources]. apply lookup_singleton_eq.
  - done.
Defined.

(** ** Refused sources *)

Lemma updateAudioSourcePosition_absent peerId k p m :
  audioSources m !! peerId = None ->
  audioSources (updateAudioSourcePosition k p m) !! peerId = None.
Proof.
  intros Habs. unfold updateAudioSourcePosition.
  destruct (audioSources m !! k) as [sd |] eqn:Hk; [| done].
  destruct (isEnabled m); [| done]. simpl.
  rewrite lookup_insert_ne; [done | congruence].
Qed.

Lemma removeAudioSource_absent peerId k m :
  audioSources m !! peerId = None ->
  audioSources (removeAudioSource k m) !! peerId = None.
Proof.
  intros Habs. unfold removeAudioSource.
  destruct (audioSources m !! k); [| done]. simpl.
  rewrite lookup_delete. by case_decide.
Qed.

Lemma toggleSpatialAudio_absent peerId m :
  audioSources m !! peerId = None ->
  audioSources (toggleSpatialAudio m).2 !! peerId = None.
Proof.
  intros Habs. destruct (isEnabled m) eqn:Hen.
  - by rewrite toggleSpatialAudio_off.
  - rewrite toggleSpatialAudio_on by done. simpl.
    by rewrite lookup_fmap, Habs.
Qed.

(** No method other than [addAudioSource] creates an entry. *)
Lemma call_absent peerId c m :
  audioSources m !! peerId = None ->
  audioSources (call c m) !! peerId = None.
Proof.
  intros Habs. destruct c; simpl.
  - unfold initialize. by destruct throws as [[] |].
  - by apply removeAudioSource_absent.
  - by apply updateAudioSourcePosition_absent.
  - unfold setListenerPosition. by destruct (listener m).
  - unfold setMasterVolume. by destruct (masterGainNode m).
  - unfold setSourceVolume.
    destruct (audioSources m !! peerId0) as [sd |] eqn:Hk; [| done]. simpl.
    rewrite lookup_insert_ne; [done | congruence].
  - by apply toggleSpatialAudio_absent.
  - unfold dispose. simpl.
    apply (forEachSource_invariant
             (fun acc => audioSources acc !! peerId = None)); [| done].
    intros sd k acc Hacc _. by apply removeAudioSource_absent.
Qed.

Lemma calls_absent peerId cs m :
  audioSources m !! peerId = None ->
  audioSources (calls cs m) !! peerId = None.
Proof.
  unfold calls. revert m. induction cs as [| c cs IH]; intros m Habs; simpl.
  - done.
  - apply IH. by apply call_absent.
Qed.

(** C10.  While the manager is uninitialized or spatial mode is off,
    [addAudioSource] for a peer that has no source returns [false] and
    leaves the manager, hence [audioSources], as it was.  The peer then has
    no source after the next [toggleSpatialAudio()] either, nor after any
    sequence of calls of the other methods: only a later [addAudioSource]
    can give it one. *)
Theorem addAudioSource_refused peerId flavour throws m cs :
  initialized m = false \/ isEnabled m = false ->
  audioSources m !! peerId = None ->
  let r := addAudioSource peerId flavour throws m in
  r = (false, m) /\
  audioSources r.2 = audioSources m /\
  audioSources (toggleSpatialAudio r.2).2 !! peerId = None /\
  audioSources (calls cs r.2) !! peerId = None.
Proof.
  intros Hoff Habs. cbv zeta.
  assert (addAudioSource peerId flavour throws m = (false, m)) as ->.
  { unfold addAudioSource. by destruct Hoff as [-> | ->], (initialized m). }
  cbn [snd]. repeat split.
  - by apply toggleSpatialAudio_absent.
  - by apply calls_absent.
Qed.

Lemma addAudioSource_refused_witness :
  let r := addAudioSource "late" ModernApi false managerSwitchedOff in
  r = (false, managerSwitchedOff) /\
  audioSources r.2 = audioSources managerSwitchedOff /\
  audioSources (toggleSpatialAudio r.2).2 !! "late" = None /\
  audioSources
    (calls [call_toggleSpatialAudio;
            call_updateAudioSourcePosition "late" (mkPosition 1 0 1)] r.2)
    !! "late" = None.
Proof.
  apply (addAudioSource_refused "late" ModernApi false managerSwitchedOff).
  - right. unfold managerSwitchedOff.
    rewrite toggleSpatialAudio_off by (by rewrite managerWithPeer_eq). done.
  - unfold managerSwitchedOff.
    rewrite toggleSpatialAudio_off by (by rewrite managerWithPeer_eq).
    cbn [snd]. unfold withEnabled. cbn [audioSources].
    rewrite managerWithPeer_eq. cbn [audioSources].
    by apply lookup_singleton_ne.
Defined.

End AudioProps.

(* ===================================================================== *)
(** * Properties of the room server *)
(* ===================================================================== *)

Module ServerProps.
Import Server.

(** ** Who receives an emit *)

Lemma elem_of_addressed st sender room t :
  t ∈ addressed st sender room
  ↔ ∃ sk, sockets st !! t = Some sk ∧ room ∈ socketRooms sk
          ∧ sender ∉ socketRooms sk.
Proof.
  unfold addressed. rewrite elem_of_elements, elem_of_dom. split.
  - intros [sk Hsk]. apply map_lookup_filter_Some in Hsk as [Hsk [Hin Hout]].
    simpl in *. eauto.
  - intros (sk & Hsk & Hin & Hout). exists sk.
    apply map_lookup_filter_Some. done.
Qed.

Lemma NoDup_addressed st sender room : NoDup (addressed st sender room).
Proof. apply NoDup_elements. Qed.

Lemma inbox_app t out1 out2 : inbox t (out1 ++ out2) = inbox t out1 ++ inbox t out2.
Proof. unfold inbox. by rewrite filter_app, fmap_app. Qed.

Lemma inbox_fanout t ev (l : list string) :
  NoDup l ->
  inbox t ((fun t' => mkDelivery t' ev) <$> l) = if decide (t ∈ l) then [ev] else [].
Proof.
  unfold inbox. induction 1 as [| a l Ha Hnd IH].
  - done.
  - rewrite fmap_cons, filter_cons. cbn [recipient].
    destruct (decide (a = t)) as [-> | Hne].
    + rewrite fmap_cons, IH. cbn [event].
      rewrite decide_False by done.
      rewrite decide_True by apply list_elem_of_here. done.
    + rewrite IH. destruct (decide (t ∈ l)) as [Hin | Hin].
      * rewrite decide_True by (by apply list_elem_of_further). done.
      * rewrite decide_False; [done |].
        intros [? | ?]%elem_of_cons; congruence.
Qed.

(** [socket.to(room).emit(ev)] hands [ev] exactly once to each socket of
    the room other than the sender, and to nobody else. *)
Lemma inbox_to_emit st sender room ev t :
  inbox t (to_emit st sender room ev)
  = if decide (t ∈ addressed st sender room) then [ev] else [].
Proof. unfold to_emit. apply inbox_fanout, NoDup_addressed. Qed.

(** The emitter gets nothing back: an open socket is in the room it is
    excepted by, a closed one is in no room. *)
Lemma inbox_to_emit_sender st sender sk room ev :
  sockets st !! sender = Some sk ->
  sender ∈ socketRooms sk ∨ socketRooms sk = ∅ ->
  inbox sender (to_emit st sender room ev) = [].
Proof.
  intros Hs Hown. rewrite inbox_to_emit, decide_False; [done |].
  rewrite elem_of_addressed. intros (sk' & Hs' & Hin & Hout).
  assert (sk' = sk) as -> by congruence.
  destruct Hown as [? | Hempty]; [done |]. rewrite Hempty in Hin. set_solver.
Qed.

Lemma to_emit_event st sender room ev d :
  d ∈ to_emit st sender room ev ->
  event d = ev ∧ recipient d ∈ addressed st sender room.
Proof.
  unfold to_emit. intros (t & -> & Ht)%list_elem_of_fmap. done.
Qed.

Lemma to_emit_nil st sender room ev :
  (∀ t tk, sockets st !! t = Some tk -> room ∈ socketRooms tk ->
           sender ∈ socketRooms tk) ->
  to_emit st sender room ev = [].
Proof.
  intros Hnone. unfold to_emit.
  destruct (addressed st sender room) as [| t l] eqn:E; [done |].
  assert (t ∈ addressed st sender room) as Ht by (rewrite E; apply list_elem_of_here).
  apply elem_of_addressed in Ht as (sk & Hsk & Hin & Hout).
  exfalso. eauto.
Qed.

(** ** What each handler does to the registry and to the sockets *)

Lemma elem_of_participants st r t :
  t ∈ participants st r ↔ ∃ m u, rooms st !! r = Some m ∧ m !! t = Some u.
Proof.
  unfold participants. destruct (rooms st !! r) as [m |]; simpl.
  - rewrite elem_of_dom. split.
    + intros [u Hu]. eauto.
    + intros (m' & u & [= <-] & Hu). eauto.
  - rewrite dom_empty_L. split; [set_solver |].
    intros (? & ? & ? & _). done.
Qed.

Lemma participants_None st r : rooms st !! r = None -> participants st r = ∅.
Proof. intros H. unfold participants. rewrite H. simpl. apply dom_empty_L. Qed.

Lemma participants_Some st r m : rooms st !! r = Some m -> participants st r = dom m.
Proof. intros H. unfold participants. by rewrite H. Qed.

Lemma currentRoom_Some sk st r m :
  currentRoom sk st = Some (r, m)
  ↔ roomId sk = Some r ∧ r ≠ "" ∧ rooms st !! r = Some m.
Proof.
  unfold currentRoom. destruct (roomId sk) as [r' |]; [| naive_solver].
  case_bool_decide; [| naive_solver].
  destruct (rooms st !! r') eqn:E; naive_solver.
Qed.

Lemma on_join_room_rooms s sk r uid name st :
  rooms (on_join_room s sk r uid name st).1
  = <[r := <[s := mkUser uid name origin false]> (default ∅ (rooms st !! r))]>
      (rooms st).
Proof.
  unfold on_join_room. simpl. destruct (rooms st !! r) eqn:E.
  - by rewrite E.
  - rewrite lookup_insert_eq. simpl. by rewrite insert_insert_eq.
Qed.

Lemma on_join_room_sockets s sk r uid name st :
  sockets (on_join_room s sk r uid name st).1
  = <[s := mkSocket (connected sk) ({[r]} ∪ socketRooms sk) (Some r)
                    (Some uid) (Some name)]> (sockets st).
Proof. done. Qed.

Lemma on_join_room_participants s sk r uid name st r' :
  participants (on_join_room s sk r uid name st).1 r'
  = if decide (r' = r) then {[s]} ∪ participants st r else participants st r'.
Proof.
  unfold participants at 1. rewrite on_join_room_rooms.
  case_decide as Hr; subst.
  - rewrite lookup_insert_eq. simpl. by rewrite dom_insert_L.
  - by rewrite lookup_insert_ne.
Qed.

Lemma on_position_update_sockets s sk pos st :
  sockets (on_position_update s sk pos st).1 = sockets st.
Proof.
  unfold on_position_update.
  destruct (currentRoom sk st) as [[r m] |]; [| done].
  by destruct (m !! s).
Qed.

Lemma on_toggle_mute_sockets s sk b st :
  sockets (on_toggle_mute s sk b st).1 = sockets st.
Proof.
  unfold on_toggle_mute.
  destruct (currentRoom sk st) as [[r m] |]; [| done].
  by destruct (m !! s).
Qed.

(** Overwriting the entry of a member changes neither the set of rooms nor
    the members of any room. *)
Lemma participants_overwrite st r m s u' r' :
  rooms st !! r = Some m -> is_Some (m !! s) ->
  participants (withRooms (<[r := <[s := u']> m]> (rooms st)) st) r'
  = participants st r'.
Proof.
  intros Hr Hs. unfold participants. simpl.
  destruct (decide (r' = r)) as [-> |].
  - rewrite lookup_insert_eq, Hr. simpl. rewrite dom_insert_L.
    apply elem_of_dom in Hs. set_solver.
  - by rewrite lookup_insert_ne.
Qed.

Lemma on_position_update_participants s sk pos st r' :
  participants (on_position_update s sk pos st).1 r' = participants st r'.
Proof.
  unfold on_position_update.
  destruct (currentRoom sk st) as [[r m] |] eqn:Hc; [| done].
  apply currentRoom_Some in Hc as (_ & _ & Hr).
  destruct (m !! s) eqn:Hs; [| done]. simpl.
  apply participants_overwrite; eauto.
Qed.

Lemma on_toggle_mute_participants s sk b st r' :
  participants (on_toggle_mute s sk b st).1 r' = participants st r'.
Proof.
  unfold on_toggle_mute.
  destruct (currentRoom sk st) as [[r m] |] eqn:Hc; [| done].
  apply currentRoom_Some in Hc as (_ & _ & Hr).
  destruct (m !! s) eqn:Hs; [| done]. simpl.
  apply participants_overwrite; eauto.
Qed.

Lemma on_disconnect_sockets s sk st :
  sockets (on_disconnect s sk st).1 = <[s := socket_close sk]> (sockets st).
Proof.
  unfold on_disconnect.
  destruct (currentRoom sk st) as [[r m] |]; [| done].
  by case_decide.
Qed.

Lemma on_disconnect_rooms s sk st :
  rooms (on_disconnect s sk st).1
  = match currentRoom sk st with
    | Some (r, m) =>
        if decide (size (delete s m) = 0%nat) then delete r (rooms st)
        else <[r := delete s m]> (rooms st)
    | None => rooms st
    end.
Proof.
  unfold on_disconnect.
  destruct (currentRoom sk st) as [[r m] |]; [| done].
  by case_decide.
Qed.

Lemma on_disconnect_participants s sk st r' :
  participants (on_disconnect s sk st).1 r'
  = match currentRoom sk st with
    | Some (r, _) =>
        if decide (r' = r) then participants st r ∖ {[s]} else participants st r'
    | None => participants st r'
    end.
Proof.
  unfold participants at 1. rewrite on_disconnect_rooms.
  destruct (currentRoom sk st) as [[r m] |] eqn:Hc; [| done].
  apply currentRoom_Some in Hc as (_ & _ & Hr).
  destruct (decide (r' = r)) as [-> |].
  - rewrite (participants_Some _ _ _ Hr). case_decide as Hsz.
    + rewrite lookup_delete_eq. simpl.
      apply map_size_empty_iff in Hsz.
      rewrite <- dom_delete_L, Hsz. done.
    + rewrite lookup_insert_eq. simpl. by rewrite dom_delete_L.
  - case_decide.
    + by rewrite lookup_delete_ne.
    + by rewrite lookup_insert_ne.
Qed.

(** ** The invariant holds in every reachable state *)

Lemma Inv_init : Inv init.
Proof.
  split; unfold init; simpl; intros *; rewrite lookup_empty; done.
Qed.

Lemma Inv_connection s st : Inv st -> Inv (on_connection s st).
Proof.
  intros [Hown Hclosed Hjoined Hne Hknown Hroom]. unfold on_connection.
  destruct (sockets st !! s) eqn:Hs; [done |].
  assert (∀ r, s ∉ participants st r) as Hfresh.
  { intros r Hin. apply Hknown in Hin as [? ?]. congruence. }
  split; simpl.
  - intros s' sk'. rewrite lookup_insert. case_decide; subst.
    + intros [= <-] _. simpl. set_solver.
    + apply Hown.
  - intros s' sk'. rewrite lookup_insert. case_decide; subst.
    + by intros [= <-].
    + apply Hclosed.
  - intros r t sk' Hin. rewrite lookup_insert. case_decide; subst.
    + by apply Hfresh in Hin.
    + by apply Hjoined.
  - done.
  - intros r t Hin. rewrite lookup_insert. case_decide; [done |].
    by eapply Hknown.
  - intros s' sk' r. rewrite lookup_insert. case_decide; subst.
    + by intros [= <-].
    + apply Hroom.
Qed.

Lemma Inv_join_room s sk r uid name st :
  sockets st !! s = Some sk -> connected sk = true ->
  Inv st -> Inv (on_join_room s sk r uid name st).1.
Proof.
  intros Hs Hc [Hown Hclosed Hjoined Hne Hknown Hroom].
  split.
  - intros s' sk'. rewrite on_join_room_sockets, lookup_insert.
    case_decide; subst.
    + intros [= <-] _. simpl.
      specialize (Hown _ _ Hs Hc). set_solver.
    + apply Hown.
  - intros s' sk'. rewrite on_join_room_sockets, lookup_insert.
    case_decide; subst.
    + intros [= <-]. simpl. congruence.
    + apply Hclosed.
  - intros r' t sk'.
    rewrite on_join_room_participants, on_join_room_sockets, lookup_insert.
    intros Hin. destruct (decide (s = t)) as [-> | Hst].
    + intros [= <-] _. simpl. case_decide; subst; [set_solver |].
      specialize (Hjoined _ _ _ Hin Hs Hc). set_solver.
    + intros Hsk' Hc'. case_decide; subst.
      * apply (Hjoined r t sk'); [set_solver | done..].
      * by apply (Hjoined r' t sk').
  - intros r' m. rewrite on_join_room_rooms, lookup_insert.
    case_decide; subst.
    + intros [= <-]. apply insert_non_empty.
    + apply Hne.
  - intros r' t. rewrite on_join_room_participants, on_join_room_sockets.
    intros Hin. rewrite lookup_insert.
    destruct (decide (s = t)) as [-> | Hst]; [by eexists |].
    case_decide; subst.
    + apply (Hknown r). set_solver.
    + by apply (Hknown r').
  - intros s' sk' r'.
    rewrite on_join_room_participants, on_join_room_sockets, lookup_insert.
    case_decide; subst.
    + intros [= <-] _. simpl. intros [= <-].
      rewrite decide_True by done. set_solver.
    + intros Hs' Hc' Hr'. specialize (Hroom _ _ _ Hs' Hc' Hr').
      case_decide; subst; set_solver.
Qed.

(** A handler that keeps the sockets, the members of every room and the
    absence of empty rooms keeps the invariant. *)
Lemma Inv_same_members st st' :
  sockets st' = sockets st ->
  (∀ r, participants st' r = participants st r) ->
  (∀ r m, rooms st' !! r = Some m -> m ≠ ∅) ->
  Inv st -> Inv st'.
Proof.
  intros Hs Hp Hne' [Hown Hclosed Hjoined Hne Hknown Hroom].
  split.
  - rewrite Hs. apply Hown.
  - rewrite Hs. apply Hclosed.
  - intros r t sk. rewrite Hp, Hs. apply Hjoined.
  - done.
  - intros r t. rewrite Hp, Hs. apply Hknown.
  - intros s sk r. rewrite Hp, Hs. apply Hroom.
Qed.

Lemma Inv_position_update s sk pos st :
  Inv st -> Inv (on_position_update s sk pos st).1.
Proof.
  intros HI. apply (Inv_same_members st); try done.
  - apply on_position_update_sockets.
  - apply on_position_update_participants.
  - unfold on_position_update.
    destruct (currentRoom sk st) as [[r m] |] eqn:Hc;
      [| apply (inv_nonempty _ HI)].
    destruct (m !! s) eqn:Hm; [| apply (inv_nonempty _ HI)]. simpl.
    intros r' m'. rewrite lookup_insert. case_decide; subst.
    + intros [= <-]. apply insert_non_empty.
    + apply (inv_nonempty _ HI).
Qed.

Lemma Inv_toggle_mute s sk b st :
  Inv st -> Inv (on_toggle_mute s sk b st).1.
Proof.
  intros HI. apply (Inv_same_members st); try done.
  - apply on_toggle_mute_sockets.
  - apply on_toggle_mute_participants.
  - unfold on_toggle_mute.
    destruct (currentRoom sk st) as [[r m] |] eqn:Hc;
      [| apply (inv_nonempty _ HI)].
    destruct (m !! s) eqn:Hm; [| apply (inv_nonempty _ HI)]. simpl.
    intros r' m'. rewrite lookup_insert. case_decide; subst.
    + intros [= <-]. apply insert_non_empty.
    + apply (inv_nonempty _ HI).
Qed.

Lemma Inv_disconnect s sk st :
  sockets st !! s = Some sk ->
  Inv st -> Inv (on_disconnect s sk st).1.
Proof.
  intros Hs [Hown Hclosed Hjoined Hne Hknown Hroom].
  assert (∀ r t, t ∈ participants (on_disconnect s sk st).1 r ->
                 t ∈ participants st r
                 ∧ (t = s -> currentRoom sk st = None ∨
                     ∃ r0 m0, currentRoom sk st = Some (r0, m0) ∧ r ≠ r0))
    as Hsub.
  { intros r t. rewrite on_disconnect_participants.
    destruct (currentRoom sk st) as [[r0 m0] |]; [| eauto].
    case_decide; subst; [set_solver | eauto 10]. }
  split.
  - intros s' sk'. rewrite on_disconnect_sockets, lookup_insert.
    case_decide; subst.
    + by intros [= <-].
    + apply Hown.
  - intros s' sk'. rewrite on_disconnect_sockets, lookup_insert.
    case_decide; subst.
    + by intros [= <-].
    + apply Hclosed.
  - intros r t sk' [Hin _]%Hsub.
    rewrite on_disconnect_sockets, lookup_insert. case_decide; subst.
    + by intros [= <-].
    + by apply Hjoined.
  - intros r m. rewrite on_disconnect_rooms.
    destruct (currentRoom sk st) as [[r0 m0] |]; [| apply Hne].
    case_decide as Hsz.
    + rewrite lookup_delete. case_decide; [done | apply Hne].
    + rewrite lookup_insert. case_decide; [| apply Hne].
      intros [= <-] Hm. apply Hsz. by rewrite Hm, map_size_empty.
  - intros r t [Hin _]%Hsub.
    rewrite on_disconnect_sockets, lookup_insert. case_decide; [done |].
    by eapply Hknown.
  - intros s' sk' r.
    rewrite on_disconnect_sockets, lookup_insert. case_decide; subst.
    + by intros [= <-].
    + intros Hs' Hc' Hr'. specialize (Hroom _ _ _ Hs' Hc' Hr').
      rewrite on_disconnect_participants.
      destruct (currentRoom sk st) as [[r0 m0] |]; [| done].
      case_decide; subst; set_solver.
Qed.

Lemma Inv_step i st : Inv st -> Inv (step i st).1.
Proof.
  intros HI. destruct i as [s | s msg]; simpl.
  - by apply Inv_connection.
  - destruct (sockets st !! s) as [sk |] eqn:Hs; [| done].
    destruct (connected sk) eqn:Hc; [| done].
    destruct msg; simpl; try done.
    + by apply Inv_join_room.
    + by apply Inv_position_update.
    + by apply Inv_toggle_mute.
    + by apply Inv_disconnect.
Qed.

Lemma Inv_run inputs st : Inv st -> Inv (run inputs st).1.
Proof.
  revert st. induction inputs as [| i rest IH]; intros st HI; simpl.
  - done.
  - pose proof (Inv_step i st HI) as H1.
    destruct (step i st) as [st1 out1]. simpl in H1.
    specialize (IH st1 H1).
    destruct (run rest st1) as [st2 out2]. done.
Qed.

Lemma Inv_reachable st : reachable st -> Inv st.
Proof. intros [inputs <-]. apply Inv_run, Inv_init. Qed.

(** ** Creation and deletion of rooms *)

Lemma rooms_absent_iff st r :
  Inv st -> participants st r = ∅ ↔ rooms st !! r = None.
Proof.
  intros HI. split; [| apply participants_None].
  intros Hp. destruct (rooms st !! r) as [m |] eqn:Hr; [| done].
  exfalso. apply (inv_nonempty _ HI _ _ Hr).
  rewrite (participants_Some _ _ _ Hr) in Hp. by apply dom_empty_iff_L.
Qed.

(** When the socket's recorded room has a non-empty id and the socket is
    its only member, the disconnect removes the room. *)
Lemma on_disconnect_last_member s sk st r :
  roomId sk = Some r -> r ≠ "" -> participants st r = {[s]} ->
  rooms (on_disconnect s sk st).1 !! r = None.
Proof.
  intros Hid Hr Hp. rewrite on_disconnect_rooms.
  destruct (rooms st !! r) as [m |] eqn:Hm.
  - rewrite (proj2 (currentRoom_Some sk st r m)) by done.
    rewrite (participants_Some _ _ _ Hm) in Hp.
    rewrite decide_True; [apply lookup_delete_eq |].
    apply map_size_empty_iff, dom_empty_iff_L.
    rewrite dom_delete_L, Hp. set_solver.
  - destruct (currentRoom sk st) as [[r0 m0] |] eqn:Hc; [| done].
    apply currentRoom_Some in Hc as (? & _ & ?). congruence.
Qed.

(** C6.  In a reachable state, for an open socket [s]:
    - a [join-room] for a room id [r] that has no participants finds no
      room [r] in the registry and creates it, with [s] as its only
      participant;
    - if [s] is the only participant of [r'] and its disconnect removes it
      from [r'], then [r'] is absent from the registry afterwards; the
      disconnect does remove it when [r'] is the room [s] recorded and its
      id is not empty;
    - if [s] is in no room, its disconnect leaves the registry as it was. *)
Theorem room_created_and_deleted st s sk r uid name r' :
  reachable st -> sockets st !! s = Some sk -> connected sk = true ->
  let joined := (step (message s (join_room r uid name)) st).1 in
  let left := (step (message s disconnect) st).1 in
  (participants st r = ∅ ->
   rooms st !! r = None ∧ is_Some (rooms joined !! r)
   ∧ participants joined r = {[s]}) ∧
  (participants st r' = {[s]} -> s ∉ participants left r' ->
   rooms left !! r' = None) ∧
  (participants st r' = {[s]} -> roomId sk = Some r' -> r' ≠ "" ->
   (s ∉ participants left r') ∧ rooms left !! r' = None) ∧
  ((∀ r0, s ∉ participants st r0) -> rooms left = rooms st).
Proof.
  intros Hreach Hs Hc. apply Inv_reachable in Hreach as HI.
  cbv zeta. unfold step. rewrite !Hs, !Hc. cbn [handle].
  split; [| split; [| split]].
  - intros Hp. split; [by apply rooms_absent_iff |].
    rewrite on_join_room_participants, decide_True, Hp by done.
    split; [| set_solver].
    rewrite on_join_room_rooms, lookup_insert_eq. by eexists.
  - intros Hp Hgone. rewrite on_disconnect_participants in Hgone.
    destruct (currentRoom sk st) as [[r0 m0] |] eqn:Hcur.
    + destruct (decide (r' = r0)) as [-> | Hne]; [| set_solver].
      apply currentRoom_Some in Hcur as (Hid & Hr0 & _).
      by apply on_disconnect_last_member.
    + set_solver.
  - intros Hp Hid Hr'.
    pose proof (on_disconnect_last_member s sk st r' Hid Hr' Hp) as Hgone.
    split; [| done].
    rewrite (participants_None _ _ Hgone). set_solver.
  - intros Hnone. rewrite on_disconnect_rooms.
    destruct (currentRoom sk st) as [[r0 m0] |] eqn:Hcur; [| done].
    apply currentRoom_Some in Hcur as (_ & _ & Hm0).
    assert (m0 !! s = None) as Hs0.
    { destruct (m0 !! s) as [u |] eqn:E; [| done].
      exfalso. apply (Hnone r0), elem_of_participants. eauto. }
    rewrite delete_id by done.
    rewrite decide_False.
    + by apply insert_id.
    + intros Hsz%map_size_empty_iff. by apply (inv_nonempty _ HI _ _ Hm0).
Qed.

Lemma room_created_and_deleted_witness :
  (rooms lobby !! "r1" = None
   ∧ is_Some (rooms aloneInRoom !! "r1")
   ∧ participants aloneInRoom "r1" = {["a"]}) ∧
  rooms (step (message "a" disconnect) aloneInRoom).1 !! "r1" = None ∧
  (("a" ∉ participants (step (message "a" disconnect) aloneInRoom).1 "r1")
   ∧ rooms (step (message "a" disconnect) aloneInRoom).1 !! "r1" = None) ∧
  rooms (step (message "a" disconnect) lobby).1 = rooms lobby.
Proof.
  pose proof (room_created_and_deleted lobby "a"
                (mkSocket true {["a"]} None None None) "r1" 1 "alice" "r1")
    as Hlobby.
  pose proof (room_created_and_deleted aloneInRoom "a"
                (mkSocket true {["r1"; "a"]} (Some "r1") (Some 1%Z) (Some "alice"))
                "r1" 1 "alice" "r1") as Halone.
  cbv zeta in *.
  destruct Hlobby as (Hcreate & _ & _ & Hnoop).
  { by exists [connection "a"]. }
  { by vm_compute. }
  { done. }
  destruct Halone as (_ & Hlast & Hrecorded & _).
  { by exists [connection "a"; message "a" (join_room "r1" 1 "alice")]. }
  { by vm_compute. }
  { done. }
  split; [apply Hcreate; by vm_compute |].
  split; [apply Hlast; by vm_compute |].
  split; [apply Hrecorded; [by vm_compute | done | done] |].
  apply Hnoop. intros r0. by vm_compute.
Defined.

(** ** Position and mute updates *)

Lemma currentRoom_no_member s sk st :
  (∀ r, s ∉ participants st r) ->
  match currentRoom sk st with
  | Some (r, m) => m !! s = None
  | None => True
  end.
Proof.
  intros Hnone. destruct (currentRoom sk st) as [[r m] |] eqn:Hc; [| done].
  apply currentRoom_Some in Hc as (_ & _ & Hm).
  destruct (m !! s) as [u |] eqn:E; [| done].
  exfalso. apply (Hnone r), elem_of_participants. eauto.
Qed.

(** C7, evaluated.  In [unnamedRoom] the open sockets ["a"] and ["b"] are
    the participants of the room whose id is the empty string, and that
    room is the one ["a"] recorded when it joined.  A position update from
    ["a"] is not recorded and is sent to nobody, and neither is a mute
    update: the guard [socket.roomId && rooms.has(socket.roomId)] takes
    the empty id for no room, although [join-room] registered the room
    under it. *)
Theorem update_in_unnamed_room_ignored :
  participants unnamedRoom "" = {["a"; "b"]} ∧
  roomId <$> sockets unnamedRoom !! "a" = Some (Some "") ∧
  connected <$> sockets unnamedRoom !! "a" = Some true ∧
  connected <$> sockets unnamedRoom !! "b" = Some true ∧
  step (message "a" (position_update (mkPosition 3 0 4))) unnamedRoom
  = (unnamedRoom, []) ∧
  step (message "a" (toggle_mute true)) unnamedRoom = (unnamedRoom, []).
Proof. by vm_compute. Qed.

(** In a room whose id is the socket id of the sender the update is
    recorded, but ["b"], being in the Socket.IO room that names the
    sender, is skipped by [socket.to]. *)
Example update_in_room_named_after_sender :
  participants roomNamedAfterMember "a" = {["a"; "b"]} ∧
  connected <$> sockets roomNamedAfterMember !! "b" = Some true ∧
  position <$> (rooms (step (message "a" (position_update (mkPosition 3 0 4)))
                         roomNamedAfterMember).1 !! "a" ≫= (.!! "a"))
  = Some (mkPosition 3 0 4) ∧
  (step (message "a" (position_update (mkPosition 3 0 4))) roomNamedAfterMember).2
  = [].
Proof. by vm_compute. Qed.

(** Where the updates do go through.  In a reachable state let [s] be an
    open socket.
    - If the room [r] that [s] recorded has a non-empty id and lists [s],
      a position update (a mute update) from [s] replaces the position (the
      mute flag) of [s] in [r] and nothing else in the registry; every
      other participant of [r] whose socket is open, and has not joined a
      room named by the id of [s], receives [user-position-update]
      ([user-mute-update]) exactly once; every delivery carries the id of
      [s] and the new value; [s] receives nothing.
    - If [s] is listed in no room, either update leaves the state as it
      was and emits nothing. *)
Theorem member_update_broadcast st s sk pos b :
  reachable st -> sockets st !! s = Some sk -> connected sk = true ->
  let moved := step (message s (position_update pos)) st in
  let muted' := step (message s (toggle_mute b)) st in
  (∀ r m u,
     roomId sk = Some r -> r ≠ "" -> rooms st !! r = Some m -> m !! s = Some u ->
     rooms moved.1
     = <[r := <[s := mkUser (userId u) (username u) pos (muted u)]> m]> (rooms st)
     ∧ rooms muted'.1
       = <[r := <[s := mkUser (userId u) (username u) (position u) b]> m]> (rooms st)
     ∧ (∀ t tk, t ≠ s -> t ∈ participants st r ->
                sockets st !! t = Some tk -> connected tk = true ->
                s ∉ socketRooms tk ->
                inbox t moved.2 = [user_position_update s pos]
                ∧ inbox t muted'.2 = [user_mute_update s b])
     ∧ (∀ d, d ∈ moved.2 -> event d = user_position_update s pos)
     ∧ (∀ d, d ∈ muted'.2 -> event d = user_mute_update s b)
     ∧ inbox s moved.2 = [] ∧ inbox s muted'.2 = []) ∧
  ((∀ r, s ∉ participants st r) -> moved = (st, []) ∧ muted' = (st, [])).
Proof.
  intros Hreach Hs Hc. apply Inv_reachable in Hreach as HI.
  cbv zeta. unfold step. rewrite Hs, Hc. cbn [handle].
  unfold on_position_update, on_toggle_mute. split.
  - intros r m u Hid Hr Hm Hu.
    rewrite (proj2 (currentRoom_Some sk st r m)) by done. rewrite Hu.
    cbn [fst snd withRooms rooms].
    split; [done |]. split; [done |]. split; [| split; [| split; [| split]]].
    + intros t tk Hne Hin Ht Htc Hpriv.
      assert (t ∈ addressed st s r) as Hadd.
      { apply elem_of_addressed. exists tk. split; [done |]. split; [| done].
        by apply (inv_joined _ HI r t tk). }
      rewrite !inbox_to_emit, !decide_True by done. done.
    + by intros d [? _]%to_emit_event.
    + by intros d [? _]%to_emit_event.
    + apply (inbox_to_emit_sender st s sk); [done |]. left.
      by apply (inv_own _ HI).
    + apply (inbox_to_emit_sender st s sk); [done |]. left.
      by apply (inv_own _ HI).
  - intros Hnone. pose proof (currentRoom_no_member s sk st Hnone) as Hcur.
    destruct (currentRoom sk st) as [[r m] |]; [| done].
    by rewrite Hcur.
Qed.

Lemma member_update_broadcast_witness :
  let moved := step (message "a" (position_update (mkPosition 3 0 4))) twoInRoom in
  participants moved.1 "r1" = {["a"; "b"]} ∧
  position <$> (rooms moved.1 !! "r1" ≫= (.!! "a")) = Some (mkPosition 3 0 4) ∧
  inbox "b" moved.2 = [user_position_update "a" (mkPosition 3 0 4)] ∧
  inbox "a" moved.2 = [] ∧
  step (message "a" (toggle_mute true)) lobby = (lobby, []).
Proof.
  pose proof (member_update_broadcast twoInRoom "a"
                (mkSocket true {["r1"; "a"]} (Some "r1") (Some 1%Z) (Some "alice"))
                (mkPosition 3 0 4) true) as Hroom.
  pose proof (member_update_broadcast lobby "a"
                (mkSocket true {["a"]} None None None)
                (mkPosition 3 0 4) true) as Hlobby.
  cbv zeta in *.
  destruct Hroom as [Hroom _].
  { by exists [connection "a"; connection "b";
               message "a" (join_room "r1" 1 "alice");
               message "b" (join_room "r1" 2 "bob")]. }
  { by vm_compute. }
  { done. }
  destruct Hlobby as [_ Hlobby].
  { by exists [connection "a"]. }
  { by vm_compute. }
  { done. }
  destruct (Hroom "r1"
              {[ "a" := mkUser 1 "alice" origin false;
                 "b" := mkUser 2 "bob" origin false ]}
              (mkUser 1 "alice" origin false))
    as (Hrec & _ & Hothers & _ & _ & Hself & _);
    [done | done | by vm_compute | by vm_compute |].
  destruct (Hothers "b" (mkSocket true {["r1"; "b"]} (Some "r1") (Some 2%Z) (Some "bob")))
    as [Hb _]; [done | by vm_compute | by vm_compute | done | set_solver |].
  split; [by vm_compute |]. split; [by rewrite Hrec; vm_compute |].
  split; [exact Hb |]. split; [exact Hself |].
  apply Hlobby. intros r. by vm_compute.
Defined.

(** ** The signaling relay *)

Lemma step_forward st s sk k target payload :
  sockets st !! s = Some sk -> connected sk = true ->
  step (message s (forward k target payload)) st
  = (st, to_emit st s target (forwarded k payload s)).
Proof.
  intros Hs Hc. unfold step. rewrite Hs, Hc. by destruct k.
Qed.

Lemma run_forwards st s sk target fs :
  sockets st !! s = Some sk -> connected sk = true ->
  (run (forwards s target fs) st).1 = st ∧
  ∀ t, inbox t (run (forwards s target fs) st).2
       = if decide (t ∈ addressed st s target)
         then (fun f : Signal * string => forwarded f.1 f.2 s) <$> fs
         else [].
Proof.
  intros Hs Hc. induction fs as [| [k payload] fs [IH1 IH2]].
  - split; [done |]. intros t. by case_decide.
  - unfold forwards. rewrite fmap_cons. cbn [run fst snd].
    rewrite (step_forward st s sk) by done.
    fold (forwards s target fs).
    destruct (run (forwards s target fs) st) as [st2 out2].
    simpl in IH1, IH2. subst st2. split; [done |].
    intros t. cbn [snd]. rewrite inbox_app, inbox_to_emit, IH2.
    by case_decide.
Qed.

(** C8, as stated, fails when the target is the sender: ["a"] is an open
    connection, yet the offer it addresses to itself is not delivered.  It
    also fails for a target that has joined a room named by the id of the
    sender: ["c"] is open, yet the offer ["a"] addresses to it is not
    delivered. *)
Lemma offer_to_self_not_delivered :
  connected <$> sockets lobby !! "a" = Some true ∧
  step (message "a" (forward connection_offer "a" "sdp")) lobby = (lobby, []) ∧
  inbox "a" (step (message "a" (forward connection_offer "a" "sdp")) lobby).2
  ≠ [forwarded connection_offer "sdp" "a"] ∧
  connected <$> sockets roomNamedAfterSocket !! "c" = Some true ∧
  step (message "a" (forward connection_offer "c" "sdp")) roomNamedAfterSocket
  = (roomNamedAfterSocket, []).
Proof. by vm_compute. Qed.

(** C8 (amended).  In a reachable state let [s] be an open socket that
    forwards a payload of kind [k] to [target].
    - The state is unchanged (nothing is stored or queued), [s] receives
      nothing, and every delivery made is the event of kind [k] with the
      original payload and the id of [s].
    - If [target] names an open socket other than [s] that has not joined
      a room named by the id of [s], that socket receives the event exactly
      once; and a run of forwards from [s] to this target arrives there
      complete and in the order sent.
    - If no socket is in the Socket.IO room named [target] (the target is
      gone and nobody joined a room of that name), or only sockets that
      are also in the room named by the id of [s], nothing is delivered. *)
Theorem forward_delivery st s sk k target payload fs :
  reachable st -> sockets st !! s = Some sk -> connected sk = true ->
  let r := step (message s (forward k target payload)) st in
  r.1 = st ∧
  inbox s r.2 = [] ∧
  (∀ d, d ∈ r.2 -> event d = forwarded k payload s) ∧
  (∀ tk, target ≠ s -> sockets st !! target = Some tk -> connected tk = true ->
         s ∉ socketRooms tk ->
         inbox target r.2 = [forwarded k payload s]
         ∧ inbox target (run (forwards s target fs) st).2
           = (fun f : Signal * string => forwarded f.1 f.2 s) <$> fs) ∧
  ((∀ t tk, sockets st !! t = Some tk -> target ∈ socketRooms tk ->
            s ∈ socketRooms tk) ->
   r.2 = []).
Proof.
  intros Hreach Hs Hc. apply Inv_reachable in Hreach as HI.
  cbv zeta. rewrite (step_forward st s sk) by done. cbn [fst snd].
  split; [done |].
  split; [apply (inbox_to_emit_sender st s sk); [done |]; left;
          by apply (inv_own _ HI) |].
  split; [by intros d [? _]%to_emit_event |]. split.
  - intros tk Hne Ht Htc Hpriv.
    assert (target ∈ addressed st s target) as Hadd.
    { apply elem_of_addressed. exists tk. split; [done |]. split; [| done].
      by apply (inv_own _ HI). }
    split.
    + by rewrite inbox_to_emit, decide_True.
    + destruct (run_forwards st s sk target fs Hs Hc) as [_ ->].
      by rewrite decide_True.
  - apply to_emit_nil.
Qed.

Lemma forward_delivery_witness :
  inbox "b" (step (message "a" (forward connection_offer "b" "sdp")) twoInRoom).2
  = [offer "sdp" "a"] ∧
  inbox "b" (run (forwards "a" "b" [(connection_offer, "sdp"); (candidate, "c1");
                                    (candidate, "c2")]) twoInRoom).2
  = [offer "sdp" "a"; ice_candidate "c1" "a"; ice_candidate "c2" "a"] ∧
  step (message "a" (forward connection_offer "b" "sdp")) afterLeave
  = (afterLeave, []).
Proof.
  pose proof (forward_delivery twoInRoom "a"
                (mkSocket true {["r1"; "a"]} (Some "r1") (Some 1%Z) (Some "alice"))
                connection_offer "b" "sdp"
                [(connection_offer, "sdp"); (candidate, "c1"); (candidate, "c2")])
    as Hlive.
  pose proof (forward_delivery afterLeave "a"
                (mkSocket true {["r1"; "a"]} (Some "r1") (Some 1%Z) (Some "alice"))
                connection_offer "b" "sdp" []) as Hgone.
  cbv zeta in *.
  destruct Hlive as (_ & _ & _ & Hlive & _).
  { by exists [connection "a"; connection "b";
               message "a" (join_room "r1" 1 "alice");
               message "b" (join_room "r1" 2 "bob")]. }
  { by vm_compute. }
  { done. }
  destruct Hgone as (Hsame & _ & _ & _ & Hgone).
  { by exists [connection "a"; connection "b";
               message "a" (join_room "r1" 1 "alice");
               message "b" (join_room "r1" 2 "bob");
               message "b" disconnect]. }
  { by vm_compute. }
  { done. }
  destruct (Hlive (mkSocket true {["r1"; "b"]} (Some "r1") (Some 2%Z) (Some "bob")))
    as [H1 H2]; [done | by vm_compute | done | set_solver |].
  split; [exact H1 |]. split; [exact H2 |].
  rewrite (surjective_pairing (step _ afterLeave)), Hsame.
  rewrite Hgone; [done |]. intros t tk Ht Hin. exfalso.
  destruct (decide (t = "a")) as [-> | Ha].
  { assert (sockets afterLeave !! "a"
            = Some (mkSocket true {["r1"; "a"]} (Some "r1") (Some 1%Z) (Some "alice")))
      as Hsa by (by vm_compute).
    rewrite Hsa in Ht. injection Ht as <-. set_solver. }
  destruct (decide (t = "b")) as [-> | Hb].
  { revert Ht Hin. vm_compute. intros [= <-]. set_solver. }
  assert (t ∈ dom (sockets afterLeave)) as Hd by (apply elem_of_dom; eauto).
  assert (dom (sockets afterLeave) = {["a"; "b"]}) as Hdom by (by vm_compute).
  rewrite Hdom in Hd. set_solver.
Defined.

(** ** A forward addressed to the sender itself *)

(** C9.  A forward of any kind that an open socket [s] addresses to its
    own id is delivered to no one and changes nothing, although in every
    reachable state the target is a live connection and is in the room the
    forward addresses: the emit excepts the room of the sender, which is
    the room addressed. *)
Theorem forward_to_self st s sk k payload :
  sockets st !! s = Some sk -> connected sk = true ->
  step (message s (forward k s payload)) st = (st, []) ∧
  (reachable st -> s ∈ socketRooms sk).
Proof.
  intros Hs Hc. rewrite (step_forward st s sk) by done. split.
  - f_equal. by apply to_emit_nil.
  - intros HI%Inv_reachable. by apply (inv_own _ HI).
Qed.

Lemma forward_to_self_witness :
  step (message "a" (forward candidate "a" "c1")) roomNamedAfterSocket
  = (roomNamedAfterSocket, []) ∧
  "a" ∈ ({["a"]} : gset string).
Proof.
  pose proof (forward_to_self roomNamedAfterSocket "a"
                (mkSocket true {["a"]} None None None) candidate "c1") as Hself.
  destruct Hself as [Hdrop Hown]; [by vm_compute | done |].
  split; [exact Hdrop |]. apply Hown.
  by exists [connection "a"; connection "c";
             message "c" (join_room "a" 3 "carol")].
Defined.

(** ** Membership bookkeeping across joins *)

(** C4, evaluated.  After [rejoin] the open socket ["s"] is a participant
    of both ["r1"] and ["r2"] while its recorded room is ["r2"]; after
    [rejoinThenLeave] room ["r1"] still lists the closed socket. *)
Theorem socket_listed_in_two_rooms :
  let st := (run rejoin init).1 in
  let st' := (run rejoinThenLeave init).1 in
  connected <$> sockets st !! "s" = Some true ∧
  roomId <$> sockets st !! "s" = Some (Some "r2") ∧
  "s" ∈ participants st "r1" ∧
  "s" ∈ participants st "r2" ∧
  "r1" ≠ "r2" ∧
  connected <$> sockets st' !! "s" = Some false ∧
  "s" ∈ participants st' "r1".
Proof.
  cbv zeta.
  assert (participants (run rejoin init).1 "r1" = {["s"]}) as -> by (by vm_compute).
  assert (participants (run rejoin init).1 "r2" = {["s"]}) as -> by (by vm_compute).
  assert (participants (run rejoinThenLeave init).1 "r1" = {["s"]}) as ->
    by (by vm_compute).
  repeat split; try (by vm_compute); set_solver.
Qed.

(** ** The registry while no connection changes room *)

Lemma Disciplined_init home : Disciplined home init.
Proof.
  split.
  - apply Inv_init.
  - intros s sk r Hs. simpl in Hs. by rewrite lookup_empty in Hs.
  - intros s r Hin. rewrite participants_None in Hin by done. set_solver.
Qed.

Lemma Disciplined_connection home s st :
  Disciplined home st -> Disciplined home (on_connection s st).
Proof.
  intros [HI Hr Hl]. pose proof (Inv_connection s st HI) as HI'.
  unfold on_connection in *.
  destruct (sockets st !! s) as [sk0 |] eqn:Hs; [done |].
  split; [done | |].
  - intros s' sk' r'. simpl. rewrite lookup_insert. case_decide; subst.
    + by intros [= <-].
    + apply Hr.
  - intros s' r' Hin. destruct (Hl s' r' Hin) as (sk' & Hs' & ? & ?).
    exists sk'. simpl. rewrite lookup_insert_ne by congruence. done.
Qed.

Lemma Disciplined_join_room home s sk r uid name st :
  sockets st !! s = Some sk -> connected sk = true ->
  r = home s -> r ≠ "" ->
  Disciplined home st -> Disciplined home (on_join_room s sk r uid name st).1.
Proof.
  intros Hs Hc Hhome Hne [HI Hr Hl]. split.
  - by apply Inv_join_room.
  - intros s' sk' r'. rewrite on_join_room_sockets, lookup_insert.
    case_decide; subst.
    + by intros [= <-] [= <-].
    + apply Hr.
  - intros s' r'. rewrite on_join_room_participants, on_join_room_sockets.
    rewrite lookup_insert. intros Hin.
    destruct (decide (s = s')) as [<- | Hn].
    + eexists. split; [done |]. split; [done |]. simpl. f_equal.
      case_decide; [done |].
      destruct (Hl s r' Hin) as (sk' & Hs' & _ & Hid).
      assert (sk' = sk) as -> by congruence.
      destruct (Hr _ _ _ Hs Hid) as [-> _]. done.
    + apply Hl. case_decide; subst; set_solver.
Qed.

Lemma Disciplined_same_members home st st' :
  Inv st' -> sockets st' = sockets st ->
  (∀ r, participants st' r = participants st r) ->
  Disciplined home st -> Disciplined home st'.
Proof.
  intros HI' Hs Hp [HI Hr Hl]. split; [done | |].
  - by rewrite Hs.
  - intros s r. rewrite Hp, Hs. apply Hl.
Qed.

(** Under the discipline a disconnect removes the socket from the room
    that lists it. *)
Lemma Disciplined_disconnect_participants home s sk st r :
  sockets st !! s = Some sk -> Disciplined home st ->
  participants (on_disconnect s sk st).1 r = participants st r ∖ {[s]}.
Proof.
  intros Hs [HI Hr Hl].
  assert (s ∈ participants st r -> ∃ m, currentRoom sk st = Some (r, m)) as Hcur.
  { intros Hin. destruct (Hl s r Hin) as (sk' & Hs' & _ & Hid).
    assert (sk' = sk) as -> by congruence.
    destruct (Hr _ _ _ Hs Hid) as [_ Hne].
    apply elem_of_participants in Hin as (m & u & Hm & _).
    exists m. by apply currentRoom_Some. }
  rewrite on_disconnect_participants.
  destruct (currentRoom sk st) as [[r0 m0] |] eqn:E.
  - case_decide; subst; [done |].
    assert (s ∉ participants st r); [| set_solver].
    intros [m Hm]%Hcur. congruence.
  - assert (s ∉ participants st r); [| set_solver].
    by intros [m Hm]%Hcur.
Qed.

Lemma Disciplined_disconnect home s sk st :
  sockets st !! s = Some sk ->
  Disciplined home st -> Disciplined home (on_disconnect s sk st).1.
Proof.
  intros Hs HD. pose proof HD as [HI Hr Hl]. split.
  - by apply Inv_disconnect.
  - intros s' sk' r'. rewrite on_disconnect_sockets, lookup_insert.
    case_decide; subst.
    + intros [= <-]. simpl. by apply (Hr s').
    + apply Hr.
  - intros s' r'.
    rewrite (Disciplined_disconnect_participants home) by done.
    rewrite on_disconnect_sockets. intros [Hin Hn]%elem_of_difference.
    rewrite lookup_insert_ne by set_solver. by apply Hl.
Qed.

Lemma Disciplined_step home i st :
  match i with
  | message s (join_room r _ _) => r = home s ∧ r ≠ ""
  | _ => True
  end ->
  Disciplined home st -> Disciplined home (step i st).1.
Proof.
  intros Hi HD. destruct i as [s | s msg]; simpl.
  - by apply Disciplined_connection.
  - destruct (sockets st !! s) as [sk |] eqn:Hs; [| done].
    destruct (connected sk) eqn:Hc; [| done].
    destruct msg; simpl; try done.
    + destruct Hi. by apply Disciplined_join_room.
    + apply (Disciplined_same_members home st); try done.
      * apply Inv_position_update, HD.
      * apply on_position_update_sockets.
      * apply on_position_update_participants.
    + apply (Disciplined_same_members home st); try done.
      * apply Inv_toggle_mute, HD.
      * apply on_toggle_mute_sockets.
      * apply on_toggle_mute_participants.
    + by apply Disciplined_disconnect.
Qed.

Lemma Sim_init r : Sim r init (mkRoll ∅ ∅ ∅).
Proof.
  split; simpl.
  - by rewrite dom_empty_L.
  - intros s. split; [set_solver |]. intros (sk & Hs & _).
    by rewrite lookup_empty in Hs.
  - by rewrite participants_None.
Qed.

Lemma Sim_connection r s st acc :
  Sim r st acc -> Sim r (on_connection s st) (roll_step r acc (connection s)).
Proof.
  intros HS. pose proof HS as [Hk Ho Hm].
  unfold on_connection. simpl. rewrite Hk.
  destruct (sockets st !! s) as [sk0 |] eqn:Hs.
  - rewrite decide_True; [done |]. apply elem_of_dom. eauto.
  - rewrite decide_False by (by apply not_elem_of_dom).
    split; simpl; try done.
    + by rewrite dom_insert_L.
    + intros s'. rewrite elem_of_union, elem_of_singleton, Ho, lookup_insert.
      destruct (decide (s = s')) as [-> | Hne].
      * split; [eauto | by left].
      * split; [intros [? | ?]; [congruence | done] | by right].
Qed.

Lemma Sim_sockets_updated r s sk sk' st st' acc members' :
  sockets st !! s = Some sk -> connected sk' = connected sk ->
  sockets st' = <[s := sk']> (sockets st) ->
  members' = participants st' r ->
  Sim r st acc -> Sim r st' (mkRoll (known acc) (opened acc) members').
Proof.
  intros Hs Hc Hs' Hm' [Hk Ho Hm]. split; cbn [known opened members].
  - rewrite Hs', Hk, dom_insert_L.
    assert (s ∈ dom (sockets st)) by (apply elem_of_dom; eauto). set_solver.
  - intros t. rewrite Hs', Ho, lookup_insert.
    destruct (decide (s = t)) as [-> | Hne]; [| done].
    split.
    + intros (sk0 & Hsk0 & Hc0). exists sk'. split; [done |]. congruence.
    + intros (sk0 & [= <-] & Hc0). exists sk. split; [done |]. congruence.
  - done.
Qed.

Lemma Sim_step home r i st acc :
  match i with
  | message s (join_room r' _ _) => r' = home s ∧ r' ≠ ""
  | _ => True
  end ->
  Disciplined home st -> Sim r st acc ->
  Sim r (step i st).1 (roll_step r acc i).
Proof.
  intros Hi HD HS. destruct i as [s | s msg].
  - by apply Sim_connection.
  - assert (s ∈ opened acc
            ↔ ∃ sk, sockets st !! s = Some sk ∧ connected sk = true) as Hop
      by apply HS.
    unfold step. destruct (sockets st !! s) as [sk |] eqn:Hs.
    + destruct (connected sk) eqn:Hc.
      * assert (s ∈ opened acc) as Hin by (apply Hop; eauto).
        pose proof HS as [Hk Ho Hm].
        destruct msg; cbn [handle roll_step on_offer on_answer on_ice_candidate fst];
          try done.
        -- destruct (decide (room = r)) as [-> | Hne].
           ++ rewrite decide_True by done.
              eapply Sim_sockets_updated;
                [done | | apply on_join_room_sockets | | done].
              ** done.
              ** by rewrite on_join_room_participants, decide_True, Hm.
           ++ rewrite decide_False by (by intros [_ ?]).
              replace acc with (mkRoll (known acc) (opened acc) (members acc))
                by (by destruct acc).
              eapply Sim_sockets_updated;
                [done | | apply on_join_room_sockets | | done].
              ** done.
              ** rewrite on_join_room_participants, decide_False; done.
        -- split; [by rewrite on_position_update_sockets ..|].
           by rewrite on_position_update_participants.
        -- split; [by rewrite on_toggle_mute_sockets ..|].
           by rewrite on_toggle_mute_participants.
        -- rewrite decide_True by done.
           split; cbn [known opened members].
           ++ rewrite on_disconnect_sockets, Hk, dom_insert_L.
              assert (s ∈ dom (sockets st)) by (apply elem_of_dom; eauto).
              set_solver.
           ++ intros t. rewrite on_disconnect_sockets, lookup_insert.
              rewrite elem_of_difference, elem_of_singleton, Ho.
              destruct (decide (s = t)) as [-> | Hn].
              ** split; [by intros [_ ?] | by intros (? & [= <-] & ?)].
              ** split; [by intros [? _] | intros ?; split; [done | congruence]].
           ++ by rewrite (Disciplined_disconnect_participants home), Hm.
      * assert (s ∉ opened acc) as Hout.
        { intros (sk' & Hs' & Hc')%Hop. congruence. }
        destruct msg; cbn [roll_step fst]; try done.
        -- rewrite decide_False; [done |]. by intros [? _].
        -- by rewrite decide_False.
    + assert (s ∉ opened acc) as Hout.
      { intros (sk' & Hs' & Hc')%Hop. congruence. }
      destruct msg; cbn [roll_step fst]; try done.
      * rewrite decide_False; [done |]. by intros [? _].
      * by rewrite decide_False.
Qed.

Lemma Disciplined_Sim_run home r inputs st acc :
  joinsAgree home inputs -> Disciplined home st -> Sim r st acc ->
  Disciplined home (run inputs st).1
  ∧ Sim r (run inputs st).1 (foldl (roll_step r) acc inputs).
Proof.
  intros Hjoins. revert st acc.
  induction Hjoins as [| i rest Hi Hrest IH]; intros st acc HD HS; simpl.
  - done.
  - pose proof (Disciplined_step home i st Hi HD) as HD1.
    pose proof (Sim_step home r i st acc Hi HD HS) as HS1.
    destruct (step i st) as [st1 out1]. simpl in HD1, HS1.
    specialize (IH st1 _ HD1 HS1).
    destruct (run rest st1) as [st2 out2]. done.
Qed.

(** C3, evaluated.  After [rejoinThenLeave] (one connection joins
    ["r1"], then ["r2"], then disconnects) no connection that joined ["r1"]
    is left, yet the registry lists the closed socket in ["r1"]:
    [join-room] did not take it out of the room it was in, and the
    [disconnect] handler deletes it from the room recorded last.  After
    [unnamedThenLeave] (one connection joins the room with the empty id,
    then disconnects) the registry lists the closed socket in that room:
    the guard of the [disconnect] handler takes the empty id for no
    room. *)
Theorem closed_socket_still_listed :
  let st := (run unnamedThenLeave init).1 in
  let st' := (run rejoinThenLeave init).1 in
  connected <$> sockets st !! "s" = Some false ∧
  joinedAndNotLeft "" unnamedThenLeave = ∅ ∧
  participants st "" = {["s"]} ∧
  connected <$> sockets st' !! "s" = Some false ∧
  joinedAndNotLeft "r1" rejoinThenLeave = ∅ ∧
  participants st' "r1" = {["s"]}.
Proof. by vm_compute. Qed.

(** Where the registry does follow the joins and the disconnects: for
    every sequence of inputs in which room ids are non-empty and no
    connection joins two different rooms, the registry's participants of a
    room [r] are exactly the connections that have joined [r] and have not
    disconnected since. *)
Theorem registry_tracks_membership home r inputs :
  joinsAgree home inputs ->
  participants (run inputs init).1 r = joinedAndNotLeft r inputs.
Proof.
  intros Hjoins. unfold joinedAndNotLeft. symmetry.
  apply (sim_members r), (Disciplined_Sim_run home); [done | |].
  - apply Disciplined_init.
  - apply Sim_init.
Qed.

Lemma twoRooms_joinsAgree :
  joinsAgree (fun s => if decide (s = "c") then "r2" else "r1") twoRooms.
Proof. unfold joinsAgree, twoRooms. repeat constructor; done. Qed.

Lemma registry_tracks_membership_witness :
  participants (run twoRooms init).1 "r1" = {["b"]} ∧
  participants (run twoRooms init).1 "r2" = {["c"]}.
Proof.
  rewrite !(registry_tracks_membership _ _ _ twoRooms_joinsAgree).
  by vm_compute.
Defined.

(** Under the same discipline a connection is listed in at most one room,
    and it is listed in a room exactly when its socket is open and has
    recorded that room. *)
Theorem one_room_per_connection home inputs s r1 r2 :
  joinsAgree home inputs ->
  let st := (run inputs init).1 in
  (s ∈ participants st r1 -> s ∈ participants st r2 -> r1 = r2) ∧
  (s ∈ participants st r1
   ↔ ∃ sk, sockets st !! s = Some sk ∧ connected sk = true ∧ roomId sk = Some r1).
Proof.
  intros Hjoins. cbv zeta.
  destruct (Disciplined_Sim_run home r1 inputs init (mkRoll ∅ ∅ ∅) Hjoins)
    as [[HI Hr Hl] _]; [apply Disciplined_init | apply Sim_init |].
  split.
  - intros (sk1 & Hs1 & _ & Hid1)%Hl (sk2 & Hs2 & _ & Hid2)%Hl. congruence.
  - split; [apply Hl |].
    intros (sk & Hs & Hc & Hid). by apply (inv_room _ HI s sk).
Qed.

Lemma one_room_per_connection_witness :
  let st := (run twoRooms init).1 in
  ("b" ∈ participants st "r1" -> "b" ∈ participants st "r2" -> "r1" = "r2") ∧
  ("b" ∈ participants st "r1"
   ↔ ∃ sk, sockets st !! "b" = Some sk ∧ connected sk = true
           ∧ roomId sk = Some "r1").
Proof.
  exact (one_room_per_connection _ twoRooms "b" "r1" "r2" twoRooms_joinsAgree).
Defined.

(** ** The presence broadcast on disconnect *)

(** In a reachable state, when an open socket [s] that is listed in the
    room [r] it recorded (with a non-empty id) disconnects: [s] leaves the
    participants of [r]; if others remain, the room stays and each of them
    whose socket is open, and has not joined a room named by the id of
    [s], receives [user-left] for [s], once; if [s] was alone, the room is
    deleted and nothing is emitted. *)
Theorem disconnect_broadcast st s sk r m u :
  reachable st -> sockets st !! s = Some sk -> connected sk = true ->
  roomId sk = Some r -> r ≠ "" -> rooms st !! r = Some m -> m !! s = Some u ->
  let left := step (message s disconnect) st in
  participants left.1 r = participants st r ∖ {[s]} ∧
  connected <$> sockets left.1 !! s = Some false ∧
  inbox s left.2 = [] ∧
  (participants st r = {[s]} -> rooms left.1 !! r = None ∧ left.2 = []) ∧
  (∀ t tk, t ≠ s -> t ∈ participants st r ->
           sockets st !! t = Some tk -> connected tk = true ->
           s ∉ socketRooms tk ->
           is_Some (rooms left.1 !! r) ∧
           inbox t left.2 = [user_left s (socketUserId sk) (socketUsername sk)]).
Proof.
  intros Hreach Hs Hc Hid Hne Hm Hu. apply Inv_reachable in Hreach as HI.
  assert (currentRoom sk st = Some (r, m)) as Hcur by (by apply currentRoom_Some).
  cbv zeta. unfold step. rewrite Hs, Hc. cbn [handle].
  split; [by rewrite on_disconnect_participants, Hcur, decide_True |].
  split; [by rewrite on_disconnect_sockets, lookup_insert_eq |].
  rewrite on_disconnect_rooms. unfold on_disconnect. rewrite Hcur.
  rewrite (participants_Some _ _ _ Hm).
  destruct (decide (size (delete s m) = 0%nat)) as [Hsz | Hsz]; cbn [snd].
  - split; [done |]. split; [by rewrite lookup_delete_eq |].
    intros t tk Hts Hin _ _ _. exfalso.
    apply map_size_empty_iff in Hsz.
    apply elem_of_dom in Hin as [ut Hut].
    assert (delete s m !! t = Some ut) as Hdel by (by rewrite lookup_delete_ne).
    by rewrite Hsz, lookup_empty in Hdel.
  - split.
    { apply (inbox_to_emit_sender _ s (socket_close sk)); [| by right].
      simpl. apply lookup_insert_eq. }
    split.
    + intros Hdom. exfalso. apply Hsz, map_size_empty_iff, dom_empty_iff_L.
      rewrite dom_delete_L, Hdom. set_solver.
    + intros t tk Hts Hin Ht Htc Hpriv. split; [by rewrite lookup_insert_eq |].
      rewrite inbox_to_emit, decide_True; [done |].
      apply elem_of_addressed. exists tk. split; [| split; [| done]].
      * simpl. by rewrite lookup_insert_ne by congruence.
      * apply (inv_joined _ HI r t tk); [| done | done].
        by rewrite (participants_Some _ _ _ Hm).
Qed.

Lemma disconnect_broadcast_witness :
  let left := step (message "a" disconnect) twoInRoom in
  let gone := step (message "b" disconnect) left.1 in
  participants left.1 "r1" = {["b"]} ∧
  inbox "b" left.2 = [user_left "a" (Some 1%Z) (Some "alice")] ∧
  rooms gone.1 !! "r1" = None ∧ gone.2 = [].
Proof.
  pose proof (disconnect_broadcast twoInRoom "a"
                (mkSocket true {["r1"; "a"]} (Some "r1") (Some 1%Z) (Some "alice"))
                "r1"
                {[ "a" := mkUser 1 "alice" origin false;
                   "b" := mkUser 2 "bob" origin false ]}
                (mkUser 1 "alice" origin false)) as Ha.
  cbv zeta in *.
  assert (participants twoInRoom "r1" = {["a"; "b"]}) as Hp2 by (by vm_compute).
  assert (participants (step (message "a" disconnect) twoInRoom).1 "r1" = {["b"]})
    as Hp1 by (by vm_compute).
  destruct Ha as (_ & _ & _ & _ & Hothers).
  { by exists [connection "a"; connection "b";
               message "a" (join_room "r1" 1 "alice");
               message "b" (join_room "r1" 2 "bob")]. }
  { by vm_compute. }
  { done. }
  { done. }
  { done. }
  { by vm_compute. }
  { by vm_compute. }
  destruct (Hothers "b"
              (mkSocket true {["r1"; "b"]} (Some "r1") (Some 2%Z) (Some "bob")))
    as [_ Hinbox].
  { done. }
  { rewrite Hp2. set_solver. }
  { by vm_compute. }
  { done. }
  { set_solver. }
  split; [exact Hp1 |]. split; [exact Hinbox |].
  by vm_compute.
Defined.

End ServerProps.

(* ===================================================================== *)
(** * Further properties of the spatial audio manager *)
(* ===================================================================== *)

Module ManagerProps.
Import SpatialAudio ManagerRuns AudioProps.

Local Open Scope R_scope.

(** ** Entries of the table *)

Lemma withSources_id m : withSources (audioSources m) m = m.
Proof. by destruct m. Qed.

(** Adding a source for a peer without one and removing it again gives the
    manager back; removing a peer that has no source changes nothing, and
    removing twice is removing once. *)
Theorem add_remove_roundtrip peerId flavour m :
  initialized m = true -> isEnabled m = true ->
  audioSources m !! peerId = None ->
  let added := addAudioSource peerId flavour false m in
  added.1 = true /\
  is_Some (audioSources added.2 !! peerId) /\
  removeAudioSource peerId added.2 = m /\
  removeAudioSource peerId m = m /\
  removeAudioSource peerId (removeAudioSource peerId added.2)
  = removeAudioSource peerId added.2.
Proof.
  intros Hini Hen Habs. cbv zeta.
  unfold addAudioSource. rewrite Hini, Hen. cbn [negb orb fst snd].
  assert (removeAudioSource peerId m = m) as Hnoop.
  { unfold removeAudioSource. by rewrite Habs. }
  assert (forall sd, removeAudioSource peerId
                       (withSources (<[peerId := sd]> (audioSources m)) m) = m)
    as Hback.
  { intros sd. unfold removeAudioSource. cbn [audioSources withSources].
    rewrite lookup_insert_eq. unfold withSources. cbn.
    rewrite delete_insert_eq, delete_id by done. by destruct m. }
  split; [done |]. split.
  { cbn [audioSources withSources]. rewrite lookup_insert_eq. by eexists. }
  rewrite Hback. done.
Qed.

Lemma add_remove_roundtrip_witness :
  let m := (initialize None constructor).2 in
  let added := addAudioSource "peer" ModernApi false m in
  added.1 = true /\
  is_Some (audioSources added.2 !! "peer") /\
  removeAudioSource "peer" added.2 = m /\
  removeAudioSource "peer" m = m /\
  removeAudioSource "peer" (removeAudioSource "peer" added.2)
  = removeAudioSource "peer" added.2.
Proof.
  apply (add_remove_roundtrip "peer" ModernApi (initialize None constructor).2);
    done.
Defined.

Lemma removeAll_loop (ks : list string) (m : Manager) :
  let m' := foldl (fun acc peerId =>
                     match audioSources acc !! peerId with
                     | Some sd => removeAudioSource peerId acc
                     | None => acc
                     end) m ks in
  isEnabled m' = isEnabled m /\ initialized m' = initialized m /\
  masterGainNode m' = masterGainNode m /\ listener m' = listener m /\
  forall k, audioSources m' !! k
            = if decide (k ∈ ks) then None else audioSources m !! k.
Proof.
  revert m. induction ks as [| a ks IH]; intros m; simpl.
  - repeat split; done.
  - set (m1 := match audioSources m !! a with
               | Some sd => removeAudioSource a m
               | None => m
               end).
    assert (isEnabled m1 = isEnabled m /\ initialized m1 = initialized m /\
            masterGainNode m1 = masterGainNode m /\ listener m1 = listener m /\
            forall k, audioSources m1 !! k
                      = if decide (k = a) then None else audioSources m !! k)
      as (E1 & E2 & E3 & E4 & E5).
    { subst m1. destruct (audioSources m !! a) as [sd |] eqn:Hsd.
      - unfold removeAudioSource. rewrite Hsd. repeat split; try done.
        intros k. cbn. rewrite lookup_delete.
        destruct (decide (a = k)), (decide (k = a)); congruence.
      - repeat split; try done. intros k.
        destruct (decide (k = a)); congruence. }
    destruct (IH m1) as (F1 & F2 & F3 & F4 & F5).
    repeat split; try congruence. intros k. rewrite F5, E5.
    destruct (decide (k = a)) as [Heq |].
    + subst a. rewrite (decide_True (P := k ∈ k :: ks)) by apply list_elem_of_here.
      by case_decide.
    + destruct (decide (k ∈ ks)) as [Hin | Hin].
      * rewrite decide_True by (by apply list_elem_of_further). done.
      * rewrite decide_False; [done |].
        intros [? | ?]%elem_of_cons; done.
Qed.

Lemma dispose_eq m :
  dispose m
  = {| audioSources := ∅; isEnabled := isEnabled m; initialized := false;
       masterGainNode := masterGainNode m; listener := listener m |}.
Proof.
  unfold dispose, forEachSource.
  destruct (removeAll_loop (elements (dom (audioSources m))) m)
    as (F1 & F2 & F3 & F4 & F5).
  cbv zeta in *.
  set (m1 := foldl _ m _) in *.
  rewrite F1, F3, F4. f_equal.
  apply map_eq. intros k. rewrite F5, lookup_empty.
  destruct (decide (k ∈ elements (dom (audioSources m)))) as [| Hk]; [done |].
  rewrite elem_of_elements, elem_of_dom in Hk.
  destruct (audioSources m !! k) eqn:E; [| done]. exfalso. apply Hk. eauto.
Qed.

(** After [dispose()] the table is empty and the manager is uninitialized:
    every [addAudioSource] is refused, position updates and toggles find
    nothing to act on, and only [initialize()] makes the manager usable
    again. *)
Theorem dispose_clears m peerId flavour throws p :
  audioSources (dispose m) = ∅ /\
  initialized (dispose m) = false /\
  addAudioSource peerId flavour throws (dispose m) = (false, dispose m) /\
  updateAudioSourcePosition peerId p (dispose m) = dispose m /\
  audioSources (toggleSpatialAudio (dispose m)).2 = ∅ /\
  dispose (dispose m) = dispose m /\
  (isEnabled m = true ->
   (addAudioSource peerId flavour false (initialize None (dispose m)).2).1
   = true).
Proof.
  rewrite !dispose_eq. cbn [audioSources initialized].
  split; [done |]. split; [done |]. split; [done |]. split.
  { unfold updateAudioSourcePosition. cbn [audioSources].
    by rewrite lookup_empty. }
  split.
  { destruct (isEnabled m) eqn:Hen.
    - by rewrite toggleSpatialAudio_off.
    - rewrite toggleSpatialAudio_on by done. cbn. apply fmap_empty. }
  split; [done |]. intros Hen. unfold addAudioSource. cbn. by rewrite Hen.
Qed.

(** ** How the calls compose *)

Lemma manager_eq (m1 m2 : Manager) :
  audioSources m1 = audioSources m2 -> isEnabled m1 = isEnabled m2 ->
  initialized m1 = initialized m2 -> masterGainNode m1 = masterGainNode m2 ->
  listener m1 = listener m2 -> m1 = m2.
Proof. destruct m1, m2. simpl. by intros -> -> -> -> ->. Qed.

(** Of two position updates for one peer only the second counts, and
    updates for different peers can be made in either order. *)
Theorem position_updates_compose k1 k2 p1 p2 m :
  k1 ≠ k2 ->
  updateAudioSourcePosition k1 p2 (updateAudioSourcePosition k1 p1 m)
  = updateAudioSourcePosition k1 p2 m /\
  updateAudioSourcePosition k1 p1 (updateAudioSourcePosition k2 p2 m)
  = updateAudioSourcePosition k2 p2 (updateAudioSourcePosition k1 p1 m).
Proof.
  intros Hne. unfold updateAudioSourcePosition.
  destruct (isEnabled m) eqn:Hen.
  - split.
    + destruct (audioSources m !! k1) as [sd1 |] eqn:H1.
      * cbn. rewrite lookup_insert_eq, Hen. unfold withSources. cbn.
        rewrite insert_insert_eq. f_equal. f_equal. f_equal.
        unfold setPannerPosition. cbn. by destruct (pannerApi (panner sd1)).
      * by rewrite H1.
    + destruct (audioSources m !! k1) as [sd1 |] eqn:H1;
        destruct (audioSources m !! k2) as [sd2 |] eqn:H2; cbn;
        rewrite ?Hen, ?lookup_insert_ne, ?H1, ?H2, ?Hen by done; try done.
      unfold withSources. cbn. f_equal. by apply insert_insert_ne.
  - split.
    + destruct (audioSources m !! k1) eqn:H1; rewrite ?H1, ?Hen; done.
    + destruct (audioSources m !! k1) eqn:H1;
        destruct (audioSources m !! k2) eqn:H2; rewrite ?H1, ?H2, ?Hen; done.
Qed.

Lemma position_updates_compose_witness :
  updateAudioSourcePosition "peer" origin
    (updateAudioSourcePosition "peer" (mkPosition 1 0 1) managerWithPeer)
  = updateAudioSourcePosition "peer" origin managerWithPeer /\
  updateAudioSourcePosition "peer" (mkPosition 1 0 1)
    (updateAudioSourcePosition "late" origin managerWithPeer)
  = updateAudioSourcePosition "late" origin
      (updateAudioSourcePosition "peer" (mkPosition 1 0 1) managerWithPeer).
Proof. by apply (position_updates_compose "peer" "late"). Defined.

(** [setSourceVolume] changes the gain of one entry and nothing else, and
    while spatial mode is on the next position update of that peer
    replaces the volume by the gain of the distance: the two calls in a row
    leave what the update alone leaves. *)
Theorem position_update_resets_volume peerId p v m sd :
  audioSources m !! peerId = Some sd ->
  audioSources (setSourceVolume peerId v m) !! peerId
  = Some (mkSourceData (panner sd) v (position sd)) /\
  (forall k, k ≠ peerId ->
             audioSources (setSourceVolume peerId v m) !! k = audioSources m !! k) /\
  (isEnabled m = true ->
   updateAudioSourcePosition peerId p (setSourceVolume peerId v m)
   = updateAudioSourcePosition peerId p m) /\
  (isEnabled m = false ->
   updateAudioSourcePosition peerId p (setSourceVolume peerId v m)
   = setSourceVolume peerId v m).
Proof.
  intros Hsd. unfold setSourceVolume. rewrite Hsd.
  split; [cbn; apply lookup_insert_eq |].
  split; [intros k Hk; cbn; by rewrite lookup_insert_ne |].
  split.
  - intros Hen. unfold updateAudioSourcePosition. cbn.
    rewrite lookup_insert_eq, Hsd, Hen. unfold withSources. cbn.
    by rewrite insert_insert_eq.
  - intros Hen. by apply updateAudioSourcePosition_disabled.
Qed.

Lemma managerWithPeer_source :
  audioSources managerWithPeer !! "peer"
  = Some {| panner := mkPanner ModernApi (mkPosition 3 0 4);
            gainNode := gainFor (distance (mkPosition 3 0 4));
            position := mkPosition 3 0 4 |}.
Proof. rewrite managerWithPeer_eq. apply lookup_singleton_eq. Qed.

Lemma position_update_resets_volume_witness :
  updateAudioSourcePosition "peer" origin (setSourceVolume "peer" 1 managerWithPeer)
  = updateAudioSourcePosition "peer" origin managerWithPeer.
Proof.
  destruct (position_update_resets_volume "peer" origin 1 managerWithPeer _
              managerWithPeer_source) as (_ & _ & Hon & _).
  apply Hon. by rewrite managerWithPeer_eq.
Defined.

(** A failed [initialize()] keeps what it had assigned.  When
    [masterGainNode.connect] raises, the manager has its master gain node
    and no listener: [setMasterVolume] takes effect, [setListenerPosition]
    does nothing, and sources are refused, the manager not being
    initialized.  When the exception comes later, the listener is there
    as well; when it comes first, neither is. *)
Example initialize_throws_midway :
  let m := (initialize (Some throws_connecting) constructor).2 in
  (initialize (Some throws_connecting) constructor).1 = false /\
  initialized m = false /\
  masterGainNode m = Some 1 /\ listener m = None /\
  masterGainNode (setMasterVolume 0.3 m) = Some 0.3 /\
  setListenerPosition (mkPosition 3 0 4) m = m /\
  addAudioSource "peer" ModernApi false m = (false, m) /\
  listener (initialize (Some throws_orienting) constructor).2 = Some origin /\
  masterGainNode (initialize (Some throws_orienting) constructor).2 = Some 1 /\
  (initialize (Some throws_creating) constructor).2 = constructor.
Proof. cbv zeta. repeat split. Qed.

(** The listener position plays no part in what is stored for a source:
    [setListenerPosition] leaves the table alone and can be swapped with a
    position update, so the gain of a source is that of its distance from
    the origin wherever the listener is.  On a manager that was never
    initialized, [setListenerPosition] and [setMasterVolume] do nothing. *)
Theorem listener_independent q k p v m :
  audioSources (setListenerPosition q m) = audioSources m /\
  setListenerPosition q (updateAudioSourcePosition k p m)
  = updateAudioSourcePosition k p (setListenerPosition q m) /\
  setListenerPosition q constructor = constructor /\
  setMasterVolume v constructor = constructor /\
  listener (setListenerPosition q (initialize None constructor).2) = Some q /\
  masterGainNode (setMasterVolume v (initialize None constructor).2) = Some v.
Proof.
  split; [unfold setListenerPosition; by destruct (listener m) |].
  split; [| done].
  unfold setListenerPosition, updateAudioSourcePosition.
  destruct (listener m) eqn:Hl, (audioSources m !! k) eqn:Hk,
    (isEnabled m) eqn:Hen; cbn; rewrite ?Hl, ?Hk, ?Hen; done.
Qed.

(** A position update that arrives while spatial mode is off is dropped for
    good: the manager does not change, and when spatial mode is switched
    on again the panner holds the position it had before, not the one
    that arrived.  The next update after that is applied. *)
Theorem update_while_off_is_lost peerId p m sd :
  isEnabled m = true -> audioSources m !! peerId = Some sd ->
  pannerPosition (panner sd) = position sd ->
  let off := (toggleSpatialAudio m).2 in
  let on := (toggleSpatialAudio (updateAudioSourcePosition peerId p off)).2 in
  updateAudioSourcePosition peerId p off = off /\
  pannerPosition <$> (panner <$> audioSources on !! peerId) = Some (position sd) /\
  position <$> audioSources on !! peerId = Some (position sd) /\
  pannerPosition <$>
    (panner <$> audioSources (updateAudioSourcePosition peerId p on) !! peerId)
  = Some p.
Proof.
  intros Hen Hsd Hpos. cbv zeta.
  rewrite (toggleSpatialAudio_off m) by done. cbn [snd].
  rewrite (updateAudioSourcePosition_disabled peerId p (withEnabled false m))
    by done.
  split; [done |].
  rewrite toggleSpatialAudio_on by done. cbn [snd].
  unfold withSources, withEnabled. cbn [audioSources].
  rewrite lookup_fmap, Hsd. cbn.
  split; [| split; [done |]].
  - f_equal. unfold setPannerPosition.
    by destruct (pannerApi (panner sd)), (position sd).
  - unfold updateAudioSourcePosition. cbn.
    rewrite lookup_fmap, Hsd. cbn. rewrite lookup_insert_eq. cbn.
    f_equal. unfold setPannerPosition. cbn.
    by destruct (pannerApi (panner sd)), p.
Qed.

Lemma update_while_off_is_lost_witness :
  let off := (toggleSpatialAudio managerWithPeer).2 in
  let on := (toggleSpatialAudio
               (updateAudioSourcePosition "peer" origin off)).2 in
  updateAudioSourcePosition "peer" origin off = off /\
  pannerPosition <$> (panner <$> audioSources on !! "peer")
  = Some (mkPosition 3 0 4) /\
  position <$> audioSources on !! "peer" = Some (mkPosition 3 0 4) /\
  pannerPosition <$>
    (panner <$> audioSources (updateAudioSourcePosition "peer" origin on) !! "peer")
  = Some origin.
Proof.
  apply (update_while_off_is_lost "peer" origin managerWithPeer
           {| panner := mkPanner ModernApi (mkPosition 3 0 4);
              gainNode := gainFor (distance (mkPosition 3 0 4));
              position := mkPosition 3 0 4 |}).
  - by rewrite managerWithPeer_eq.
  - apply managerWithPeer_source.
  - done.
Defined.

(** ** What every manager a page can hold satisfies *)

Lemma inStep_insert peerId sd m :
  inStep m -> pannerPosition (panner sd) = position sd ->
  inStep (withSources (<[peerId := sd]> (audioSources m)) m).
Proof.
  intros Hm Hsd k sd'. cbn. rewrite lookup_insert.
  case_decide; [by intros [= <-] | apply Hm].
Qed.

Lemma inStep_same m m' : audioSources m' = audioSources m -> inStep m -> inStep m'.
Proof. intros Heq Hm k sd. rewrite Heq. apply Hm. Qed.

Lemma inStep_updateAudioSourcePosition peerId p m :
  inStep m -> inStep (updateAudioSourcePosition peerId p m).
Proof.
  intros Hm. unfold updateAudioSourcePosition.
  destruct (audioSources m !! peerId) as [sd |]; [| done].
  destruct (isEnabled m); [| done].
  apply inStep_insert; [done |]. cbn. unfold setPannerPosition.
  by destruct (pannerApi (panner sd)).
Qed.

Lemma inStep_removeAudioSource peerId m :
  inStep m -> inStep (removeAudioSource peerId m).
Proof.
  intros Hm. unfold removeAudioSource.
  destruct (audioSources m !! peerId); [| done].
  intros k sd. cbn. rewrite lookup_delete. case_decide; [done | apply Hm].
Qed.

Lemma inStep_toggleSpatialAudio m : inStep m -> inStep (toggleSpatialAudio m).2.
Proof.
  intros Hm. destruct (isEnabled m) eqn:Hen.
  - rewrite toggleSpatialAudio_off by done. by apply (inStep_same m).
  - rewrite toggleSpatialAudio_on by done. intros k sd. cbn.
    rewrite lookup_fmap. destruct (audioSources m !! k) as [sd0 |]; [| done].
    intros [= <-]. cbn. unfold setPannerPosition.
    by destruct (pannerApi (panner sd0)), (position sd0).
Qed.

Lemma inStep_invoke mt m : inStep m -> inStep (invoke mt m).
Proof.
  intros Hm. destruct mt as [peerId flavour throws | c]; cbn.
  - unfold addAudioSource.
    destruct (negb (initialized m) || negb (isEnabled m)); [done |].
    destruct throws; [done |]. by apply inStep_insert.
  - destruct c; cbn.
    + unfold initialize. destruct throws as [[] |]; by apply (inStep_same m).
    + by apply inStep_removeAudioSource.
    + by apply inStep_updateAudioSourcePosition.
    + unfold setListenerPosition. destruct (listener m); [| done].
      by apply (inStep_same m).
    + unfold setMasterVolume. destruct (masterGainNode m); [| done].
      by apply (inStep_same m).
    + unfold setSourceVolume.
      destruct (audioSources m !! peerId) as [sd |] eqn:Hsd; [| done].
      apply inStep_insert; [done |]. cbn. by apply (Hm peerId).
    + by apply inStep_toggleSpatialAudio.
    + rewrite dispose_eq. intros k sd. cbn. by rewrite lookup_empty.
Qed.

Lemma inStep_reachable m : reachable m -> inStep m.
Proof.
  intros [mts <-]. unfold invokeAll.
  assert (inStep constructor) as H0.
  { intros k sd. cbn. by rewrite lookup_empty. }
  revert H0. generalize constructor as m0.
  induction mts as [| mt mts IH]; intros m0 H0; cbn; [done |].
  apply IH. by apply inStep_invoke.
Qed.

(** Whatever methods were called since [new SpatialAudioManager()], every
    panner holds the position stored in its entry; hence a call of
    [toggleSpatialAudio()], in either direction, removes no source and
    moves no panner: what the toggle changes is the flag, and, when it
    switches on, the gains. *)
Theorem toggle_moves_no_panner m peerId :
  reachable m ->
  (forall sd, audioSources m !! peerId = Some sd ->
              pannerPosition (panner sd) = position sd) /\
  (toggleSpatialAudio m).1 = negb (isEnabled m) /\
  panner <$> audioSources (toggleSpatialAudio m).2 !! peerId
  = panner <$> audioSources m !! peerId /\
  position <$> audioSources (toggleSpatialAudio m).2 !! peerId
  = position <$> audioSources m !! peerId.
Proof.
  intros Hin%inStep_reachable. split; [apply Hin |].
  destruct (isEnabled m) eqn:Hen.
  - rewrite toggleSpatialAudio_off by done. done.
  - rewrite toggleSpatialAudio_on by done. cbn. rewrite lookup_fmap.
    destruct (audioSources m !! peerId) as [sd |] eqn:Hsd; [| done]. cbn.
    split; [done |]. split; [| done]. f_equal.
    specialize (Hin _ _ Hsd). unfold setPannerPosition. rewrite <- Hin.
    by destruct (panner sd) as [[] []].
Qed.

Lemma managerWithPeer_reachable : reachable managerWithPeer.
Proof.
  by exists [method_other (call_initialize None);
             method_addAudioSource "peer" ModernApi false;
             method_other (call_updateAudioSourcePosition "peer" (mkPosition 3 0 4))].
Qed.

Lemma toggle_moves_no_panner_witness :
  (forall sd, audioSources managerWithPeer !! "peer" = Some sd ->
              pannerPosition (panner sd) = position sd) /\
  (toggleSpatialAudio managerWithPeer).1 = negb (isEnabled managerWithPeer) /\
  panner <$> audioSources (toggleSpatialAudio managerWithPeer).2 !! "peer"
  = panner <$> audioSources managerWithPeer !! "peer" /\
  position <$> audioSources (toggleSpatialAudio managerWithPeer).2 !! "peer"
  = position <$> audioSources managerWithPeer !! "peer".
Proof.
  exact (toggle_moves_no_panner managerWithPeer "peer" managerWithPeer_reachable).
Defined.

(** ** Coordinate transforms, the other way round *)

Lemma quartersReturn_all :
  SpatialAudioIEEE.allFrom SpatialAudioIEEE.quartersReturn 1 4096 = true.
Proof. vm_compute. reflexivity. Qed.

Lemma quartersReturn_spec (side k : Z) :
  (1 <= side <= 4096)%Z -> (-40 <= k <= 40)%Z ->
  let s := SpatialAudioIEEE.ofZ side in
  let w := (SpatialAudioIEEE.ofZ k / 4)%float in
  let c := (SpatialAudioIEEE.worldToCanvasPosition w 0 0 s s).1 in
  (SpatialAudioIEEE.worldToCanvasPosition 0 0 0 s s).1 = (s / 2)%float /\
  (0 <=? c)%float = true /\ (c <=? s)%float = true /\
  SpatialAudioIEEE.within 0x1p-48 (SpatialAudioIEEE.backtrip w 0 0 s s).1.1 w = true.
Proof.
  intros Hside Hk. cbv zeta.
  pose proof (allFrom_spec _ _ _ side quartersReturn_all) as Hall.
  unfold SpatialAudioIEEE.quartersReturn in Hall.
  apply andb_true_iff in Hall as [Hmid Hall]; [| lia].
  apply FloatAxioms.Leibniz.eqb_spec in Hmid.
  split; [exact Hmid |].
  pose proof (allFrom_spec _ _ _ k Hall) as Hk'. cbv beta zeta in Hk'.
  apply andb_true_iff in Hk' as [Hk' Hnear]; [| lia].
  apply andb_true_iff in Hk' as [Hlo Hhi].
  done.
Qed.

(** On binary64 floats, for a canvas whose width [W] and height [H] are
    whole numbers from 1 to 4096 and a world point whose [x] and [z] are
    quarters between -10 and 10, of any height [wy]: the point is drawn on
    the canvas; mapped back to the world it lies on the plane [y = 0],
    within [2^-48] of the [x] and the [z] it had, so the height of a world
    point is not drawn; and the world origin is the centre of the
    canvas. *)
Theorem world_canvas_roundtrip (W H i k : Z) (wy : float) :
  (1 <= W <= 4096)%Z -> (1 <= H <= 4096)%Z ->
  (-40 <= i <= 40)%Z -> (-40 <= k <= 40)%Z ->
  let w := SpatialAudioIEEE.ofZ W in
  let h := SpatialAudioIEEE.ofZ H in
  let wx := (SpatialAudioIEEE.ofZ i / 4)%float in
  let wz := (SpatialAudioIEEE.ofZ k / 4)%float in
  let c := SpatialAudioIEEE.worldToCanvasPosition wx wy wz w h in
  let back := SpatialAudioIEEE.canvasToWorldPosition c.1 c.2 w h in
  (0 <=? c.1)%float = true /\ (c.1 <=? w)%float = true /\
  (0 <=? c.2)%float = true /\ (c.2 <=? h)%float = true /\
  back.1.2 = 0%float /\
  SpatialAudioIEEE.within 0x1p-48 back.1.1 wx = true /\
  SpatialAudioIEEE.within 0x1p-48 back.2 wz = true /\
  SpatialAudioIEEE.worldToCanvasPosition 0 wy 0 w h = (w / 2, h / 2)%float.
Proof.
  intros HW HH Hi Hk. cbv zeta.
  destruct (quartersReturn_spec W i HW Hi) as (HWm & HW0 & HW1 & HWn).
  destruct (quartersReturn_spec H k HH Hk) as (HHm & HH0 & HH1 & HHn).
  cbv zeta in *.
  split; [exact HW0 |]. split; [exact HW1 |].
  split; [exact HH0 |]. split; [exact HH1 |].
  split; [reflexivity |]. split; [exact HWn |]. split; [exact HHn |].
  change (SpatialAudioIEEE.worldToCanvasPosition 0 wy 0
            (SpatialAudioIEEE.ofZ W) (SpatialAudioIEEE.ofZ H))
    with ((SpatialAudioIEEE.worldToCanvasPosition 0 0 0
             (SpatialAudioIEEE.ofZ W) (SpatialAudioIEEE.ofZ W)).1,
          (SpatialAudioIEEE.worldToCanvasPosition 0 0 0
             (SpatialAudioIEEE.ofZ H) (SpatialAudioIEEE.ofZ H)).1).
  by rewrite HWm, HHm.
Qed.

Lemma world_canvas_roundtrip_witness :
  let w := SpatialAudioIEEE.ofZ 800 in
  let h := SpatialAudioIEEE.ofZ 600 in
  let wx := (SpatialAudioIEEE.ofZ 12 / 4)%float in
  let wz := (SpatialAudioIEEE.ofZ 16 / 4)%float in
  let c := SpatialAudioIEEE.worldToCanvasPosition wx 7 wz w h in
  let back := SpatialAudioIEEE.canvasToWorldPosition c.1 c.2 w h in
  (0 <=? c.1)%float = true /\ (c.1 <=? w)%float = true /\
  (0 <=? c.2)%float = true /\ (c.2 <=? h)%float = true /\
  back.1.2 = 0%float /\
  SpatialAudioIEEE.within 0x1p-48 back.1.1 wx = true /\
  SpatialAudioIEEE.within 0x1p-48 back.2 wz = true /\
  SpatialAudioIEEE.worldToCanvasPosition 0 7 0 w h = (w / 2, h / 2)%float.
Proof. apply (world_canvas_roundtrip 800 600 12 16 7%float); lia. Defined.

(** The world point [(3, 7, 4)] is drawn at pixel [(520, 420)] of the 800
    by 600 canvas and comes back as
    [(3.0000000000000004, 0, 3.9999999999999991)]. *)
Example backtrip_binary64 :
  SpatialAudioIEEE.worldToCanvasPosition 3 7 4 800 600 = (520, 420)%float /\
  SpatialAudioIEEE.backtrip 3 7 4 800 600
  = (3.0000000000000004, 0, 3.9999999999999991)%float.
Proof. vm_compute. split; reflexivity. Qed.

End ManagerProps.

(* ===================================================================== *)
(** * Further properties of the room server *)
(* ===================================================================== *)

Module ServerMore.
Import Server ServerRuns ServerProps.

(** ** What a late joiner is told *)

Lemma elem_of_existingUsers s (roomUsers : gmap string User) eu :
  eu ∈ existingUsers s roomUsers
  ↔ eu_socketId eu ≠ s
    ∧ roomUsers !! eu_socketId eu
      = Some (mkUser (eu_userId eu) (eu_username eu) (eu_position eu) (eu_muted eu)).
Proof.
  unfold existingUsers. rewrite list_elem_of_fmap. split.
  - intros ([t u] & -> & [Hne Hin]%list_elem_of_filter).
    apply elem_of_map_to_list in Hin. cbn in *. split; [done |].
    rewrite Hin. by destruct u.
  - intros [Hne Hu]. eexists (eu_socketId eu, _).
    split; [| apply list_elem_of_filter; split; [done |];
              apply elem_of_map_to_list; exact Hu].
    by destruct eu.
Qed.

Lemma NoDup_existingUsers s (roomUsers : gmap string User) :
  NoDup (eu_socketId <$> existingUsers s roomUsers).
Proof.
  unfold existingUsers. rewrite <- list_fmap_compose.
  apply (sublist_NoDup _ ((map_to_list roomUsers).*1));
    [apply NoDup_fst_map_to_list |].
  apply fmap_sublist, sublist_filter.
Qed.

(** In a reachable state, an open socket that joins room [r] receives one
    [existing-users] event.  Its array has one element for each other
    participant of [r] and none for the joiner, and every element carries
    what the registry holds for that participant at that moment: the
    position and mute flag it reported last. *)
Theorem existing_users_snapshot st s sk r uid name :
  reachable st -> sockets st !! s = Some sk -> connected sk = true ->
  ∃ users,
    inbox s (step (message s (join_room r uid name)) st).2
    = [existing_users users] ∧
    NoDup (eu_socketId <$> users) ∧
    (∀ eu, eu ∈ users
           ↔ eu_socketId eu ≠ s
             ∧ rooms st !! r ≫= (.!! eu_socketId eu)
               = Some (mkUser (eu_userId eu) (eu_username eu)
                              (eu_position eu) (eu_muted eu))).
Proof.
  intros HI%Inv_reachable Hs Hc.
  unfold step. rewrite Hs, Hc. cbn [handle].
  exists (existingUsers s (<[s := mkUser uid name origin false]>
                             (default ∅ (rooms st !! r)))).
  split; [| split; [apply NoDup_existingUsers |]].
  - unfold on_join_room. cbn [snd].
    assert (default ∅ ((match rooms st !! r with
                        | Some _ => rooms st
                        | None => <[r := ∅]> (rooms st)
                        end) !! r) = default ∅ (rooms st !! r)) as ->.
    { destruct (rooms st !! r) eqn:E; [by rewrite E |].
      by rewrite lookup_insert_eq. }
    rewrite inbox_app. erewrite inbox_to_emit_sender.
    + unfold inbox. rewrite filter_cons. cbn [recipient].
      by rewrite decide_True by done.
    + cbn. apply lookup_insert_eq.
    + left. cbn. pose proof (inv_own _ HI s sk Hs Hc). set_solver.
  - intros eu. rewrite elem_of_existingUsers.
    split; intros [Hne Hu]; (split; [done |]).
    + rewrite lookup_insert_ne in Hu by done.
      destruct (rooms st !! r) as [m |]; cbn in *; [done |].
      by rewrite lookup_empty in Hu.
    + rewrite lookup_insert_ne by done.
      by destruct (rooms st !! r) as [m |]; cbn in *.
Qed.

Lemma existing_users_snapshot_witness :
  ∃ users,
    inbox "b" (step (message "b" (join_room "r1" 2 "bob")) movedAndMuted).2
    = [existing_users users] ∧
    NoDup (eu_socketId <$> users) ∧
    (∀ eu, eu ∈ users
           ↔ eu_socketId eu ≠ "b"
             ∧ rooms movedAndMuted !! "r1" ≫= (.!! eu_socketId eu)
               = Some (mkUser (eu_userId eu) (eu_username eu)
                              (eu_position eu) (eu_muted eu))).
Proof.
  apply (existing_users_snapshot movedAndMuted "b"
           (mkSocket true {["b"]} None None None)).
  - by exists [connection "a"; connection "b";
               message "a" (join_room "r1" 1 "alice");
               message "a" (position_update (mkPosition 3 0 4));
               message "a" (toggle_mute true)].
  - by vm_compute.
  - done.
Defined.

(** The late joiner of the scenario is told where ["a"] is and that it is
    muted. *)
Example late_joiner_sees_state :
  inbox "b" (step (message "b" (join_room "r1" 2 "bob")) movedAndMuted).2
  = [existing_users [mkExistingUser "a" 1 "alice" (mkPosition 3 0 4) true]].
Proof. by vm_compute. Qed.

(** ** The presence broadcast on join *)

(** In a reachable state, when an open socket [s] joins room [r]: the
    participants of [r] are those it had and [s]; [s] is recorded in [r]
    at the origin and unmuted; every other participant of [r] whose socket
    is open, and has not joined a room named by the id of [s], receives
    [user-joined] for [s], once, with the origin as position, and nothing
    else; [s] itself receives one event and no more, an [existing-users]
    array with one element for each participant other than [s] that the
    room had, whether or not the room existed before. *)
Theorem join_broadcast st s sk r uid name :
  reachable st -> sockets st !! s = Some sk -> connected sk = true ->
  let joined := step (message s (join_room r uid name)) st in
  participants joined.1 r = {[s]} ∪ participants st r ∧
  rooms joined.1 !! r ≫= (.!! s) = Some (mkUser uid name origin false) ∧
  (∀ t tk, t ≠ s -> t ∈ participants st r ->
           sockets st !! t = Some tk -> connected tk = true ->
           s ∉ socketRooms tk ->
           inbox t joined.2 = [user_joined s uid name origin]) ∧
  (∃ users,
     inbox s joined.2 = [existing_users users] ∧
     NoDup (eu_socketId <$> users) ∧
     (∀ t, t ∈ eu_socketId <$> users ↔ t ≠ s ∧ t ∈ participants st r)).
Proof.
  intros Hreach Hs Hc. apply Inv_reachable in Hreach as HI.
  cbv zeta. unfold step. rewrite Hs, Hc. cbn [handle].
  split; [by rewrite on_join_room_participants, decide_True |].
  split.
  { rewrite on_join_room_rooms, lookup_insert_eq. cbn.
    apply lookup_insert_eq. }
  assert (default ∅ ((match rooms st !! r with
                      | Some _ => rooms st
                      | None => <[r := ∅]> (rooms st)
                      end) !! r) = default ∅ (rooms st !! r)) as Hroom.
  { destruct (rooms st !! r) eqn:E; [by rewrite E |].
    by rewrite lookup_insert_eq. }
  unfold on_join_room. cbn [snd]. rewrite Hroom. split.
  - intros t tk Hne Hin Ht Htc Hpriv.
    rewrite inbox_app, inbox_to_emit, decide_True.
    + unfold inbox. rewrite filter_cons. cbn [recipient].
      by rewrite decide_False by congruence.
    + apply elem_of_addressed. exists tk. split; [| split; [| done]].
      * cbn. by rewrite lookup_insert_ne by congruence.
      * by apply (inv_joined _ HI r t tk).
  - exists (existingUsers s (<[s := mkUser uid name origin false]>
                               (default ∅ (rooms st !! r)))).
    split; [| split; [apply NoDup_existingUsers |]].
    + rewrite inbox_app. erewrite inbox_to_emit_sender.
      * unfold inbox. rewrite filter_cons. cbn [recipient].
        by rewrite decide_True by done.
      * cbn. apply lookup_insert_eq.
      * left. cbn. pose proof (inv_own _ HI s sk Hs Hc). set_solver.
    + intros t. rewrite list_elem_of_fmap. split.
      * intros (eu & -> & [Hne Hu]%elem_of_existingUsers).
        split; [done |]. rewrite lookup_insert_ne in Hu by done.
        apply elem_of_participants.
        destruct (rooms st !! r) as [m |]; cbn in Hu; [eauto |].
        by rewrite lookup_empty in Hu.
      * intros [Hne (m & u & Hm & Hu)%elem_of_participants].
        exists (mkExistingUser t (userId u) (username u) (position u) (muted u)).
        split; [done |]. apply elem_of_existingUsers. cbn.
        split; [done |]. rewrite lookup_insert_ne by done.
        rewrite Hm. cbn. rewrite Hu. by destruct u.
Qed.

Lemma join_broadcast_witness :
  let joined := step (message "b" (join_room "r1" 2 "bob")) movedAndMuted in
  participants joined.1 "r1" = {["b"]} ∪ participants movedAndMuted "r1" ∧
  rooms joined.1 !! "r1" ≫= (.!! "b") = Some (mkUser 2 "bob" origin false) ∧
  (∀ t tk, t ≠ "b" -> t ∈ participants movedAndMuted "r1" ->
           sockets movedAndMuted !! t = Some tk -> connected tk = true ->
           "b" ∉ socketRooms tk ->
           inbox t joined.2 = [user_joined "b" 2 "bob" origin]) ∧
  (∃ users,
     inbox "b" joined.2 = [existing_users users] ∧
     NoDup (eu_socketId <$> users) ∧
     (∀ t, t ∈ eu_socketId <$> users
           ↔ t ≠ "b" ∧ t ∈ participants movedAndMuted "r1")).
Proof.
  apply (join_broadcast movedAndMuted "b" (mkSocket true {["b"]} None None None)).
  - by exists [connection "a"; connection "b";
               message "a" (join_room "r1" 1 "alice");
               message "a" (position_update (mkPosition 3 0 4));
               message "a" (toggle_mute true)].
  - by vm_compute.
  - done.
Defined.

(** The join of the scenario: ["a"], the member, is told of ["b"], and
    ["b"] is told of ["a"]. *)
Example join_broadcast_scenario :
  let joined := step (message "b" (join_room "r1" 2 "bob")) movedAndMuted in
  participants joined.1 "r1" = {["a"; "b"]} ∧
  inbox "a" joined.2 = [user_joined "b" 2 "bob" origin] ∧
  joined.2
  = [mkDelivery "a" (user_joined "b" 2 "bob" origin);
     mkDelivery "b"
       (existing_users [mkExistingUser "a" 1 "alice" (mkPosition 3 0 4) true])].
Proof. by vm_compute. Qed.

(** ** Who is handed an event *)

Lemma addressed_open st st' sender room t :
  sockets st = sockets st' -> Inv st' ->
  t ∈ addressed st sender room ->
  t ≠ sender ∧ ∃ tk, sockets st' !! t = Some tk ∧ connected tk = true.
Proof.
  intros Heq HI (tk & Ht & Hin & Hout)%elem_of_addressed.
  rewrite Heq in Ht.
  assert (connected tk = true) as Hc.
  { destruct (connected tk) eqn:Hc; [done |].
    rewrite (inv_closed _ HI t tk Ht Hc) in Hin. set_solver. }
  split; [| eauto]. intros ->.
  by apply Hout, (inv_own _ HI).
Qed.

(** In a reachable state, whatever the input, an event is handed only to
    sockets that are open once the input is handled, never to a closed or
    unknown one.  The socket whose message is handled gets nothing back,
    except the [existing-users] reply to its own [join-room]. *)
Theorem deliveries_reach_open_sockets st i d :
  reachable st -> d ∈ (step i st).2 ->
  (∃ tk, sockets (step i st).1 !! recipient d = Some tk ∧ connected tk = true) ∧
  (∀ s msg, i = message s msg -> recipient d = s ->
            (∃ r uid name, msg = join_room r uid name)
            ∧ ∃ users, event d = existing_users users).
Proof.
  intros Hreach Hd. pose proof (Inv_reachable _ Hreach) as HI.
  pose proof (Inv_step i st HI) as HI'.
  destruct i as [s | s msg]; [(cbn in Hd; by apply elem_of_nil in Hd) |].
  unfold step in *.
  destruct (sockets st !! s) as [sk |] eqn:Hs; [| (cbn in Hd; by apply elem_of_nil in Hd)].
  destruct (connected sk) eqn:Hc; [| (cbn in Hd; by apply elem_of_nil in Hd)].
  assert (∀ stE room ev,
            sockets stE = sockets (handle s sk msg st).1 ->
            d ∈ to_emit stE s room ev ->
            (∃ tk, sockets (handle s sk msg st).1 !! recipient d = Some tk
                   ∧ connected tk = true)
            ∧ recipient d ≠ s) as Hemit.
  { intros stE room ev Heq [_ Hrec]%to_emit_event.
    destruct (addressed_open stE _ s room _ Heq HI' Hrec) as [? ?]. done. }
  destruct msg; cbn [handle] in *.
  - (* join-room *)
    unfold on_join_room in Hd. cbn [snd] in Hd.
    apply elem_of_app in Hd as [Hd | Hd].
    + destruct (Hemit _ _ _ eq_refl Hd) as [Hopen Hne].
      split; [done |]. intros s' msg' [= <- <-] Heq. done.
    + apply list_elem_of_singleton in Hd as ->. cbn [recipient event].
      split.
      * rewrite on_join_room_sockets, lookup_insert_eq. eauto.
      * intros s' msg' [= <- <-] _. eauto 10.
  - destruct (Hemit st target (offer payload s) eq_refl Hd) as [Hopen Hne].
    split; [done |]. by intros s' msg' [= <- <-] Heq.
  - destruct (Hemit st target (answer payload s) eq_refl Hd) as [Hopen Hne].
    split; [done |]. by intros s' msg' [= <- <-] Heq.
  - destruct (Hemit st target (ice_candidate payload s) eq_refl Hd) as [Hopen Hne].
    split; [done |]. by intros s' msg' [= <- <-] Heq.
  - pose proof (on_position_update_sockets s sk pos st) as Hsame.
    unfold on_position_update in *.
    destruct (currentRoom sk st) as [[r m] |]; [| (cbn in Hd; by apply elem_of_nil in Hd)].
    destruct (m !! s); [| (cbn in Hd; by apply elem_of_nil in Hd)]. cbn [snd] in Hd.
    destruct (Hemit st r _ (eq_sym Hsame) Hd) as [Hopen Hne].
    split; [done |]. by intros s' msg' [= <- <-] Heq.
  - pose proof (on_toggle_mute_sockets s sk m st) as Hsame.
    unfold on_toggle_mute in *.
    destruct (currentRoom sk st) as [[r m0] |]; [| (cbn in Hd; by apply elem_of_nil in Hd)].
    destruct (m0 !! s); [| (cbn in Hd; by apply elem_of_nil in Hd)]. cbn [snd] in Hd.
    destruct (Hemit st r _ (eq_sym Hsame) Hd) as [Hopen Hne].
    split; [done |]. by intros s' msg' [= <- <-] Heq.
  - pose proof (on_disconnect_sockets s sk st) as Hsame.
    unfold on_disconnect in *.
    destruct (currentRoom sk st) as [[r m] |]; [| (cbn in Hd; by apply elem_of_nil in Hd)].
    case_decide; [(cbn in Hd; by apply elem_of_nil in Hd) |]. cbn [snd] in Hd.
    destruct (Hemit (withSocket s (socket_close sk) st) r _ (eq_sym Hsame) Hd)
      as [Hopen Hne].
    split; [done |]. by intros s' msg' [= <- <-] Heq.
Qed.

Lemma deliveries_reach_open_sockets_witness :
  (∃ tk, sockets (step (message "b" (join_room "r1" 2 "bob")) movedAndMuted).1
           !! "a" = Some tk ∧ connected tk = true) ∧
  (∀ s msg, message "b" (join_room "r1" 2 "bob") = message s msg -> "a" = s ->
            (∃ r uid name, msg = join_room r uid name)
            ∧ ∃ users, user_joined "b" 2 "bob" origin = existing_users users).
Proof.
  apply (deliveries_reach_open_sockets movedAndMuted
           (message "b" (join_room "r1" 2 "bob"))
           (mkDelivery "a" (user_joined "b" 2 "bob" origin))).
  - by exists [connection "a"; connection "b";
               message "a" (join_room "r1" 1 "alice");
               message "a" (position_update (mkPosition 3 0 4));
               message "a" (toggle_mute true)].
  - assert ((step (message "b" (join_room "r1" 2 "bob")) movedAndMuted).2
            = [mkDelivery "a" (user_joined "b" 2 "bob" origin);
               mkDelivery "b"
                 (existing_users
                    [mkExistingUser "a" 1 "alice" (mkPosition 3 0 4) true])])
      as -> by (by vm_compute).
    apply list_elem_of_here.
Defined.

(** ** What changes membership *)

(** Only [join-room] and [disconnect] change who is where: a signaling
    forward, a position update or a mute update from any socket leaves the
    sockets, the set of rooms and the participants of every room as they
    were. *)
Theorem membership_kept st s msg r :
  keepsMembership msg ->
  let st' := (step (message s msg) st).1 in
  sockets st' = sockets st ∧
  participants st' r = participants st r ∧
  dom (rooms st') = dom (rooms st).
Proof.
  intros Hkeep. cbv zeta. unfold step.
  destruct (sockets st !! s) as [sk |]; [| done].
  destruct (connected sk); [| done].
  assert (∀ st', (∀ r0, participants st' r0 = participants st r0) ->
                 (∀ r0 m, rooms st !! r0 = Some m -> is_Some (rooms st' !! r0)) ->
                 (∀ r0 m, rooms st' !! r0 = Some m -> is_Some (rooms st !! r0)) ->
                 dom (rooms st') = dom (rooms st)) as Hdom.
  { intros st' _ H1 H2. apply set_eq. intros r0. rewrite !elem_of_dom.
    split; intros [m Hm]; eauto. }
  destruct msg; cbn [handle]; try done; clear Hkeep.
  - split; [apply on_position_update_sockets |].
    split; [apply on_position_update_participants |].
    unfold on_position_update.
    destruct (currentRoom sk st) as [[r0 m0] |] eqn:Hcur; [| done].
    destruct (m0 !! s); [| done]. cbn.
    apply currentRoom_Some in Hcur as (_ & _ & Hm0).
    rewrite dom_insert_L. apply elem_of_dom_2 in Hm0. set_solver.
  - split; [apply on_toggle_mute_sockets |].
    split; [apply on_toggle_mute_participants |].
    unfold on_toggle_mute.
    destruct (currentRoom sk st) as [[r0 m0] |] eqn:Hcur; [| done].
    destruct (m0 !! s); [| done]. cbn.
    apply currentRoom_Some in Hcur as (_ & _ & Hm0).
    rewrite dom_insert_L. apply elem_of_dom_2 in Hm0. set_solver.
Qed.

Lemma membership_kept_witness :
  let st' := (step (message "a" (position_update origin)) movedAndMuted).1 in
  sockets st' = sockets movedAndMuted ∧
  participants st' "r1" = participants movedAndMuted "r1" ∧
  dom (rooms st') = dom (rooms movedAndMuted).
Proof. by apply (membership_kept movedAndMuted "a" (position_update origin)). Defined.

(** A [join-room] from a socket that is already listed in the room keeps
    the participants and overwrites the entry of the socket: the position
    it had reported is replaced by the origin and its mute flag is
    cleared, whatever the client still shows.  The other entries stay. *)
Theorem rejoin_resets_entry st s sk r m u uid name :
  sockets st !! s = Some sk -> connected sk = true ->
  rooms st !! r = Some m -> m !! s = Some u ->
  let st' := (step (message s (join_room r uid name)) st).1 in
  participants st' r = participants st r ∧
  rooms st' !! r ≫= (.!! s) = Some (mkUser uid name origin false) ∧
  (∀ t, t ≠ s -> rooms st' !! r ≫= (.!! t) = m !! t) ∧
  (∀ r', r' ≠ r -> rooms st' !! r' = rooms st !! r').
Proof.
  intros Hs Hc Hm Hu. cbv zeta. unfold step. rewrite Hs, Hc. cbn [handle].
  rewrite on_join_room_participants, decide_True by done.
  rewrite on_join_room_rooms, Hm. cbn [default].
  split.
  { rewrite (participants_Some _ _ _ Hm). apply elem_of_dom_2 in Hu. set_solver. }
  rewrite lookup_insert_eq. cbn.
  split; [apply lookup_insert_eq |].
  split; [intros t Ht; by rewrite lookup_insert_ne |].
  intros r' Hr'. by rewrite lookup_insert_ne.
Qed.

Lemma rejoin_resets_entry_witness :
  let st' := (step (message "a" (join_room "r1" 1 "alice")) movedAndMuted).1 in
  participants st' "r1" = participants movedAndMuted "r1" ∧
  rooms st' !! "r1" ≫= (.!! "a") = Some (mkUser 1 "alice" origin false) ∧
  (∀ t, t ≠ "a" ->
        rooms st' !! "r1" ≫= (.!! t)
        = ({[ "a" := mkUser 1 "alice" (mkPosition 3 0 4) true ]} : gmap string User)
            !! t) ∧
  (∀ r', r' ≠ "r1" -> rooms st' !! r' = rooms movedAndMuted !! r').
Proof.
  apply (rejoin_resets_entry movedAndMuted "a"
           (mkSocket true {["r1"; "a"]} (Some "r1") (Some 1%Z) (Some "alice"))
           "r1" _ (mkUser 1 "alice" (mkPosition 3 0 4) true)); by vm_compute.
Defined.

(** ** The registry in reachable states *)

(** In every reachable state: the registry holds no empty room; it lists
    only sockets that were connected; an open socket that recorded a room
    is listed in it and is in the Socket.IO room of that name; and a closed
    socket is in no Socket.IO room. *)
Theorem reachable_registry_sound st r s sk :
  reachable st -> sockets st !! s = Some sk ->
  (∀ m, rooms st !! r = Some m -> m ≠ ∅) ∧
  (∀ t, t ∈ participants st r -> is_Some (sockets st !! t)) ∧
  (connected sk = true -> roomId sk = Some r ->
   s ∈ participants st r ∧ r ∈ socketRooms sk ∧ s ∈ socketRooms sk) ∧
  (connected sk = false -> socketRooms sk = ∅).
Proof.
  intros HI%Inv_reachable Hs.
  split; [apply (inv_nonempty _ HI) |].
  split; [apply (inv_known _ HI) |].
  split; [| by apply (inv_closed _ HI s sk)].
  intros Hc Hid. pose proof (inv_room _ HI s sk r Hs Hc Hid) as Hin.
  split; [done |]. split; [by apply (inv_joined _ HI r s sk) |].
  by apply (inv_own _ HI s sk).
Qed.

Lemma reachable_registry_sound_witness :
  (∀ m, rooms movedAndMuted !! "r1" = Some m -> m ≠ ∅) ∧
  (∀ t, t ∈ participants movedAndMuted "r1" ->
        is_Some (sockets movedAndMuted !! t)) ∧
  (true = true -> Some "r1" = Some "r1" ->
   "a" ∈ participants movedAndMuted "r1"
   ∧ "r1" ∈ ({["r1"; "a"]} : gset string) ∧ "a" ∈ ({["r1"; "a"]} : gset string)) ∧
  (true = false -> ({["r1"; "a"]} : gset string) = ∅).
Proof.
  refine (reachable_registry_sound movedAndMuted "r1" "a"
            (mkSocket true {["r1"; "a"]} (Some "r1") (Some 1%Z) (Some "alice"))
            _ _).
  - by exists [connection "a"; connection "b";
               message "a" (join_room "r1" 1 "alice");
               message "a" (position_update (mkPosition 3 0 4));
               message "a" (toggle_mute true)].
  - by vm_compute.
Defined.

End ServerMore.

(* ===================================================================== *)
(** * Properties of the room page *)
(* ===================================================================== *)

Module RoomProps.
Import SpatialAudio Room ManagerProps.

Local Open Scope R_scope.

(** ** Dragging the marker *)

(** The drag of the user's marker.  A press changes nothing but the drag
    flag, and does not end a drag.  If the page is dragging after the
    press, the next move puts the user at the world position that
    [canvasToWorldPosition] gives for the pointer, moves the listener
    there when there is one, sends one [position-update] with that
    position, touches neither participants nor audio sources and leaves
    the page dragging; after the release a move does nothing.  If the page
    is not dragging after the press, the move changes nothing and sends
    nothing. *)
Theorem drag_follows_pointer rect down move rm :
  let pressed := onMouseDown rect down rm in
  let cx := clientX move - rect_left rect in
  let cy := clientY move - rect_top rect in
  let dragged := onMouseMove rect move pressed in
  pressed = withDragging (isDragging pressed) rm ∧
  (isDragging rm = true -> isDragging pressed = true) ∧
  (isDragging pressed = true ->
   userPosition dragged.1 = canvasToWorldPosition cx cy canvasWidth canvasHeight ∧
   dragged.2 = [emit_position_update (userPosition dragged.1)] ∧
   (listener (spatialAudioManager rm) ≠ None ->
    listener (spatialAudioManager dragged.1) = Some (userPosition dragged.1)) ∧
   audioSources (spatialAudioManager dragged.1)
   = audioSources (spatialAudioManager rm) ∧
   participants dragged.1 = participants rm ∧
   isDragging dragged.1 = true ∧
   onMouseMove rect move (onMouseUp dragged.1) = (onMouseUp dragged.1, [])) ∧
  (isDragging pressed = false -> dragged = (rm, [])).
Proof.
  cbv zeta.
  assert (onMouseDown rect down rm = rm
          ∨ onMouseDown rect down rm = withDragging true rm) as Hpress.
  { unfold onMouseDown. destruct (Rlt_dec _ 20); [by right | by left]. }
  split; [| split; [| split]].
  - destruct Hpress as [-> | ->]; by destruct rm.
  - destruct Hpress as [-> | ->]; done.
  - intros Hdrag.
    assert (onMouseDown rect down rm = withDragging true rm) as ->.
    { destruct Hpress as [Heq | Heq]; [| done].
      rewrite Heq in *. destruct rm. cbn in Hdrag. by subst. }
    unfold onMouseMove. cbn [withDragging isDragging].
    unfold updateUserPosition. cbn [fst snd userPosition].
    split; [done |]. split; [done |]. split.
    { intros Hl. cbn [spatialAudioManager withDragging]. unfold setListenerPosition.
      destruct (listener (spatialAudioManager rm)); [done | by destruct Hl]. }
    split.
    { cbn [spatialAudioManager withDragging]. unfold setListenerPosition.
      by destruct (listener (spatialAudioManager rm)). }
    done.
  - intros Hidle. destruct Hpress as [Heq | Heq]; rewrite Heq in *.
    + unfold onMouseMove. by rewrite Hidle.
    + done.
Qed.

(** A press on the centre of the marker starts a drag. *)
Example press_on_marker_starts_drag :
  isDragging (ready "r1" 1 "alice") = false ∧
  isDragging (onMouseDown (mkDOMRect 10 20) (mkMouseEvent 410 320)
                (ready "r1" 1 "alice")) = true.
Proof.
  split; [done |]. unfold onMouseDown.
  destruct (Rlt_dec _ 20) as [Hhit | Hmiss]; [done |].
  exfalso. apply Hmiss.
  unfold userCanvasPos, worldToCanvasPosition, canvasWidth, canvasHeight, ready,
    opened, origin. cbn [userPosition x y z canvasX canvasY clientX clientY
                           rect_left rect_top].
  replace ((410 - 10 - (0 / 10 + 1) * 800 / 2) ^ 2
           + (320 - 20 - (0 / 10 + 1) * 600 / 2) ^ 2) with 0 by field.
  rewrite sqrt_0. lra.
Qed.

(** ** Streams and positions *)

Lemma setPannerPosition_twice pn p q :
  setPannerPosition (setPannerPosition pn q) p = setPannerPosition pn p.
Proof. unfold setPannerPosition. by destruct (pannerApi pn). Qed.

Lemma setPannerPosition_eta pn p :
  setPannerPosition pn (mkPosition (x p) (y p) (z p)) = setPannerPosition pn p.
Proof. done. Qed.

(** A position update overrides an earlier one for the same peer. *)
Lemma update_update k p q m :
  updateAudioSourcePosition k p (updateAudioSourcePosition k q m)
  = updateAudioSourcePosition k p m.
Proof.
  unfold updateAudioSourcePosition.
  destruct (audioSources m !! k) as [sd |] eqn:Hk; [| by rewrite Hk].
  destruct (isEnabled m) eqn:He; [| by rewrite Hk, He].
  cbn [withSources audioSources isEnabled]. rewrite lookup_insert_eq, He.
  cbn [panner]. rewrite setPannerPosition_twice.
  apply manager_eq; cbn; try done. by rewrite insert_insert_eq.
Qed.

(** Position updates for different peers do not see each other. *)
Lemma update_update_ne k1 k2 p q m :
  k1 ≠ k2 ->
  updateAudioSourcePosition k1 p (updateAudioSourcePosition k2 q m)
  = updateAudioSourcePosition k2 q (updateAudioSourcePosition k1 p m).
Proof.
  intros Hne. unfold updateAudioSourcePosition.
  destruct (audioSources m !! k1) as [sd1 |] eqn:H1;
    destruct (audioSources m !! k2) as [sd2 |] eqn:H2;
    destruct (isEnabled m) eqn:He;
    cbn [withSources audioSources isEnabled];
    rewrite ?lookup_insert_ne by done; rewrite ?H1, ?H2, ?He;
    cbn [withSources audioSources isEnabled];
    rewrite ?lookup_insert_ne by done; rewrite ?H1, ?H2, ?He; try done.
  apply manager_eq; cbn; try done. by apply insert_insert_ne.
Qed.

Lemma update_flags k q m :
  isEnabled (updateAudioSourcePosition k q m) = isEnabled m
  ∧ initialized (updateAudioSourcePosition k q m) = initialized m
  ∧ masterGainNode (updateAudioSourcePosition k q m) = masterGainNode m
  ∧ listener (updateAudioSourcePosition k q m) = listener m.
Proof.
  unfold updateAudioSourcePosition.
  destruct (audioSources m !! k); [| done]. by destruct (isEnabled m) eqn:He.
Qed.

Lemma update_sources k q m :
  ∃ srcs, audioSources (updateAudioSourcePosition k q m) = srcs
          ∧ ∀ sd, <[k := sd]> srcs = <[k := sd]> (audioSources m).
Proof.
  eexists. split; [done |]. intros sd. unfold updateAudioSourcePosition.
  destruct (audioSources m !! k); [| done].
  destruct (isEnabled m); [| done]. cbn. by rewrite insert_insert_eq.
Qed.

Lemma update_inserted k p sd srcs m :
  isEnabled m = true ->
  updateAudioSourcePosition k p (withSources (<[k := sd]> srcs) m)
  = withSources
      (<[k := {| panner := setPannerPosition (panner sd) p;
                 gainNode := gainFor (distance (mkPosition (x p) (y p) (z p)));
                 position := mkPosition (x p) (y p) (z p) |}]> srcs) m.
Proof.
  intros He. unfold updateAudioSourcePosition.
  cbn [withSources audioSources isEnabled]. rewrite lookup_insert_eq, He.
  apply manager_eq; cbn; try done. by rewrite insert_insert_eq.
Qed.

Lemma addAudioSource_cases k flavour throws m :
  (initialized m = true ∧ isEnabled m = true ∧ throws = false
   ∧ (addAudioSource k flavour throws m).2
     = withSources (<[k := {| panner := mkPanner flavour origin;
                              gainNode := 0.5; position := origin |}]>
                      (audioSources m)) m)
  ∨ ((initialized m = false ∨ isEnabled m = false ∨ throws = true)
     ∧ (addAudioSource k flavour throws m).2 = m).
Proof.
  unfold addAudioSource.
  destruct (initialized m), (isEnabled m), throws; cbn; naive_solver.
Qed.

(** A position update right after [addAudioSource] for the same peer gives
    the same manager whatever was done to the peer's entry before. *)
Lemma add_after_update k flavour throws p q m :
  updateAudioSourcePosition k p
    (addAudioSource k flavour throws (updateAudioSourcePosition k q m)).2
  = updateAudioSourcePosition k p
      (updateAudioSourcePosition k q (addAudioSource k flavour throws m).2).
Proof.
  destruct (update_flags k q m) as (He' & Hi' & Hg' & Hl').
  destruct (update_sources k q m) as (srcs & Hsrcs & Hins).
  rewrite update_update.
  destruct (addAudioSource_cases k flavour throws m)
    as [(Hi & He & -> & ->) | [Hno ->]].
  - destruct (addAudioSource_cases k flavour false
                (updateAudioSourcePosition k q m))
      as [(_ & _ & _ & ->) | [Hno _]]; [| naive_solver congruence].
    rewrite !update_inserted by congruence.
    apply manager_eq; cbn; try done. by rewrite Hsrcs, Hins.
  - destruct (addAudioSource_cases k flavour throws
                (updateAudioSourcePosition k q m))
      as [(? & ? & ? & _) | [_ ->]]; [naive_solver congruence |].
    apply update_update.
Qed.

Lemma add_update_ne k1 k2 flavour throws q m :
  k1 ≠ k2 ->
  (addAudioSource k1 flavour throws (updateAudioSourcePosition k2 q m)).2
  = updateAudioSourcePosition k2 q (addAudioSource k1 flavour throws m).2.
Proof.
  intros Hne. unfold addAudioSource, updateAudioSourcePosition.
  destruct (audioSources m !! k2) as [sd |] eqn:H2;
    destruct (isEnabled m) eqn:He; destruct (initialized m) eqn:Hi;
    destruct throws;
    cbn [negb orb snd withSources audioSources isEnabled initialized];
    rewrite ?Hi, ?He; cbn [negb orb snd withSources audioSources isEnabled];
    rewrite ?lookup_insert_ne by done; rewrite ?H2, ?He;
    cbn [withSources audioSources isEnabled]; try done.
  apply manager_eq; cbn; try done. by apply insert_insert_ne.
Qed.

Lemma room_ext (r1 r2 : RoomManager) :
  webrtcManager r1 = webrtcManager r2 ->
  spatialAudioManager r1 = spatialAudioManager r2 ->
  roomId r1 = roomId r2 -> currentUserId r1 = currentUserId r2 ->
  currentUsername r1 = currentUsername r2 ->
  participants r1 = participants r2 -> isDragging r1 = isDragging r2 ->
  userPosition r1 = userPosition r2 -> isMuted r1 = isMuted r2 ->
  spatialEnabled r1 = spatialEnabled r2 -> r1 = r2.
Proof. destruct r1, r2; simpl; congruence. Qed.

Lemma position_eta (p : Position) : mkPosition (x p) (y p) (z p) = p.
Proof. by destruct p. Qed.

(** The [canplay] listener of a remote stream and a [user-position-update]
    can be handled in either order: the page ends in the same state, for
    the same peer or for two different peers, whether or not the peer is a
    participant, has a source, or the source can be created. *)
Theorem stream_and_position_commute peerId flavour throws socketId p rm :
  onCanPlay peerId flavour throws (updateParticipantPosition socketId p rm)
  = updateParticipantPosition socketId p (onCanPlay peerId flavour throws rm).
Proof.
  unfold updateParticipantPosition at 2.
  assert (participants (onCanPlay peerId flavour throws rm) = participants rm)
    as Hsame.
  { unfold onCanPlay. by destruct (participants rm !! peerId). }
  rewrite Hsame. unfold updateParticipantPosition.
  destruct (participants rm !! socketId) as [part |] eqn:Hpart; [| done].
  unfold onCanPlay.
  cbn [withSpatial withParticipants participants spatialAudioManager].
  destruct (decide (peerId = socketId)) as [-> | Hne].
  - rewrite lookup_insert_eq, Hpart. cbn [p_position].
    apply room_ext; cbn; try done.
    rewrite add_after_update. by rewrite !update_update.
  - rewrite lookup_insert_ne by done.
    destruct (participants rm !! peerId) as [part' |] eqn:Hpart';
      apply room_ext; cbn; try done.
    + rewrite add_update_ne by done. by apply update_update_ne.
    + by apply add_update_ne.
Qed.

(** When the stream of a peer becomes playable on a page whose spatial
    audio manager is initialised and switched on, the peer gets an audio
    source: at the position the page holds for the participant, with the
    gain of that position, or at the origin with gain 0.5 when the peer is
    no participant.  The sources of the other peers and the participants
    stay as they are. *)
Theorem remote_stream_placed peerId flavour rm :
  initialized (spatialAudioManager rm) = true ->
  isEnabled (spatialAudioManager rm) = true ->
  let played := onCanPlay peerId flavour false rm in
  participants played = participants rm ∧
  (∀ participant,
     participants rm !! peerId = Some participant ->
     audioSources (spatialAudioManager played) !! peerId
     = Some {| panner := mkPanner flavour (p_position participant);
               gainNode := gainFor (distance (p_position participant));
               position := p_position participant |}) ∧
  (participants rm !! peerId = None ->
   audioSources (spatialAudioManager played) !! peerId
   = Some {| panner := mkPanner flavour origin; gainNode := 0.5;
             position := origin |}) ∧
  (∀ k, k ≠ peerId ->
        audioSources (spatialAudioManager played) !! k
        = audioSources (spatialAudioManager rm) !! k).
Proof.
  intros Hi He. cbv zeta. unfold onCanPlay.
  destruct (addAudioSource_cases peerId flavour false (spatialAudioManager rm))
    as [(_ & _ & _ & ->) | [Hno _]]; [| naive_solver congruence].
  destruct (participants rm !! peerId) as [part |] eqn:Hpart.
  - rewrite update_inserted by done.
    cbn [withSpatial participants spatialAudioManager withSources audioSources].
    split; [done |]. split; [| split; [done |]].
    + intros ? [= <-]. rewrite lookup_insert_eq, position_eta.
      unfold setPannerPosition. cbn [panner pannerApi].
      rewrite position_eta. by destruct flavour.
    + intros k Hk. by rewrite lookup_insert_ne.
  - cbn [withSpatial participants spatialAudioManager withSources audioSources].
    split; [done |]. split; [done |]. split.
    + intros _. by rewrite lookup_insert_eq.
    + intros k Hk. by rewrite lookup_insert_ne.
Qed.

Lemma remote_stream_placed_witness :
  let rm := (onServerEvent (willing "o" "a")
               (Server.user_joined "b" 2 "bob" (Server.mkPosition 3 0 4))
               (ready "r1" 1 "alice")).1 in
  audioSources (spatialAudioManager (onCanPlay "b" ModernApi false rm)) !! "b"
  = Some {| panner := mkPanner ModernApi (ofWire (Server.mkPosition 3 0 4));
            gainNode := gainFor (distance (ofWire (Server.mkPosition 3 0 4)));
            position := ofWire (Server.mkPosition 3 0 4) |}.
Proof.
  cbv zeta.
  pose proof (remote_stream_placed "b" ModernApi
                (onServerEvent (willing "o" "a")
                   (Server.user_joined "b" 2 "bob" (Server.mkPosition 3 0 4))
                   (ready "r1" 1 "alice")).1 eq_refl eq_refl) as (_ & Hplaced & _).
  by apply (Hplaced (mkParticipant 2 "bob" (ofWire (Server.mkPosition 3 0 4))
                       false (Some "#45b7d1"))).
Defined.

(** ** A peer that left *)

Lemma removePeerConnection_lookup peerId w k :
  WebRTC.peerConnections (WebRTC.removePeerConnection peerId w) !! k
  = if decide (k = peerId) then None else WebRTC.peerConnections w !! k.
Proof.
  unfold WebRTC.removePeerConnection.
  destruct (WebRTC.peerConnections w !! peerId) eqn:Hp; case_decide; subst;
    cbn; rewrite ?lookup_delete_eq, ?lookup_delete_ne by done; done.
Qed.

Lemma removeAudioSource_lookup peerId m k :
  audioSources (removeAudioSource peerId m) !! k
  = if decide (k = peerId) then None else audioSources m !! k.
Proof.
  unfold removeAudioSource.
  destruct (audioSources m !! peerId) eqn:Hp; case_decide; subst;
    cbn; rewrite ?lookup_delete_eq, ?lookup_delete_ne by done; done.
Qed.

(** After [user-left] for a socket the page holds no peer connection, no
    participant and no audio source for it, keeps those of every other
    socket, and has sent nothing.  From then on a position update, a mute
    update, an answer or a candidate that names the socket changes nothing
    and sends nothing. *)
Theorem user_left_forgets_peer b socketId uid name rm :
  let gone := onServerEvent b (Server.user_left socketId uid name) rm in
  gone.2 = [] ∧
  WebRTC.peerConnections (webrtcManager gone.1) !! socketId = None ∧
  participants gone.1 !! socketId = None ∧
  audioSources (spatialAudioManager gone.1) !! socketId = None ∧
  (∀ k, k ≠ socketId ->
        WebRTC.peerConnections (webrtcManager gone.1) !! k
        = WebRTC.peerConnections (webrtcManager rm) !! k
        ∧ participants gone.1 !! k = participants rm !! k
        ∧ audioSources (spatialAudioManager gone.1) !! k
          = audioSources (spatialAudioManager rm) !! k) ∧
  (∀ b' pos m payload,
     onServerEvent b' (Server.user_position_update socketId pos) gone.1
     = (gone.1, [])
     ∧ onServerEvent b' (Server.user_mute_update socketId m) gone.1 = (gone.1, [])
     ∧ onServerEvent b' (Server.answer payload socketId) gone.1 = (gone.1, [])
     ∧ onServerEvent b' (Server.ice_candidate payload socketId) gone.1
       = (gone.1, [])).
Proof.
  cbv zeta. cbn [onServerEvent fst snd].
  set (gone := removeParticipant socketId _).
  assert (WebRTC.peerConnections (webrtcManager gone) !! socketId = None) as Hpc.
  { subst gone. cbn. by rewrite removePeerConnection_lookup, decide_True. }
  assert (participants gone !! socketId = None) as Hpart.
  { subst gone. cbn. apply lookup_delete_eq. }
  split; [done |]. split; [done |]. split; [done |]. split.
  { subst gone. cbn. by rewrite removeAudioSource_lookup, decide_True. }
  split.
  - intros k Hk. subst gone. cbn.
    rewrite removePeerConnection_lookup, removeAudioSource_lookup,
      !decide_False by done.
    by rewrite lookup_delete_ne.
  - intros b' pos m payload.
    unfold updateParticipantPosition, updateParticipantMuteStatus,
      WebRTC.handleAnswer, WebRTC.handleIceCandidate.
    rewrite Hpart, Hpc.
    assert (withWebRTC (webrtcManager gone) gone = gone) as ->
      by (by destruct gone).
    done.
Qed.

(** ** What a page sends back *)

(** Handling a server event makes the page send at most one message, and
    only a reply to the socket the event is about: an [offer] to the socket
    of a [user-joined], carrying the description the browser created, or an
    [answer] to the caller of an [offer].  No other event makes it send
    anything. *)
Theorem replies_only_to_signaller b ev rm e :
  e ∈ (onServerEvent b ev rm).2 ->
  (onServerEvent b ev rm).2 = [e] ∧
  ((∃ socketId uid name pos description,
      ev = Server.user_joined socketId uid name pos
      ∧ WebRTC.createOffer b = Some description
      ∧ e = emit_offer socketId description) ∨
   (∃ payload caller description,
      ev = Server.offer payload caller
      ∧ WebRTC.createAnswer b = Some description
      ∧ e = emit_answer caller description)).
Proof.
  destruct ev; cbn [onServerEvent fst snd].
  - (* user-joined *)
    destruct (WebRTC.createPeerConnection b socketId _) as [[pc w] |];
      cbn [fst snd]; [| by intros ?%elem_of_nil].
    unfold WebRTC.sendOffer.
    destruct (WebRTC.peerConnections w !! socketId);
      [| by intros ?%elem_of_nil].
    destruct (WebRTC.createOffer b) as [description |] eqn:Hoffer;
      [| by intros ?%elem_of_nil].
    destruct (WebRTC.setLocalDescription b); [| by intros ?%elem_of_nil].
    cbn [snd]. intros ->%list_elem_of_singleton. split; [done |]. left.
    by exists socketId, uid, name, pos, description.
  - by intros ?%elem_of_nil.
  - (* offer *)
    unfold WebRTC.handleOffer.
    destruct (match WebRTC.peerConnections (webrtcManager rm) !! caller with
              | Some pc => Some (pc, webrtcManager rm)
              | None => WebRTC.createPeerConnection b caller (webrtcManager rm)
              end) as [[pc w] |]; [| by intros ?%elem_of_nil].
    destruct (WebRTC.setRemoteDescription b); [| by intros ?%elem_of_nil].
    destruct (WebRTC.createAnswer b) as [description |] eqn:Hanswer;
      [| by intros ?%elem_of_nil].
    destruct (WebRTC.setLocalDescription b); [| by intros ?%elem_of_nil].
    cbn [snd]. intros ->%list_elem_of_singleton. split; [done |]. right.
    by exists payload, caller, description.
  - by intros ?%elem_of_nil.
  - by intros ?%elem_of_nil.
  - by intros ?%elem_of_nil.
  - by intros ?%elem_of_nil.
  - by intros ?%elem_of_nil.
Qed.

Lemma replies_only_to_signaller_witness :
  (onServerEvent (willing "sdp-offer" "sdp-answer")
     (Server.offer "sdp-offer" "a") (ready "r1" 2 "bob")).2
  = [emit_answer "a" "sdp-answer"] ∧
  ((∃ socketId uid name pos description,
      Server.offer "sdp-offer" "a" = Server.user_joined socketId uid name pos
      ∧ WebRTC.createOffer (willing "sdp-offer" "sdp-answer") = Some description
      ∧ emit_answer "a" "sdp-answer" = emit_offer socketId description) ∨
   (∃ payload caller description,
      Server.offer "sdp-offer" "a" = Server.offer payload caller
      ∧ WebRTC.createAnswer (willing "sdp-offer" "sdp-answer") = Some description
      ∧ emit_answer "a" "sdp-answer" = emit_answer caller description)).
Proof.
  apply (replies_only_to_signaller (willing "sdp-offer" "sdp-answer")
           (Server.offer "sdp-offer" "a") (ready "r1" 2 "bob")
           (emit_answer "a" "sdp-answer")).
  apply list_elem_of_here.
Defined.

(** ** Spatial mode switched off and on *)

Lemma room_toggle_off rm :
  isEnabled (spatialAudioManager rm) = true ->
  Room.toggleSpatialAudio rm
  = {| webrtcManager := webrtcManager rm;
       spatialAudioManager := withEnabled false (spatialAudioManager rm);
       roomId := roomId rm; currentUserId := currentUserId rm;
       currentUsername := currentUsername rm; participants := participants rm;
       isDragging := isDragging rm; userPosition := userPosition rm;
       isMuted := isMuted rm; spatialEnabled := false |}.
Proof.
  intros He. unfold Room.toggleSpatialAudio.
  by rewrite (AudioProps.toggleSpatialAudio_off _ He).
Qed.

Lemma room_toggle_on rm :
  isEnabled (spatialAudioManager rm) = false ->
  Room.toggleSpatialAudio rm
  = {| webrtcManager := webrtcManager rm;
       spatialAudioManager :=
         withSources (rendered <$> audioSources (spatialAudioManager rm))
           (withEnabled true (spatialAudioManager rm));
       roomId := roomId rm; currentUserId := currentUserId rm;
       currentUsername := currentUsername rm; participants := participants rm;
       isDragging := isDragging rm; userPosition := userPosition rm;
       isMuted := isMuted rm; spatialEnabled := true |}.
Proof.
  intros He. unfold Room.toggleSpatialAudio.
  by rewrite (AudioProps.toggleSpatialAudio_on _ He).
Qed.

(** A [user-position-update] that arrives while the page has spatial mode
    switched off moves the participant on the canvas but not its audio
    source, and switching the mode on again puts the source where it was
    before: the page then holds the participant at the new position while
    the panner holds the old one.  The next update brings the two
    together. *)
Theorem canvas_and_audio_disagree socketId p p' rm participant sd :
  isEnabled (spatialAudioManager rm) = true ->
  participants rm !! socketId = Some participant ->
  audioSources (spatialAudioManager rm) !! socketId = Some sd ->
  pannerPosition (panner sd) = position sd ->
  let off := Room.toggleSpatialAudio rm in
  let on := Room.toggleSpatialAudio (updateParticipantPosition socketId p off) in
  let next := updateParticipantPosition socketId p' on in
  spatialEnabled off = false ∧ spatialEnabled on = true ∧
  p_position <$> participants on !! socketId = Some p ∧
  pannerPosition <$>
    (panner <$> audioSources (spatialAudioManager on) !! socketId)
  = Some (position sd) ∧
  p_position <$> participants next !! socketId = Some p' ∧
  pannerPosition <$>
    (panner <$> audioSources (spatialAudioManager next) !! socketId)
  = Some p'.
Proof.
  intros He Hpart Hsd Hstep. cbv zeta.
  rewrite (room_toggle_off rm He).
  set (off := mkRoomManager _ _ _ _ _ _ _ _ _ _).
  set (moved := withParticipants
                  (<[socketId := mkParticipant (p_userId participant)
                                   (p_username participant) p
                                   (p_muted participant)
                                   (p_color participant)]> (participants rm))
                  off).
  assert (updateParticipantPosition socketId p off = moved) as ->.
  { unfold updateParticipantPosition. subst moved off. cbn [participants].
    rewrite Hpart. cbn [withSpatial withParticipants spatialAudioManager].
    by rewrite AudioProps.updateAudioSourcePosition_disabled. }
  rewrite (room_toggle_on moved) by done.
  set (on := mkRoomManager _ _ _ _ _ _ _ _ _ _).
  split; [done |]. split; [done |].
  assert (audioSources (spatialAudioManager on) !! socketId = Some (rendered sd))
    as Hon.
  { subst on moved off. cbn. by rewrite lookup_fmap, Hsd. }
  split; [subst on moved off; cbn; by rewrite lookup_insert_eq |].
  split.
  { rewrite Hon. cbn. f_equal. unfold setPannerPosition.
    by destruct (pannerApi (panner sd)), (position sd). }
  unfold updateParticipantPosition.
  assert (∃ part, participants on !! socketId = Some part) as [part ->].
  { subst on moved off. cbn. rewrite lookup_insert_eq. eauto. }
  cbn [withSpatial withParticipants spatialAudioManager participants].
  rewrite lookup_insert_eq. split; [done |].
  unfold updateAudioSourcePosition. rewrite Hon.
  assert (isEnabled (spatialAudioManager on) = true) as -> by done.
  cbn [withSources audioSources]. rewrite lookup_insert_eq.
  cbn. f_equal. unfold setPannerPosition.
  by destruct (pannerApi (panner sd)), p'.
Qed.

Lemma canvas_and_audio_disagree_witness :
  let rm := onCanPlay "b" ModernApi false
              (onServerEvent (willing "o" "a")
                 (Server.user_joined "b" 2 "bob" (Server.mkPosition 3 0 4))
                 (ready "r1" 1 "alice")).1 in
  let off := Room.toggleSpatialAudio rm in
  let on := Room.toggleSpatialAudio (updateParticipantPosition "b" origin off) in
  p_position <$> participants on !! "b" = Some origin ∧
  pannerPosition <$> (panner <$> audioSources (spatialAudioManager on) !! "b")
  = Some (ofWire (Server.mkPosition 3 0 4)).
Proof.
  cbv zeta.
  pose proof (canvas_and_audio_disagree "b" origin origin
                (onCanPlay "b" ModernApi false
                   (onServerEvent (willing "o" "a")
                      (Server.user_joined "b" 2 "bob" (Server.mkPosition 3 0 4))
                      (ready "r1" 1 "alice")).1)
                (mkParticipant 2 "bob" (ofWire (Server.mkPosition 3 0 4)) false
                   (Some "#45b7d1"))
                {| panner := mkPanner ModernApi (ofWire (Server.mkPosition 3 0 4));
                   gainNode := gainFor (distance (ofWire (Server.mkPosition 3 0 4)));
                   position := ofWire (Server.mkPosition 3 0 4) |}
                eq_refl eq_refl eq_refl eq_refl) as (_ & _ & Hcanvas & Haudio & _).
  done.
Defined.

(** ** Colours *)

(** A user id that is not negative gets one of the eight colours, and two
    ids that differ by eight get the same one.  A negative id that is no
    multiple of eight gets none: the index is negative and reads
    [undefined]. *)
Theorem participant_colour (userId : Z) :
  ((0 <= userId)%Z ->
   (∃ c, generateParticipantColor userId = Some c ∧ c ∈ colors) ∧
   generateParticipantColor (userId + 8) = generateParticipantColor userId) ∧
  ((userId < 0)%Z -> Z.rem userId 8 ≠ 0%Z ->
   generateParticipantColor userId = None).
Proof.
  unfold generateParticipantColor. cbn [length colors Z.of_nat].
  change (Z.of_nat 8) with 8%Z. split.
  - intros Hpos.
    pose proof (Z.rem_bound_pos userId 8 Hpos ltac:(lia)) as [Hlo Hhi].
    assert (Z.rem (userId + 8) 8 = Z.rem userId 8) as ->.
    { rewrite !Z.rem_mod_nonneg by lia.
      replace (userId + 8)%Z with (userId + 1 * 8)%Z by lia.
      by rewrite Z.mod_add by lia. }
    split; [| done].
    rewrite (proj2 (Z.leb_le _ _) Hlo).
    assert (Z.to_nat (Z.rem userId 8) < length colors)%nat as Hlt
      by (cbn; lia).
    apply lookup_lt_is_Some_2 in Hlt as [c Hc]. exists c. split; [done |].
    by apply list_elem_of_lookup_2 in Hc.
  - intros Hneg Hrem.
    pose proof (Z.rem_nonpos userId 8 ltac:(lia) ltac:(lia)) as Hle.
    assert ((0 <=? Z.rem userId 8)%Z = false) as -> by (apply Z.leb_gt; lia).
    done.
Qed.

End RoomProps.

(* ===================================================================== *)
(** * Pages and server together *)
(* ===================================================================== *)

(** What the server makes of a message of one page, and what the pages of
    the other members make of the events the server hands them. *)
Module WireProps.
Import Server ServerRuns ServerProps ServerMore.

(** ** The server's side *)

Lemma run_single i st : run [i] st = step i st.
Proof.
  cbn [run]. destruct (step i st) as [st1 out1]. by rewrite app_nil_r.
Qed.

Lemma join_inbox_self st s sk r uid name :
  Inv st -> sockets st !! s = Some sk -> connected sk = true ->
  inbox s (step (message s (join_room r uid name)) st).2
  = [existing_users
       (existingUsers s (<[s := mkUser uid name origin false]>
                           (default ∅ (rooms st !! r))))].
Proof.
  intros HI Hs Hc. unfold step. rewrite Hs, Hc. cbn [handle].
  unfold on_join_room. cbn [snd].
  assert (default ∅ ((match rooms st !! r with
                      | Some _ => rooms st
                      | None => <[r := ∅]> (rooms st)
                      end) !! r) = default ∅ (rooms st !! r)) as ->.
  { destruct (rooms st !! r) eqn:E; [by rewrite E |].
    by rewrite lookup_insert_eq. }
  rewrite inbox_app. erewrite inbox_to_emit_sender.
  - unfold inbox. rewrite filter_cons. cbn [recipient].
    by rewrite decide_True by done.
  - cbn. apply lookup_insert_eq.
  - left. cbn. pose proof (inv_own _ HI s sk Hs Hc). set_solver.
Qed.

Lemma join_inbox_member st s sk r uid name t tk :
  Inv st -> sockets st !! s = Some sk -> connected sk = true ->
  t ≠ s -> t ∈ participants st r ->
  sockets st !! t = Some tk -> connected tk = true -> s ∉ socketRooms tk ->
  inbox t (step (message s (join_room r uid name)) st).2
  = [user_joined s uid name origin].
Proof.
  intros HI Hs Hc Hne Hin Ht Htc Hpriv.
  unfold step. rewrite Hs, Hc. cbn [handle].
  unfold on_join_room. cbn [snd]. rewrite inbox_app.
  rewrite inbox_to_emit, decide_True.
  - unfold inbox. rewrite filter_cons. cbn [recipient].
    by rewrite decide_False by congruence.
  - apply elem_of_addressed. exists tk. split; [| split; [| done]].
    + simpl. by rewrite lookup_insert_ne by congruence.
    + by apply (inv_joined _ HI r t tk).
Qed.

Lemma join_sockets st s sk r uid name :
  sockets st !! s = Some sk -> connected sk = true ->
  sockets (step (message s (join_room r uid name)) st).1
  = <[s := mkSocket true ({[r]} ∪ socketRooms sk) (Some r) (Some uid) (Some name)]>
      (sockets st).
Proof.
  intros Hs Hc. unfold step. rewrite Hs, Hc. cbn [handle].
  by rewrite on_join_room_sockets, Hc.
Qed.

Lemma forward_inbox st s sk k target tk payload :
  sockets st !! s = Some sk -> connected sk = true ->
  sockets st !! target = Some tk -> target ∈ socketRooms tk ->
  s ∉ socketRooms tk ->
  (step (message s (forward k target payload)) st).1 = st ∧
  inbox target (step (message s (forward k target payload)) st).2
  = [forwarded k payload s].
Proof.
  intros Hs Hc Ht Hown Hpriv. rewrite (step_forward st s sk) by done.
  split; [done |]. cbn [snd]. rewrite inbox_to_emit, decide_True; [done |].
  apply elem_of_addressed. eauto.
Qed.

Lemma update_inboxes st s sk r m u t tk pos b :
  Inv st -> sockets st !! s = Some sk -> connected sk = true ->
  roomId sk = Some r -> r ≠ "" -> rooms st !! r = Some m -> m !! s = Some u ->
  t ≠ s -> t ∈ participants st r ->
  sockets st !! t = Some tk -> connected tk = true -> s ∉ socketRooms tk ->
  inbox t (step (message s (position_update pos)) st).2
  = [user_position_update s pos] ∧
  inbox t (step (message s (toggle_mute b)) st).2 = [user_mute_update s b] ∧
  rooms (step (message s (position_update pos)) st).1 !! r ≫= (.!! s)
  = Some (mkUser (userId u) (username u) pos (muted u)) ∧
  rooms (step (message s (toggle_mute b)) st).1 !! r ≫= (.!! s)
  = Some (mkUser (userId u) (username u) (position u) b).
Proof.
  intros HI Hs Hc Hid Hr Hm Hu Hne Hin Ht Htc Hpriv.
  unfold step. rewrite Hs, Hc. cbn [handle].
  unfold on_position_update, on_toggle_mute.
  rewrite (proj2 (currentRoom_Some sk st r m)) by done. rewrite Hu.
  cbn [fst snd withRooms rooms].
  assert (t ∈ addressed st s r) as Hadd.
  { apply elem_of_addressed. exists tk. split; [done |]. split; [| done].
    by apply (inv_joined _ HI r t tk). }
  rewrite !inbox_to_emit, !decide_True by done.
  rewrite !lookup_insert_eq. cbn. by rewrite !lookup_insert_eq.
Qed.

Lemma disconnect_inbox st s sk r m u t tk :
  Inv st -> sockets st !! s = Some sk -> connected sk = true ->
  roomId sk = Some r -> r ≠ "" -> rooms st !! r = Some m -> m !! s = Some u ->
  t ≠ s -> t ∈ participants st r ->
  sockets st !! t = Some tk -> connected tk = true -> s ∉ socketRooms tk ->
  inbox t (step (message s disconnect) st).2
  = [user_left s (socketUserId sk) (socketUsername sk)] ∧
  participants (step (message s disconnect) st).1 r = participants st r ∖ {[s]}.
Proof.
  intros HI Hs Hc Hid Hr Hm Hu Hne Hin Ht Htc Hpriv.
  assert (currentRoom sk st = Some (r, m)) as Hcur by (by apply currentRoom_Some).
  unfold step. rewrite Hs, Hc. cbn [handle].
  split; [| by rewrite on_disconnect_participants, Hcur, decide_True].
  unfold on_disconnect. rewrite Hcur.
  rewrite (participants_Some _ _ _ Hm) in Hin.
  destruct (decide (size (delete s m) = 0%nat)) as [Hsz | Hsz]; cbn [snd].
  - exfalso. apply map_size_empty_iff in Hsz.
    apply elem_of_dom in Hin as [ut Hut].
    assert (delete s m !! t = Some ut) as Hdel by (by rewrite lookup_delete_ne).
    by rewrite Hsz, lookup_empty in Hdel.
  - rewrite inbox_to_emit, decide_True; [done |].
    apply elem_of_addressed. exists tk. split; [| split; [| done]].
    + simpl. by rewrite lookup_insert_ne by congruence.
    + apply (inv_joined _ HI r t tk); [| done | done].
      by rewrite (participants_Some _ _ _ Hm).
Qed.

(** ** The page's side *)

Lemma onServerEvents_single b ev rm :
  Room.onServerEvents b [ev] rm = Room.onServerEvent b ev rm.
Proof.
  unfold Room.onServerEvents. cbn.
  by destruct (Room.onServerEvent b ev rm).
Qed.

Lemma createPeerConnection_willing b peerId w tracks :
  WebRTC.constructs b peerId = true -> WebRTC.localStream w = Some tracks ->
  WebRTC.createPeerConnection b peerId w
  = Some (WebRTC.mkPeerConnection (length tracks) None None [],
          WebRTC.withPeers
            (<[peerId := WebRTC.mkPeerConnection (length tracks) None None []]>
               (WebRTC.peerConnections w)) w).
Proof.
  intros Hb Hl. unfold WebRTC.createPeerConnection. by rewrite Hb, Hl.
Qed.

(** What the loop of the [existing-users] listener leaves, when every
    connection can be constructed. *)
Lemma existingUsersLoop_spec b users rm tracks :
  (∀ t, WebRTC.constructs b t = true) ->
  WebRTC.localStream (Room.webrtcManager rm) = Some tracks ->
  NoDup (eu_socketId <$> users) ->
  let rm' := Room.existingUsersLoop b users rm in
  WebRTC.localStream (Room.webrtcManager rm') = Some tracks ∧
  Room.spatialAudioManager rm' = Room.spatialAudioManager rm ∧
  (∀ eu, eu ∈ users ->
     Room.participants rm' !! eu_socketId eu
     = Some (Room.participantOf (Room.ofExistingUser eu))
     ∧ WebRTC.peerConnections (Room.webrtcManager rm') !! eu_socketId eu
       = Some (WebRTC.mkPeerConnection (length tracks) None None [])) ∧
  (∀ t, t ∉ eu_socketId <$> users ->
     Room.participants rm' !! t = Room.participants rm !! t
     ∧ WebRTC.peerConnections (Room.webrtcManager rm') !! t
       = WebRTC.peerConnections (Room.webrtcManager rm) !! t).
Proof.
  intros Hb. revert rm. induction users as [| user rest IH]; intros rm Hl Hnd.
  - cbn. split; [done |]. split; [done |]. split; [| done].
    by intros eu ?%elem_of_nil.
  - cbn [Room.existingUsersLoop].
    rewrite (createPeerConnection_willing b _ _ tracks) by done.
    rewrite fmap_cons in Hnd. apply NoDup_cons in Hnd as [Hfresh Hnd].
    set (rm1 := Room.withWebRTC _ _).
    destruct (IH rm1) as (Hl' & Hm' & Hin' & Hout'); [done | done |].
    cbv zeta in *.
    split; [done |]. split; [done |]. split.
    + intros eu [-> | Hrest]%elem_of_cons; [| by apply Hin'].
      destruct (Hout' (eu_socketId user) Hfresh) as [-> ->].
      subst rm1. cbn. by rewrite !lookup_insert_eq.
    + intros t Ht. rewrite fmap_cons in Ht.
      apply not_elem_of_cons in Ht as [Hne Ht].
      destruct (Hout' t Ht) as [-> ->].
      subst rm1. cbn. by rewrite !lookup_insert_ne.
Qed.

Lemma sendOffer_known b peerId w pc description :
  WebRTC.peerConnections w !! peerId = Some pc ->
  WebRTC.createOffer b = Some description ->
  WebRTC.setLocalDescription b = true ->
  WebRTC.sendOffer b peerId w
  = (WebRTC.withPeers (<[peerId := WebRTC.withLocal description pc]>
                         (WebRTC.peerConnections w)) w,
     [WebRTC.emit_offer peerId description]).
Proof. intros Hpc Ho Hl. unfold WebRTC.sendOffer. by rewrite Hpc, Ho, Hl. Qed.

Lemma handleOffer_known b offer caller w pc description :
  WebRTC.peerConnections w !! caller = Some pc ->
  WebRTC.setRemoteDescription b = true ->
  WebRTC.createAnswer b = Some description ->
  WebRTC.setLocalDescription b = true ->
  WebRTC.handleOffer b offer caller w
  = (WebRTC.withPeers
       (<[caller := WebRTC.withLocal description (WebRTC.withRemote offer pc)]>
          (WebRTC.peerConnections w)) w,
     [WebRTC.emit_answer caller description]).
Proof.
  intros Hpc Hr Ha Hl. unfold WebRTC.handleOffer. rewrite Hpc, Hr, Ha, Hl.
  cbn. by rewrite insert_insert_eq.
Qed.

Lemma handleAnswer_known b answer answerer w pc :
  WebRTC.peerConnections w !! answerer = Some pc ->
  WebRTC.setRemoteDescription b = true ->
  WebRTC.handleAnswer b answer answerer w
  = WebRTC.withPeers (<[answerer := WebRTC.withRemote answer pc]>
                        (WebRTC.peerConnections w)) w.
Proof. intros Hpc Hr. unfold WebRTC.handleAnswer. by rewrite Hpc, Hr. Qed.

Lemma onWire_position p msgs :
  Forall2 Room.onWire [WebRTC.emit_position_update p] msgs ->
  ∃ pos, msgs = [position_update pos] ∧ Room.ofWire pos = p.
Proof.
  intros (msg & rest & Hw & ->%Forall2_nil_inv_l & ->)%Forall2_cons_inv_l.
  inversion Hw; subst. eauto.
Qed.

Lemma onWire_mute m msgs :
  Forall2 Room.onWire [WebRTC.emit_toggle_mute m] msgs -> msgs = [toggle_mute m].
Proof.
  intros (msg & rest & Hw & ->%Forall2_nil_inv_l & ->)%Forall2_cons_inv_l.
  by inversion Hw.
Qed.

Lemma onWire_disconnect msgs :
  Forall2 Room.onWire [WebRTC.socket_disconnect] msgs -> msgs = [disconnect].
Proof.
  intros (msg & rest & Hw & ->%Forall2_nil_inv_l & ->)%Forall2_cons_inv_l.
  by inversion Hw.
Qed.

Lemma onWire_join r uid name msgs :
  Forall2 Room.onWire [WebRTC.emit_join_room r uid name] msgs ->
  msgs = [join_room r uid name].
Proof.
  intros (msg & rest & Hw & ->%Forall2_nil_inv_l & ->)%Forall2_cons_inv_l.
  by inversion Hw.
Qed.

Lemma onWire_candidates target cs msgs :
  Forall2 Room.onWire (WebRTC.emit_ice_candidate target <$> cs) msgs ->
  msgs = send_ice_candidate target <$> cs.
Proof.
  revert msgs. induction cs as [| c cs IH]; intros msgs; cbn.
  - by intros ->%Forall2_nil_inv_l.
  - intros (msg & rest & Hw & Hrest & ->)%Forall2_cons_inv_l.
    rewrite (IH rest Hrest). by inversion Hw.
Qed.

Lemma onicecandidates_some peerId candidates :
  WebRTC.onicecandidates peerId candidates
  = WebRTC.emit_ice_candidate peerId <$> omap (fun c : option string => c) candidates.
Proof.
  unfold WebRTC.onicecandidates.
  induction candidates as [| [c |] candidates IH]; cbn; [done | | done].
  by rewrite IH.
Qed.

Lemma onServerEvents_acc b evs rm out :
  foldl (fun (acc : Room.RoomManager * list WebRTC.Emit) ev =>
           let r := Room.onServerEvent b ev acc.1 in (r.1, acc.2 ++ r.2))
        (rm, out) evs
  = ((Room.onServerEvents b evs rm).1, out ++ (Room.onServerEvents b evs rm).2).
Proof.
  unfold Room.onServerEvents. revert rm out.
  induction evs as [| ev evs IH]; intros rm out; cbn [foldl fst snd].
  - by rewrite app_nil_r.
  - rewrite IH. rewrite (IH _ ([] ++ _)). cbn [fst snd]. by rewrite app_assoc.
Qed.

Lemma onServerEvents_cons b ev evs rm :
  Room.onServerEvents b (ev :: evs) rm
  = ((Room.onServerEvents b evs (Room.onServerEvent b ev rm).1).1,
     (Room.onServerEvent b ev rm).2
     ++ (Room.onServerEvents b evs (Room.onServerEvent b ev rm).1).2).
Proof.
  unfold Room.onServerEvents at 1. cbn [foldl fst snd].
  by rewrite onServerEvents_acc.
Qed.

(** Candidates handed to a page one after the other are added, in that
    order, to the connection it holds for their sender. *)
Lemma ice_events_added b cs sender :
  WebRTC.addIceCandidate b = true ->
  ∀ rm pc,
    WebRTC.peerConnections (Room.webrtcManager rm) !! sender = Some pc ->
    let seen := Room.onServerEvents b ((fun c => ice_candidate c sender) <$> cs) rm in
    seen.2 = [] ∧
    WebRTC.peerConnections (Room.webrtcManager seen.1) !! sender
    = Some (WebRTC.mkPeerConnection (WebRTC.senders pc)
              (WebRTC.localDescription pc) (WebRTC.remoteDescription pc)
              (WebRTC.iceCandidates pc ++ cs)) ∧
    (∀ k, k ≠ sender ->
          WebRTC.peerConnections (Room.webrtcManager seen.1) !! k
          = WebRTC.peerConnections (Room.webrtcManager rm) !! k) ∧
    Room.participants seen.1 = Room.participants rm ∧
    Room.spatialAudioManager seen.1 = Room.spatialAudioManager rm.
Proof.
  intros Hb. induction cs as [| c cs IH]; intros rm pc Hpc; cbv zeta.
  - cbn. rewrite app_nil_r, Hpc. by destruct pc.
  - rewrite fmap_cons, onServerEvents_cons.
    cbn [Room.onServerEvent fst snd app].
    unfold WebRTC.handleIceCandidate. rewrite Hpc, Hb.
    set (rm1 := Room.withWebRTC _ rm).
    destruct (IH rm1 (WebRTC.withCandidate c pc)) as (Hout & Hsender & Hrest & Hp & Hm).
    { subst rm1. cbn. apply lookup_insert_eq. }
    cbv zeta in *. split; [done |]. split.
    { rewrite Hsender. cbn. by rewrite <- app_assoc. }
    split; [| done].
    intros k Hk. rewrite (Hrest k Hk). subst rm1. cbn.
    by rewrite lookup_insert_ne.
Qed.

Lemma movedAndMuted_reachable : reachable movedAndMuted.
Proof.
  by exists [connection "a"; connection "b";
             message "a" (join_room "r1" 1 "alice");
             message "a" (position_update (mkPosition 3 0 4));
             message "a" (toggle_mute true)].
Qed.

(** ** Joining *)

(** In a reachable state, a page whose socket joins room [r] is told of the
    room once: it sends nothing, and for every other socket the registry
    lists in [r] it holds a participant with the user, the position and
    the mute flag of the registry, and a fresh peer connection with no
    description.  For its own socket and for sockets not listed in [r] it
    holds what it held before. *)
Theorem newcomer_sees_room st s sk r uid name page tracks b :
  reachable st -> sockets st !! s = Some sk -> connected sk = true ->
  WebRTC.localStream (Room.webrtcManager page) = Some tracks ->
  (∀ t, WebRTC.constructs b t = true) ->
  let joined := step (message s (join_room r uid name)) st in
  let told := Room.onServerEvents b (inbox s joined.2) page in
  told.2 = [] ∧
  (∀ t u, t ≠ s -> rooms st !! r ≫= (.!! t) = Some u ->
     Room.participants told.1 !! t
     = Some (Room.mkParticipant (userId u) (username u)
               (Room.ofWire (position u)) (muted u)
               (Room.generateParticipantColor (userId u)))
     ∧ WebRTC.peerConnections (Room.webrtcManager told.1) !! t
       = Some (WebRTC.mkPeerConnection (length tracks) None None [])) ∧
  (∀ t, t = s ∨ rooms st !! r ≫= (.!! t) = None ->
     Room.participants told.1 !! t = Room.participants page !! t
     ∧ WebRTC.peerConnections (Room.webrtcManager told.1) !! t
       = WebRTC.peerConnections (Room.webrtcManager page) !! t).
Proof.
  intros HI%Inv_reachable Hs Hc Hl Hb. cbv zeta.
  rewrite (join_inbox_self st s sk) by done.
  rewrite onServerEvents_single. cbn [Room.onServerEvent fst snd].
  set (roomUsers := <[s := mkUser uid name origin false]> (default ∅ (rooms st !! r))).
  destruct (existingUsersLoop_spec b (existingUsers s roomUsers) page tracks
              Hb Hl (NoDup_existingUsers s roomUsers)) as (_ & _ & Hin & Hout).
  cbv zeta in *. split; [done |]. split.
  - intros t u Hts Hu.
    assert (mkExistingUser t (userId u) (username u) (position u) (muted u)
            ∈ existingUsers s roomUsers) as Heu.
    { apply elem_of_existingUsers. cbn. split; [done |].
      subst roomUsers. rewrite lookup_insert_ne by done.
      destruct (rooms st !! r) as [m |]; cbn in *; [| done].
      rewrite Hu. by destruct u. }
    apply Hin in Heu. done.
  - intros t Ht. apply Hout.
    intros (eu & Heq & [Hne Heu]%elem_of_existingUsers)%list_elem_of_fmap.
    rewrite <- Heq in *.
    destruct Ht as [-> | Hnone]; [done |].
    subst roomUsers. rewrite lookup_insert_ne in Heu by done.
    destruct (rooms st !! r) as [m |]; cbn in *; [congruence |].
    by rewrite lookup_empty in Heu.
Qed.

Lemma newcomer_sees_room_witness :
  let told :=
    Room.onServerEvents (Room.willing "o" "a")
      (inbox "b" (step (message "b" (join_room "r1" 2 "bob")) movedAndMuted).2)
      (Room.ready "r1" 2 "bob") in
  Room.participants told.1 !! "a"
  = Some (Room.mkParticipant 1 "alice" (Room.ofWire (mkPosition 3 0 4)) true
            (Some "#4ecdc4")).
Proof.
  cbv zeta.
  pose proof (newcomer_sees_room movedAndMuted "b"
                (mkSocket true {["b"]} None None None) "r1" 2 "bob"
                (Room.ready "r1" 2 "bob") [WebRTC.mkTrack true false]
                (Room.willing "o" "a") movedAndMuted_reachable)
    as Hsee.
  destruct Hsee as (_ & Hsee & _); [by vm_compute | done | done | done |].
  apply (Hsee "a" (mkUser 1 "alice" (mkPosition 3 0 4) true)); [done |].
  by vm_compute.
Defined.

(** In a reachable state, let the page of socket [b] connect and join its
    room, which lists socket [a]; both pages hold a local stream, the
    browsers answer every call, and neither socket is in a Socket.IO room
    named by the other.  The page of [a] sends one offer to [b]; the page
    of [b] sends nothing until the offer reaches it and then one answer to
    [a]; once the answer is handled nothing more is sent: [a] holds for
    [b] a connection with its offer as local and the answer as remote
    description, [b] holds for [a] the mirror image, and the registry is
    as the join left it. *)
Theorem join_handshake st a b ak bk pa pb tracksA tracksB o ans m0 m1 m2 :
  reachable st -> a ≠ b -> a ≠ Room.roomId pb ->
  sockets st !! a = Some ak -> connected ak = true ->
  sockets st !! b = Some bk -> connected bk = true ->
  a ∈ participants st (Room.roomId pb) ->
  b ∉ socketRooms ak -> a ∉ socketRooms bk ->
  WebRTC.localStream (Room.webrtcManager pa) = Some tracksA ->
  WebRTC.localStream (Room.webrtcManager pb) = Some tracksB ->
  let browser := Room.willing o ans in
  Forall2 Room.onWire (Room.onConnect pb) m0 ->
  let s1 := run (message b <$> m0) st in
  let pa1 := Room.onServerEvents browser (inbox a s1.2) pa in
  let pb1 := Room.onServerEvents browser (inbox b s1.2) pb in
  Forall2 Room.onWire pa1.2 m1 ->
  let s2 := run (message a <$> m1) s1.1 in
  let pb2 := Room.onServerEvents browser (inbox b s2.2) pb1.1 in
  Forall2 Room.onWire pb2.2 m2 ->
  let s3 := run (message b <$> m2) s2.1 in
  let pa3 := Room.onServerEvents browser (inbox a s3.2) pa1.1 in
  pa1.2 = [WebRTC.emit_offer b o] ∧ pb1.2 = [] ∧
  pb2.2 = [WebRTC.emit_answer a ans] ∧ pa3.2 = [] ∧
  WebRTC.peerConnections (Room.webrtcManager pa3.1) !! b
  = Some (WebRTC.mkPeerConnection (length tracksA) (Some o) (Some ans) []) ∧
  WebRTC.peerConnections (Room.webrtcManager pb2.1) !! a
  = Some (WebRTC.mkPeerConnection (length tracksB) (Some ans) (Some o) []) ∧
  b ∈ participants s3.1 (Room.roomId pb) ∧
  rooms s3.1 = rooms s1.1.
Proof.
  intros Hreach Hab Har Ha Hac Hb Hbc Hin Hpa Hpb Hla Hlb.
  apply Inv_reachable in Hreach as HI. cbv zeta.
  intros ->%onWire_join. cbn [fmap list_fmap]. rewrite run_single.
  set (r := Room.roomId pb) in *. set (uid := Room.currentUserId pb).
  set (name := Room.currentUsername pb).
  rewrite (join_inbox_member st b bk r uid name a ak) by done.
  rewrite (join_inbox_self st b bk) by done.
  rewrite !onServerEvents_single.
  pose proof (join_sockets st b bk r uid name Hb Hbc) as Hsock1.
  assert (b ∈ participants (step (message b (join_room r uid name)) st).1 r)
    as Hlisted.
  { unfold step. rewrite Hb, Hbc. cbn [handle].
    rewrite on_join_room_participants, decide_True by done. set_solver. }
  set (s1 := step (message b (join_room r uid name)) st) in *.
  set (roomUsers := <[b := mkUser uid name origin false]> (default ∅ (rooms st !! r))).
  (* the page of [a] *)
  cbn [Room.onServerEvent].
  set (pa0 := Room.addParticipant _ pa).
  rewrite (createPeerConnection_willing _ _ _ tracksA) by done.
  erewrite sendOffer_known;
    [| cbn; apply lookup_insert_eq | done | done].
  cbn [fst snd].
  intros Hm1. apply Forall2_cons_inv_l in Hm1 as (msg1 & rest1 & Hw1 & Hrest1 & ->).
  apply Forall2_nil_inv_l in Hrest1 as ->. inversion Hw1; subst.
  (* the page of [b] *)
  destruct (existingUsersLoop_spec (Room.willing o ans) (existingUsers b roomUsers)
              pb tracksB (fun _ => eq_refl) Hlb (NoDup_existingUsers b roomUsers))
    as (Hlb1 & _ & Hin1 & _).
  cbv zeta in Hin1.
  assert (∃ u, roomUsers !! a = Some u) as [u Hu].
  { subst roomUsers. rewrite lookup_insert_ne by done.
    apply elem_of_participants in Hin as (m & u & -> & Hm). eauto. }
  destruct (Hin1 (mkExistingUser a (userId u) (username u) (position u) (muted u)))
    as [_ Hpcb].
  { apply elem_of_existingUsers. cbn. split; [done |]. rewrite Hu. by destruct u. }
  cbn [eu_socketId] in Hpcb.
  (* the offer *)
  cbn [fmap list_fmap]. rewrite run_single.
  assert (sockets s1.1 !! a = Some ak) as Ha1.
  { rewrite Hsock1. by rewrite lookup_insert_ne. }
  assert (sockets s1.1 !! b
          = Some (mkSocket true ({[r]} ∪ socketRooms bk) (Some r) (Some uid)
                    (Some name))) as Hb1.
  { rewrite Hsock1. by rewrite lookup_insert_eq. }
  destruct (forward_inbox s1.1 a ak connection_offer b _ o Ha1 Hac Hb1)
    as [Hs2 Hin2].
  { cbn. pose proof (inv_own _ HI b bk Hb Hbc). set_solver. }
  { cbn. set_solver. }
  cbn [forward forwarded] in Hs2, Hin2. rewrite Hs2, Hin2.
  rewrite onServerEvents_single.
  cbn [Room.onServerEvent].
  rewrite (handleOffer_known _ _ _ _ _ ans Hpcb) by done.
  cbn [fst snd].
  intros Hm2. apply Forall2_cons_inv_l in Hm2 as (msg2 & rest2 & Hw2 & Hrest2 & ->).
  apply Forall2_nil_inv_l in Hrest2 as ->. inversion Hw2; subst.
  (* the answer *)
  cbn [fmap list_fmap]. rewrite run_single.
  destruct (forward_inbox s1.1 b _ connection_answer a ak ans Hb1 eq_refl Ha1)
    as [Hs3 Hin3].
  { by apply (inv_own _ HI a ak). }
  { done. }
  cbn [forward forwarded] in Hs3, Hin3. rewrite Hs3, Hin3.
  rewrite onServerEvents_single.
  cbn [Room.onServerEvent fst snd Room.withWebRTC Room.webrtcManager].
  erewrite handleAnswer_known; [| cbn; apply lookup_insert_eq | done].
  cbn [WebRTC.withPeers WebRTC.peerConnections].
  rewrite !lookup_insert_eq. done.
Qed.

Lemma join_handshake_witness :
  let browser := Room.willing "sdp-offer" "sdp-answer" in
  let s1 := run [message "b" (join_room "r1" 2 "bob")] movedAndMuted in
  let pa1 := Room.onServerEvents browser (inbox "a" s1.2) (Room.ready "r1" 1 "alice") in
  let pb1 := Room.onServerEvents browser (inbox "b" s1.2) (Room.ready "r1" 2 "bob") in
  let s2 := run [message "a" (send_offer "b" "sdp-offer")] s1.1 in
  let pb2 := Room.onServerEvents browser (inbox "b" s2.2) pb1.1 in
  let s3 := run [message "b" (send_answer "a" "sdp-answer")] s2.1 in
  let pa3 := Room.onServerEvents browser (inbox "a" s3.2) pa1.1 in
  WebRTC.peerConnections (Room.webrtcManager pa3.1) !! "b"
  = Some (WebRTC.mkPeerConnection 1 (Some "sdp-offer") (Some "sdp-answer") []) ∧
  WebRTC.peerConnections (Room.webrtcManager pb2.1) !! "a"
  = Some (WebRTC.mkPeerConnection 1 (Some "sdp-answer") (Some "sdp-offer") []).
Proof.
  cbv zeta.
  pose proof (join_handshake movedAndMuted "a" "b"
                (mkSocket true {["r1"; "a"]} (Some "r1") (Some 1%Z) (Some "alice"))
                (mkSocket true {["b"]} None None None)
                (Room.ready "r1" 1 "alice") (Room.ready "r1" 2 "bob")
                [WebRTC.mkTrack true false] [WebRTC.mkTrack true false]
                "sdp-offer" "sdp-answer"
                [join_room "r1" 2 "bob"]
                [send_offer "b" "sdp-offer"] [send_answer "a" "sdp-answer"]
                movedAndMuted_reachable) as Hshake.
  cbv zeta in Hshake.
  destruct Hshake as (_ & _ & _ & _ & Hpa & Hpb & _); try done.
  - repeat constructor.
  - vm_compute. repeat constructor.
  - vm_compute. repeat constructor.
Defined.

(** ** Moving, muting, leaving *)

(** In a reachable state, let [s] and [t] be open sockets listed in the
    room [r] that [s] recorded (non-empty id), [t] in no Socket.IO room
    named by [s], the page of [t] holding [s] as a participant.  A move of
    the pointer during a drag on the page of [s] puts the user at the world
    position [p] of the pointer; the registry then holds for [s] the
    numbers of [p]; the page of [t] sends nothing, holds [s] at [p] and,
    when its spatial mode is on, leaves the source of [s] with position
    [p] in the panner and the gain of that position. *)
Theorem drag_reaches_pages st s sk r m u t tk ps pt participant rect e msgs b :
  reachable st ->
  sockets st !! s = Some sk -> connected sk = true ->
  roomId sk = Some r -> r ≠ "" -> rooms st !! r = Some m -> m !! s = Some u ->
  t ≠ s -> t ∈ participants st r ->
  sockets st !! t = Some tk -> connected tk = true -> s ∉ socketRooms tk ->
  Room.isDragging ps = true ->
  Room.participants pt !! s = Some participant ->
  let cx := (Room.clientX e - Room.rect_left rect)%R in
  let cy := (Room.clientY e - Room.rect_top rect)%R in
  let moved := Room.onMouseMove rect e ps in
  Forall2 Room.onWire moved.2 msgs ->
  let served := run (message s <$> msgs) st in
  let seen := Room.onServerEvents b (inbox t served.2) pt in
  let p := Room.userPosition moved.1 in
  p = SpatialAudio.canvasToWorldPosition cx cy Room.canvasWidth Room.canvasHeight ∧
  (∃ pos, Room.ofWire pos = p
          ∧ rooms served.1 !! r ≫= (.!! s)
            = Some (mkUser (userId u) (username u) pos (muted u))) ∧
  seen.2 = [] ∧
  Room.participants seen.1 !! s
  = Some (Room.mkParticipant (Room.p_userId participant)
            (Room.p_username participant) p (Room.p_muted participant)
            (Room.p_color participant)) ∧
  (SpatialAudio.isEnabled (Room.spatialAudioManager pt) = true ->
   ∀ sd, SpatialAudio.audioSources (Room.spatialAudioManager pt) !! s = Some sd ->
         SpatialAudio.audioSources (Room.spatialAudioManager seen.1) !! s
         = Some {| SpatialAudio.panner :=
                     SpatialAudio.setPannerPosition (SpatialAudio.panner sd) p;
                   SpatialAudio.gainNode :=
                     SpatialAudio.gainFor (SpatialAudio.distance p);
                   SpatialAudio.position := p |}).
Proof.
  intros HI%Inv_reachable Hs Hc Hid Hr Hm Hu Hne Hin Ht Htc Hpriv Hdrag Hpart.
  cbv zeta. unfold Room.onMouseMove. rewrite Hdrag.
  cbn [Room.updateUserPosition fst snd Room.userPosition].
  set (p := SpatialAudio.canvasToWorldPosition _ _ _ _).
  intros (pos & -> & Hpos)%onWire_position.
  cbn [fmap list_fmap]. rewrite run_single.
  destruct (update_inboxes st s sk r m u t tk pos false)
    as (Hinbox & _ & Hreg & _); try done.
  rewrite Hinbox, onServerEvents_single.
  cbn [Room.onServerEvent fst snd].
  split; [done |]. split; [by exists pos |]. split; [done |].
  unfold Room.updateParticipantPosition. rewrite Hpart.
  cbn [Room.withSpatial Room.withParticipants Room.participants
         Room.spatialAudioManager].
  rewrite lookup_insert_eq, Hpos. split; [done |].
  intros He sd Hsd. unfold SpatialAudio.updateAudioSourcePosition.
  rewrite Hsd, He. cbn [SpatialAudio.withSources SpatialAudio.audioSources].
  rewrite lookup_insert_eq. by rewrite RoomProps.position_eta.
Qed.

Lemma twoInRoom_reachable : reachable twoInRoom.
Proof.
  by exists [connection "a"; connection "b";
             message "a" (join_room "r1" 1 "alice");
             message "b" (join_room "r1" 2 "bob")].
Qed.

Lemma drag_reaches_pages_witness :
  let moved := Room.onMouseMove (Room.mkDOMRect 10 20)
                 (Room.mkMouseEvent 610 170) Room.alicePage in
  let served := run [message "a" (position_update (mkPosition 5 0 (-5)))]
                  twoInRoom in
  let seen := Room.onServerEvents (Room.willing "offer" "answer")
                (inbox "b" served.2) Room.bobPage in
  Room.participants seen.1 !! "a"
  = Some (Room.mkParticipant 1 "alice" (Room.userPosition moved.1) false
            (Some "#4ecdc4")).
Proof.
  cbv zeta.
  pose proof (drag_reaches_pages twoInRoom "a"
                (mkSocket true {["r1"; "a"]} (Some "r1") (Some 1%Z) (Some "alice"))
                "r1"
                {["a" := mkUser 1 "alice" origin false;
                  "b" := mkUser 2 "bob" origin false]}
                (mkUser 1 "alice" origin false) "b"
                (mkSocket true {["r1"; "b"]} (Some "r1") (Some 2%Z) (Some "bob"))
                Room.alicePage Room.bobPage
                (Room.mkParticipant 1 "alice" (Room.ofWire origin) false
                   (Some "#4ecdc4"))
                (Room.mkDOMRect 10 20) (Room.mkMouseEvent 610 170)
                [position_update (mkPosition 5 0 (-5))]
                (Room.willing "offer" "answer") twoInRoom_reachable) as Hdrag.
  cbv zeta in Hdrag.
  destruct Hdrag as (_ & _ & _ & Hseen & _); try done.
  cbn. constructor; [| constructor].
  replace (SpatialAudio.canvasToWorldPosition _ _ _ _)
    with (Room.ofWire (mkPosition 5 0 (-5))); [constructor |].
  unfold Room.ofWire, SpatialAudio.canvasToWorldPosition, Room.canvasWidth,
    Room.canvasHeight, Q2R. cbn. f_equal; field.
Defined.

(** Under the same conditions on the sockets, with a microphone track on
    the page of [s]: pressing the mute button flips the track; the flag
    the page shows, the flag the registry holds for [s] and the flag the
    page of [t] holds for [s] all say whether the track is now disabled.
    The page of [t] sends nothing and its audio is untouched.  A second
    press puts the track back. *)
Theorem mute_reaches_pages st s sk r m u t tk ps pt participant track rest
    msgs b :
  reachable st ->
  sockets st !! s = Some sk -> connected sk = true ->
  roomId sk = Some r -> r ≠ "" -> rooms st !! r = Some m -> m !! s = Some u ->
  t ≠ s -> t ∈ participants st r ->
  sockets st !! t = Some tk -> connected tk = true -> s ∉ socketRooms tk ->
  WebRTC.localStream (Room.webrtcManager ps) = Some (track :: rest) ->
  Room.participants pt !! s = Some participant ->
  let pressed := Room.toggleMute ps in
  Forall2 Room.onWire pressed.2 msgs ->
  let served := run (message s <$> msgs) st in
  let seen := Room.onServerEvents b (inbox t served.2) pt in
  ∃ track',
    WebRTC.localStream (Room.webrtcManager pressed.1) = Some (track' :: rest) ∧
    WebRTC.enabled track' = negb (WebRTC.enabled track) ∧
    WebRTC.stopped track' = WebRTC.stopped track ∧
    Room.isMuted pressed.1 = negb (WebRTC.enabled track') ∧
    rooms served.1 !! r ≫= (.!! s)
    = Some (mkUser (userId u) (username u) (position u)
              (negb (WebRTC.enabled track'))) ∧
    seen.2 = [] ∧
    Room.participants seen.1 !! s
    = Some (Room.mkParticipant (Room.p_userId participant)
              (Room.p_username participant) (Room.p_position participant)
              (negb (WebRTC.enabled track')) (Room.p_color participant)) ∧
    Room.spatialAudioManager seen.1 = Room.spatialAudioManager pt ∧
    WebRTC.localStream (Room.webrtcManager (Room.toggleMute pressed.1).1)
    = Some (track :: rest) ∧
    Room.isMuted (Room.toggleMute pressed.1).1 = negb (WebRTC.enabled track).
Proof.
  intros HI%Inv_reachable Hs Hc Hid Hr Hm Hu Hne Hin Ht Htc Hpriv Hl Hpart.
  cbv zeta. unfold Room.toggleMute at 1. cbn [snd].
  intros ->%onWire_mute. cbn [fmap list_fmap]. rewrite run_single.
  unfold Room.toggleMute, WebRTC.toggleMute. rewrite Hl.
  cbn [fst snd Room.webrtcManager Room.isMuted WebRTC.localStream WebRTC.enabled
         WebRTC.stopped].
  destruct (update_inboxes st s sk r m u t tk origin
              (negb (negb (WebRTC.enabled track))))
    as (_ & Hinbox & _ & Hreg); try done.
  rewrite Hinbox, onServerEvents_single.
  cbn [Room.onServerEvent fst snd]. eexists.
  split; [done |]. cbn [WebRTC.enabled WebRTC.stopped].
  split; [done |]. split; [done |]. split; [done |]. split; [done |].
  split; [done |].
  unfold Room.updateParticipantMuteStatus. rewrite Hpart.
  cbn [Room.withParticipants Room.participants Room.spatialAudioManager].
  rewrite lookup_insert_eq. split; [done |]. split; [done |].
  rewrite negb_involutive. by destruct track.
Qed.

Lemma mute_reaches_pages_witness :
  let pressed := Room.toggleMute (Room.ready "r1" 1 "alice") in
  let served := run [message "a" (toggle_mute true)] twoInRoom in
  let seen := Room.onServerEvents (Room.willing "offer" "answer")
                (inbox "b" served.2) Room.bobPage in
  Room.isMuted pressed.1 = true ∧
  Room.participants seen.1 !! "a"
  = Some (Room.mkParticipant 1 "alice" (Room.ofWire origin) true (Some "#4ecdc4")).
Proof.
  cbv zeta.
  pose proof (mute_reaches_pages twoInRoom "a"
                (mkSocket true {["r1"; "a"]} (Some "r1") (Some 1%Z) (Some "alice"))
                "r1"
                {["a" := mkUser 1 "alice" origin false;
                  "b" := mkUser 2 "bob" origin false]}
                (mkUser 1 "alice" origin false) "b"
                (mkSocket true {["r1"; "b"]} (Some "r1") (Some 2%Z) (Some "bob"))
                (Room.ready "r1" 1 "alice") Room.bobPage
                (Room.mkParticipant 1 "alice" (Room.ofWire origin) false
                   (Some "#4ecdc4"))
                (WebRTC.mkTrack true false) []
                [toggle_mute true]
                (Room.willing "offer" "answer") twoInRoom_reachable) as Hmute.
  cbv zeta in Hmute.
  destruct Hmute as (track' & _ & Hflip & _ & Hshown & _ & _ & Hseen & _);
    try done.
  cbn. repeat constructor.
Defined.

(** Under the same conditions on the sockets: when the page of [s] leaves
    the room and its [fetch] of the leave route resolves, the page ends
    with no peer connection, every local track stopped, no audio source
    and an uninitialised spatial audio manager; the registry no longer
    lists [s] in [r]; and the page of [t] sends nothing and holds no
    participant, no peer connection and no audio source for [s].  When the
    [fetch] rejects the page cleans up nothing and sends nothing. *)
Theorem leave_reaches_pages st s sk r m u t tk ps pt msgs b :
  reachable st ->
  sockets st !! s = Some sk -> connected sk = true ->
  roomId sk = Some r -> r ≠ "" -> rooms st !! r = Some m -> m !! s = Some u ->
  t ≠ s -> t ∈ participants st r ->
  sockets st !! t = Some tk -> connected tk = true -> s ∉ socketRooms tk ->
  let gone := Room.leaveRoom false ps in
  Forall2 Room.onWire gone.2 msgs ->
  let served := run (message s <$> msgs) st in
  let seen := Room.onServerEvents b (inbox t served.2) pt in
  WebRTC.peerConnections (Room.webrtcManager gone.1) = ∅ ∧
  (∀ tracks track,
     WebRTC.localStream (Room.webrtcManager gone.1) = Some tracks ->
     track ∈ tracks -> WebRTC.stopped track = true) ∧
  SpatialAudio.audioSources (Room.spatialAudioManager gone.1) = ∅ ∧
  SpatialAudio.initialized (Room.spatialAudioManager gone.1) = false ∧
  (s ∉ participants served.1 r) ∧
  seen.2 = [] ∧
  Room.participants seen.1 !! s = None ∧
  WebRTC.peerConnections (Room.webrtcManager seen.1) !! s = None ∧
  SpatialAudio.audioSources (Room.spatialAudioManager seen.1) !! s = None ∧
  Room.leaveRoom true ps = (ps, []).
Proof.
  intros HI%Inv_reachable Hs Hc Hid Hr Hm Hu Hne Hin Ht Htc Hpriv.
  cbv zeta. cbn [Room.leaveRoom fst snd].
  intros ->%onWire_disconnect. cbn [fmap list_fmap]. rewrite run_single.
  destruct (disconnect_inbox st s sk r m u t tk) as [Hinbox Hreg]; try done.
  rewrite Hinbox, Hreg, onServerEvents_single.
  cbn [Room.onServerEvent fst snd].
  split; [done |]. split.
  { intros tracks track.
    cbn [Room.withSpatial Room.withWebRTC Room.webrtcManager].
    unfold WebRTC.disconnect. cbn [WebRTC.withPeers WebRTC.localStream].
    set (w1 := WebRTC.mkManager _ _).
    assert (∀ ks w, WebRTC.localStream
                      (foldl (fun acc peerId => WebRTC.removePeerConnection peerId acc)
                             w ks) = WebRTC.localStream w) as ->.
    { induction ks as [| k ks IH]; intros w; [done |]. cbn [foldl].
      rewrite IH. unfold WebRTC.removePeerConnection.
      by destruct (WebRTC.peerConnections w !! k). }
    subst w1. cbn [WebRTC.localStream].
    destruct (WebRTC.localStream (Room.webrtcManager ps)) as [ts |]; [| done].
    intros [= <-] (t0 & -> & _)%list_elem_of_fmap. done. }
  rewrite ManagerProps.dispose_eq.
  split; [done |]. split; [done |]. split; [set_solver |]. split; [done |].
  split; [apply lookup_delete_eq |]. split.
  { cbn. by rewrite RoomProps.removePeerConnection_lookup, decide_True. }
  split; [| done].
  cbn. by rewrite RoomProps.removeAudioSource_lookup, decide_True.
Qed.

Lemma leave_reaches_pages_witness :
  let served := run [message "a" disconnect] twoInRoom in
  let seen := Room.onServerEvents (Room.willing "offer" "answer")
                (inbox "b" served.2) Room.bobPage in
  ("a" ∉ participants served.1 "r1") ∧
  Room.participants seen.1 !! "a" = None ∧
  WebRTC.peerConnections (Room.webrtcManager seen.1) !! "a" = None.
Proof.
  cbv zeta.
  pose proof (leave_reaches_pages twoInRoom "a"
                (mkSocket true {["r1"; "a"]} (Some "r1") (Some 1%Z) (Some "alice"))
                "r1"
                {["a" := mkUser 1 "alice" origin false;
                  "b" := mkUser 2 "bob" origin false]}
                (mkUser 1 "alice" origin false) "b"
                (mkSocket true {["r1"; "b"]} (Some "r1") (Some 2%Z) (Some "bob"))
                (Room.ready "r1" 1 "alice") Room.bobPage
                [disconnect]
                (Room.willing "offer" "answer") twoInRoom_reachable) as Hleave.
  cbv zeta in Hleave.
  destruct Hleave as (_ & _ & _ & _ & Hreg & _ & Hpart & Hpc & _); try done.
  cbn. repeat constructor.
Defined.

(** ** Candidates *)

(** In a reachable state with [a] and [b] open and [b] in no Socket.IO room
    named by [a]: the candidates the connection of [a] for [b] gathers are
    relayed without a change of the registry or the sockets.  They are
    handed, in the order they were gathered, to every socket that is in
    the Socket.IO room named by [b] and in none named by [a]: to [b], and
    to whoever joined a room with the id of [b] as its name; such a socket
    is open, and no other socket is handed anything, [a] included.  If the
    page of [b] holds a connection for [a], it adds the candidates to it in
    that order, sends nothing and leaves its other connections alone. *)
Theorem candidates_reach_peer st a b ak bk pb pc gathered msgs browser :
  reachable st ->
  sockets st !! a = Some ak -> connected ak = true ->
  sockets st !! b = Some bk -> connected bk = true ->
  a ∉ socketRooms bk ->
  WebRTC.peerConnections (Room.webrtcManager pb) !! a = Some pc ->
  WebRTC.addIceCandidate browser = true ->
  Forall2 Room.onWire (WebRTC.onicecandidates b gathered) msgs ->
  let served := run (message a <$> msgs) st in
  let seen := Room.onServerEvents browser (inbox b served.2) pb in
  served.1 = st ∧
  (∀ t tk, sockets st !! t = Some tk ->
           b ∈ socketRooms tk -> a ∉ socketRooms tk ->
           connected tk = true ∧
           inbox t served.2
           = (fun c => ice_candidate c a)
               <$> omap (fun c : option string => c) gathered) ∧
  (∀ t, inbox t served.2 ≠ [] ->
        ∃ tk, sockets st !! t = Some tk
              ∧ b ∈ socketRooms tk ∧ a ∉ socketRooms tk) ∧
  inbox a served.2 = [] ∧
  seen.2 = [] ∧
  WebRTC.peerConnections (Room.webrtcManager seen.1) !! a
  = Some (WebRTC.mkPeerConnection (WebRTC.senders pc)
            (WebRTC.localDescription pc) (WebRTC.remoteDescription pc)
            (WebRTC.iceCandidates pc
             ++ omap (fun c : option string => c) gathered)) ∧
  (∀ k, k ≠ a ->
        WebRTC.peerConnections (Room.webrtcManager seen.1) !! k
        = WebRTC.peerConnections (Room.webrtcManager pb) !! k).
Proof.
  intros HI%Inv_reachable Ha Hac Hb Hbc Hpriv Hpc Hadd.
  rewrite onicecandidates_some. intros ->%onWire_candidates. cbv zeta.
  set (cs := omap (fun c : option string => c) gathered).
  assert (message a <$> (send_ice_candidate b <$> cs)
          = forwards a b ((fun c => (candidate, c)) <$> cs)) as ->.
  { unfold forwards. rewrite <- !list_fmap_compose. done. }
  destruct (run_forwards st a ak b ((fun c => (candidate, c)) <$> cs) Ha Hac)
    as [Hst Hinbox].
  rewrite Hst. split; [done |]. split; [| split].
  { intros t tk Ht Hin Hout. split.
    - destruct (connected tk) eqn:Htc; [done |].
      rewrite (inv_closed _ HI t tk Ht Htc) in Hin. set_solver.
    - rewrite Hinbox, decide_True, <- list_fmap_compose; [done |].
      apply elem_of_addressed. eauto. }
  { intros t. rewrite Hinbox. case_decide as Hadr; [| done].
    intros _. by apply elem_of_addressed in Hadr. }
  rewrite !Hinbox.
  rewrite decide_False, decide_True.
  - split; [done |]. rewrite <- list_fmap_compose.
    destruct (ice_events_added browser cs a Hadd pb pc Hpc)
      as (Hout & Hsender & Hrest & _).
    cbv zeta in *. done.
  - apply elem_of_addressed. exists bk. split; [done |]. split; [| done].
    by apply (inv_own _ HI).
  - intros (sk & Hsk & _ & Hout)%elem_of_addressed.
    assert (sk = ak) as -> by congruence.
    by apply Hout, (inv_own _ HI a).
Qed.

Lemma candidates_reach_peer_witness :
  let msgs := [send_ice_candidate "b" "c1"; send_ice_candidate "b" "c2"] in
  let served := run (message "a" <$> msgs) twoInRoom in
  let seen := Room.onServerEvents (Room.willing "offer" "answer")
                (inbox "b" served.2) Room.bobPage in
  WebRTC.peerConnections (Room.webrtcManager seen.1) !! "a"
  = Some (WebRTC.mkPeerConnection 1 (Some "offer") None ["c1"; "c2"]).
Proof.
  cbv zeta.
  pose proof (candidates_reach_peer twoInRoom "a" "b"
                (mkSocket true {["r1"; "a"]} (Some "r1") (Some 1%Z) (Some "alice"))
                (mkSocket true {["r1"; "b"]} (Some "r1") (Some 2%Z) (Some "bob"))
                Room.bobPage
                (WebRTC.mkPeerConnection 1 (Some "offer") None [])
                [Some "c1"; Some "c2"; None]
                [send_ice_candidate "b" "c1"; send_ice_candidate "b" "c2"]
                (Room.willing "offer" "answer") twoInRoom_reachable) as Hice.
  cbv zeta in Hice.
  destruct Hice as (_ & _ & _ & _ & _ & Hseen & _); try done.
  cbn. repeat constructor.
Defined.

End WireProps.
